(** * Facelet perception and cube-state transform engine

    A shallow embedding of the move engine of [src/animations.js]
    ([parseMove], [applyMoveToCubeState], the six [rotate*Face] procedures and
    [rotate2DArray]), of the animation bookkeeping of the same module
    ([getAffectedCubes], [easeInOutCubic], [animate], [updateAnimations],
    [stopAllAnimations]) and of the numeric, grid-correction, analysis and
    saving helpers of [src/components/CubeRecognition.js].

    The move engine mutates JavaScript objects through references, so it is
    modelled over an explicit store with a state-and-exception monad; a
    value-level view of a cube state is obtained by loading the object graph
    that hangs off a reference. *)

From Stdlib Require Import String Ascii List Arith Lia Bool ZArith QArith Qround Qabs Qminmax Lqa.
From Stdlib Require Import PrimFloat Uint63 Permutation.
Import ListNotations.
Close Scope Q_scope.
Close Scope Z_scope.
Local Open Scope nat_scope.
Local Open Scope list_scope.

(* ================================================================== *)
(** * Part I: the store                                                *)
(* ================================================================== *)

(** Values that live in the cells of a face grid.  Colour labels are
    JavaScript strings; [JNull] and [JUndefined] appear when an array is
    created by [Array(n).fill(null)] or read out of range. *)
Inductive jsval : Type :=
| JUndefined
| JNull
| JStr (s : string).

Inductive FaceName : Type := Front | Back | Up | Down | Left | Right.

(** References are indices into the store. *)
Abbreviation loc := nat (only parsing).

(** The cube-state object: six properties, each a reference to a face
    object. *)
Record CubeObj : Type := mkCubeObj {
  o_front : loc; o_back : loc; o_up : loc;
  o_down : loc; o_left : loc; o_right : loc }.

Definition face_of (c : CubeObj) (f : FaceName) : loc :=
  match f with
  | Front => o_front c | Back => o_back c | Up => o_up c
  | Down => o_down c | Left => o_left c | Right => o_right c
  end.

(** The store is sorted by the kind of object: inner arrays (rows of
    cells), outer arrays (rows of row references), face objects (their
    [colors] property, a reference to an outer array) and cube-state
    objects.  A reference is an index into the store of its sort, and
    allocation appends. *)
Record Heap : Type := mkHeap {
  rowsH : list (list jsval);
  gridsH : list (list loc);
  facesH : list loc;
  cubesH : list CubeObj }.

Definition emptyHeap : Heap := mkHeap [] [] [] [].

Inductive jserror : Type :=
| TypeError   (* property access on undefined *)
| BadRef.     (* a reference that is not in the store *)

Inductive result (A : Type) : Type :=
| Ok (a : A)
| Throw (e : jserror).
Arguments Ok {A} a.
Arguments Throw {A} e.

Definition M (A : Type) : Type := Heap -> result (A * Heap).

Definition ret {A} (a : A) : M A := fun h => Ok (a, h).

Definition bind {A B} (c : M A) (k : A -> M B) : M B :=
  fun h => match c h with
           | Ok (a, h') => k a h'
           | Throw e => Throw e
           end.

Definition throw {A} (e : jserror) : M A := fun _ => Throw e.

Declare Scope js_scope.
Delimit Scope js_scope with js.
Notation "x <- c ;; k" := (bind c (fun x => k))
  (at level 61, c at next level, right associativity) : js_scope.
Notation "c ;; k" := (bind c (fun _ => k))
  (at level 61, right associativity) : js_scope.
Local Open Scope js_scope.

Definition result_map {A B} (f : A -> B) (r : result A) : result B :=
  match r with Ok a => Ok (f a) | Throw e => Throw e end.

(** ** Array updates as JavaScript performs them *)

(** [a[j] = v]: inside the array the element is replaced, beyond its end
    the array grows and the skipped positions read as [undefined]. *)
Fixpoint js_set (cells : list jsval) (j : nat) (v : jsval) : list jsval :=
  match cells, j with
  | [], 0 => [v]
  | [], S j' => JUndefined :: js_set [] j' v
  | _ :: t, 0 => v :: t
  | c :: t, S j' => c :: js_set t j' v
  end.

(** Replacing a slot of the store that is known to exist. *)
Fixpoint upd {A} (l : list A) (n : nat) (a : A) : list A :=
  match l, n with
  | [], _ => []
  | _ :: t, 0 => a :: t
  | x :: t, S n' => x :: upd t n' a
  end.

(** ** Primitive accesses *)

(** [cubeState.front], [cubeState.up], ... *)
Definition getFace (st : loc) (f : FaceName) : M loc := fun h =>
  match nth_error (cubesH h) st with
  | Some c => Ok (face_of c f, h)
  | None => Throw BadRef
  end.

(** [face.colors] *)
Definition getColors (fc : loc) : M loc := fun h =>
  match nth_error (facesH h) fc with
  | Some g => Ok (g, h)
  | None => Throw BadRef
  end.

(** [face.colors = g] *)
Definition setColors (fc g : loc) : M unit := fun h =>
  match nth_error (facesH h) fc with
  | Some _ => Ok (tt, mkHeap (rowsH h) (gridsH h) (upd (facesH h) fc g) (cubesH h))
  | None => Throw BadRef
  end.

(** [array.length] of an outer array *)
Definition arrayLength (g : loc) : M nat := fun h =>
  match nth_error (gridsH h) g with
  | Some rs => Ok (length rs, h)
  | None => Throw BadRef
  end.

(** [array[i]] used as the base of a further index: when the outer array
    has no element [i] the value is [undefined] and indexing it throws. *)
Definition getRow (g : loc) (i : nat) : M loc := fun h =>
  match nth_error (gridsH h) g with
  | Some rs => match nth_error rs i with
               | Some r => Ok (r, h)
               | None => Throw TypeError
               end
  | None => Throw BadRef
  end.

(** [row[j]] as a value; out of range it is [undefined]. *)
Definition getCell (r : loc) (j : nat) : M jsval := fun h =>
  match nth_error (rowsH h) r with
  | Some cells => Ok (nth j cells JUndefined, h)
  | None => Throw BadRef
  end.

(** [row[j] = v] *)
Definition setCell (r : loc) (j : nat) (v : jsval) : M unit := fun h =>
  match nth_error (rowsH h) r with
  | Some cells =>
      Ok (tt, mkHeap (upd (rowsH h) r (js_set cells j v)) (gridsH h) (facesH h) (cubesH h))
  | None => Throw BadRef
  end.

(** Allocation of a new inner array, outer array, face object and
    cube-state object. *)
Definition allocRow (cells : list jsval) : M loc := fun h =>
  Ok (length (rowsH h), mkHeap (rowsH h ++ [cells]) (gridsH h) (facesH h) (cubesH h)).

Definition allocGrid (rs : list loc) : M loc := fun h =>
  Ok (length (gridsH h), mkHeap (rowsH h) (gridsH h ++ [rs]) (facesH h) (cubesH h)).

Definition allocFace (g : loc) : M loc := fun h =>
  Ok (length (facesH h), mkHeap (rowsH h) (gridsH h) (facesH h ++ [g]) (cubesH h)).

Definition allocCube (c : CubeObj) : M loc := fun h =>
  Ok (length (cubesH h), mkHeap (rowsH h) (gridsH h) (facesH h) (cubesH h ++ [c])).

(** ** Control: counted loops and traversals *)

(** [for (let i = start; i < start + k; i++) body(i)] *)
Fixpoint forRange (k start : nat) (body : nat -> M unit) : M unit :=
  match k with
  | 0 => ret tt
  | S k' => body start ;; forRange k' (S start) body
  end.

Fixpoint mapM {A B} (f : A -> M B) (l : list A) : M (list B) :=
  match l with
  | [] => ret []
  | x :: t => y <- f x ;; ys <- mapM f t ;; ret (y :: ys)
  end.

(** ** Compound accesses used by the engine *)

(** [cubeState.f.colors] *)
Definition getColorsOf (st : loc) (f : FaceName) : M loc :=
  fc <- getFace st f ;; getColors fc.

(** [cubeState.f.colors = g] *)
Definition setColorsOf (st : loc) (f : FaceName) (g : loc) : M unit :=
  fc <- getFace st f ;; setColors fc g.

(** [array[i][j]] *)
Definition gridGet (g : loc) (i j : nat) : M jsval :=
  r <- getRow g i ;; getCell r j.

(** [array[i][j] = v] *)
Definition gridSet (g : loc) (i j : nat) (v : jsval) : M unit :=
  r <- getRow g i ;; setCell r j v.

(** [cubeState.f.colors[i][j]] *)
Definition cellGet (st : loc) (f : FaceName) (i j : nat) : M jsval :=
  g <- getColorsOf st f ;; gridGet g i j.

(** [cubeState.f.colors[i][j] = v] *)
Definition cellSet (st : loc) (f : FaceName) (i j : nat) (v : jsval) : M unit :=
  g <- getColorsOf st f ;; gridSet g i j v.

(** [cubeState.f.colors[i][j] = cubeState.f'.colors[i'][j']] *)
Definition cellCopy (st : loc) (dst src : FaceName * nat * nat) : M unit :=
  let '(f, i, j) := dst in
  let '(f', i', j') := src in
  v <- cellGet st f' i' j' ;; cellSet st f i j v.

(** Whole-array reads, used when an object graph is serialised. *)
Definition getRows (g : loc) : M (list loc) := fun h =>
  match nth_error (gridsH h) g with
  | Some rs => Ok (rs, h)
  | None => Throw BadRef
  end.

Definition getCells (r : loc) : M (list jsval) := fun h =>
  match nth_error (rowsH h) r with
  | Some cells => Ok (cells, h)
  | None => Throw BadRef
  end.

(* ================================================================== *)
(** * Part II: cube states as values, and [JSON] copies                *)
(* ================================================================== *)

Definition Grid := list (list jsval).

(** The object graph of a cube state read off as a tree:
    [{front: {colors: [[..],[..],[..]]}, back: ..., ...}]. *)
Record CubeVal : Type := mkCubeVal {
  v_front : Grid; v_back : Grid; v_up : Grid;
  v_down : Grid; v_left : Grid; v_right : Grid }.

Definition grid_of (s : CubeVal) (f : FaceName) : Grid :=
  match f with
  | Front => v_front s | Back => v_back s | Up => v_up s
  | Down => v_down s | Left => v_left s | Right => v_right s
  end.

Definition loadGrid (g : loc) : M Grid :=
  rs <- getRows g ;; mapM getCells rs.

Definition loadFace (st : loc) (f : FaceName) : M Grid :=
  g <- getColorsOf st f ;; loadGrid g.

Definition load (st : loc) : M CubeVal :=
  fr <- loadFace st Front ;; bk <- loadFace st Back ;;
  u <- loadFace st Up ;; d <- loadFace st Down ;;
  l <- loadFace st Left ;; r <- loadFace st Right ;;
  ret (mkCubeVal fr bk u d l r).

Definition storeGrid (g : Grid) : M loc :=
  rs <- mapM allocRow g ;; allocGrid rs.

Definition storeFace (g : Grid) : M loc :=
  gl <- storeGrid g ;; allocFace gl.

Definition store (s : CubeVal) : M loc :=
  fr <- storeFace (v_front s) ;; bk <- storeFace (v_back s) ;;
  u <- storeFace (v_up s) ;; d <- storeFace (v_down s) ;;
  l <- storeFace (v_left s) ;; r <- storeFace (v_right s) ;;
  allocCube (mkCubeObj fr bk u d l r).

(** What [JSON.stringify] followed by [JSON.parse] does to a cell: strings
    and [null] survive, [undefined] inside an array comes back as [null]. *)
Definition json_cell (v : jsval) : jsval :=
  match v with
  | JUndefined => JNull
  | _ => v
  end.

Definition json_grid (g : Grid) : Grid := map (map json_cell) g.

Definition json_val (s : CubeVal) : CubeVal :=
  mkCubeVal (json_grid (v_front s)) (json_grid (v_back s)) (json_grid (v_up s))
            (json_grid (v_down s)) (json_grid (v_left s)) (json_grid (v_right s)).

(** [JSON.parse(JSON.stringify(cubeState))]: the graph is read and a fresh
    copy of it is built. *)
Definition jsonClone (st : loc) : M loc :=
  s <- load st ;; store (json_val s).

(* ================================================================== *)
(** * Part III: the move engine ([src/animations.js])                  *)
(* ================================================================== *)

(** [Array(n).fill().map(() => Array(n).fill(null))] *)
Definition newSquare (n : nat) : M loc :=
  rs <- mapM (fun _ => allocRow (repeat JNull n)) (seq 0 n) ;;
  allocGrid rs.

(** Helper function to rotate a 2D array (face) *)
Definition rotate2DArray (array : loc) (clockwise : bool) : M loc :=
  n <- arrayLength array ;;
  rotated <- newSquare n ;;
  (if clockwise then
     forRange n 0 (fun i =>
       forRange n 0 (fun j =>
         v <- gridGet array i j ;; gridSet rotated j (n - 1 - i) v))
   else
     forRange n 0 (fun i =>
       forRange n 0 (fun j =>
         v <- gridGet array i j ;; gridSet rotated (n - 1 - j) i v))) ;;
  ret rotated.

Definition rotateFrontFace (cubeState : loc) (clockwise : bool) : M unit :=
  (* Rotate the front face itself *)
  frontFace <- getColorsOf cubeState Front ;;
  rotated <- rotate2DArray frontFace clockwise ;;
  setColorsOf cubeState Front rotated ;;
  if clockwise then
    (* Save top edge *)
    topEdge0 <- cellGet cubeState Up 2 0 ;;
    topEdge1 <- cellGet cubeState Up 2 1 ;;
    topEdge2 <- cellGet cubeState Up 2 2 ;;
    (* Move left edge to top *)
    cellCopy cubeState (Up, 2, 0) (Left, 0, 2) ;;
    cellCopy cubeState (Up, 2, 1) (Left, 1, 2) ;;
    cellCopy cubeState (Up, 2, 2) (Left, 2, 2) ;;
    (* Move bottom edge to left *)
    cellCopy cubeState (Left, 0, 2) (Down, 0, 2) ;;
    cellCopy cubeState (Left, 1, 2) (Down, 0, 1) ;;
    cellCopy cubeState (Left, 2, 2) (Down, 0, 0) ;;
    (* Move right edge to bottom *)
    cellCopy cubeState (Down, 0, 0) (Right, 2, 0) ;;
    cellCopy cubeState (Down, 0, 1) (Right, 1, 0) ;;
    cellCopy cubeState (Down, 0, 2) (Right, 0, 0) ;;
    (* Move top edge to right *)
    cellSet cubeState Right 0 0 topEdge0 ;;
    cellSet cubeState Right 1 0 topEdge1 ;;
    cellSet cubeState Right 2 0 topEdge2
  else
    (* Counter-clockwise rotation *)
    topEdge0 <- cellGet cubeState Up 2 0 ;;
    topEdge1 <- cellGet cubeState Up 2 1 ;;
    topEdge2 <- cellGet cubeState Up 2 2 ;;
    (* Move right edge to top *)
    cellCopy cubeState (Up, 2, 0) (Right, 0, 0) ;;
    cellCopy cubeState (Up, 2, 1) (Right, 1, 0) ;;
    cellCopy cubeState (Up, 2, 2) (Right, 2, 0) ;;
    (* Move bottom edge to right *)
    cellCopy cubeState (Right, 0, 0) (Down, 0, 2) ;;
    cellCopy cubeState (Right, 1, 0) (Down, 0, 1) ;;
    cellCopy cubeState (Right, 2, 0) (Down, 0, 0) ;;
    (* Move left edge to bottom *)
    cellCopy cubeState (Down, 0, 0) (Left, 2, 2) ;;
    cellCopy cubeState (Down, 0, 1) (Left, 1, 2) ;;
    cellCopy cubeState (Down, 0, 2) (Left, 0, 2) ;;
    (* Move top edge to left *)
    cellSet cubeState Left 0 2 topEdge0 ;;
    cellSet cubeState Left 1 2 topEdge1 ;;
    cellSet cubeState Left 2 2 topEdge2.

Definition rotateBackFace (cubeState : loc) (clockwise : bool) : M unit :=
  (* Rotate the back face itself *)
  backFace <- getColorsOf cubeState Back ;;
  rotated <- rotate2DArray backFace clockwise ;;
  setColorsOf cubeState Back rotated ;;
  if clockwise then
    topEdge0 <- cellGet cubeState Up 0 0 ;;
    topEdge1 <- cellGet cubeState Up 0 1 ;;
    topEdge2 <- cellGet cubeState Up 0 2 ;;
    (* Move right edge to top *)
    cellCopy cubeState (Up, 0, 0) (Right, 0, 2) ;;
    cellCopy cubeState (Up, 0, 1) (Right, 1, 2) ;;
    cellCopy cubeState (Up, 0, 2) (Right, 2, 2) ;;
    (* Move bottom edge to right *)
    cellCopy cubeState (Right, 0, 2) (Down, 2, 2) ;;
    cellCopy cubeState (Right, 1, 2) (Down, 2, 1) ;;
    cellCopy cubeState (Right, 2, 2) (Down, 2, 0) ;;
    (* Move left edge to bottom *)
    cellCopy cubeState (Down, 2, 0) (Left, 2, 0) ;;
    cellCopy cubeState (Down, 2, 1) (Left, 1, 0) ;;
    cellCopy cubeState (Down, 2, 2) (Left, 0, 0) ;;
    (* Move top edge to left *)
    cellSet cubeState Left 0 0 topEdge2 ;;
    cellSet cubeState Left 1 0 topEdge1 ;;
    cellSet cubeState Left 2 0 topEdge0
  else
    topEdge0 <- cellGet cubeState Up 0 0 ;;
    topEdge1 <- cellGet cubeState Up 0 1 ;;
    topEdge2 <- cellGet cubeState Up 0 2 ;;
    (* Move left edge to top *)
    cellCopy cubeState (Up, 0, 0) (Left, 2, 0) ;;
    cellCopy cubeState (Up, 0, 1) (Left, 1, 0) ;;
    cellCopy cubeState (Up, 0, 2) (Left, 0, 0) ;;
    (* Move bottom edge to left *)
    cellCopy cubeState (Left, 0, 0) (Down, 2, 0) ;;
    cellCopy cubeState (Left, 1, 0) (Down, 2, 1) ;;
    cellCopy cubeState (Left, 2, 0) (Down, 2, 2) ;;
    (* Move right edge to bottom *)
    cellCopy cubeState (Down, 2, 0) (Right, 2, 2) ;;
    cellCopy cubeState (Down, 2, 1) (Right, 1, 2) ;;
    cellCopy cubeState (Down, 2, 2) (Right, 0, 2) ;;
    (* Move top edge to right *)
    cellSet cubeState Right 0 2 topEdge0 ;;
    cellSet cubeState Right 1 2 topEdge1 ;;
    cellSet cubeState Right 2 2 topEdge2.

Definition rotateRightFace (cubeState : loc) (clockwise : bool) : M unit :=
  (* Rotate the right face itself *)
  rightFace <- getColorsOf cubeState Right ;;
  rotated <- rotate2DArray rightFace clockwise ;;
  setColorsOf cubeState Right rotated ;;
  if clockwise then
    topEdge0 <- cellGet cubeState Up 0 2 ;;
    topEdge1 <- cellGet cubeState Up 1 2 ;;
    topEdge2 <- cellGet cubeState Up 2 2 ;;
    (* Move front edge to top *)
    cellCopy cubeState (Up, 0, 2) (Front, 0, 2) ;;
    cellCopy cubeState (Up, 1, 2) (Front, 1, 2) ;;
    cellCopy cubeState (Up, 2, 2) (Front, 2, 2) ;;
    (* Move bottom edge to front *)
    cellCopy cubeState (Front, 0, 2) (Down, 0, 2) ;;
    cellCopy cubeState (Front, 1, 2) (Down, 1, 2) ;;
    cellCopy cubeState (Front, 2, 2) (Down, 2, 2) ;;
    (* Move back edge to bottom *)
    cellCopy cubeState (Down, 0, 2) (Back, 2, 0) ;;
    cellCopy cubeState (Down, 1, 2) (Back, 1, 0) ;;
    cellCopy cubeState (Down, 2, 2) (Back, 0, 0) ;;
    (* Move top edge to back *)
    cellSet cubeState Back 0 0 topEdge2 ;;
    cellSet cubeState Back 1 0 topEdge1 ;;
    cellSet cubeState Back 2 0 topEdge0
  else
    topEdge0 <- cellGet cubeState Up 0 2 ;;
    topEdge1 <- cellGet cubeState Up 1 2 ;;
    topEdge2 <- cellGet cubeState Up 2 2 ;;
    (* Move back edge to top *)
    cellCopy cubeState (Up, 0, 2) (Back, 2, 0) ;;
    cellCopy cubeState (Up, 1, 2) (Back, 1, 0) ;;
    cellCopy cubeState (Up, 2, 2) (Back, 0, 0) ;;
    (* Move bottom edge to back *)
    cellCopy cubeState (Back, 0, 0) (Down, 2, 2) ;;
    cellCopy cubeState (Back, 1, 0) (Down, 1, 2) ;;
    cellCopy cubeState (Back, 2, 0) (Down, 0, 2) ;;
    (* Move front edge to bottom *)
    cellCopy cubeState (Down, 0, 2) (Front, 0, 2) ;;
    cellCopy cubeState (Down, 1, 2) (Front, 1, 2) ;;
    cellCopy cubeState (Down, 2, 2) (Front, 2, 2) ;;
    (* Move top edge to front *)
    cellSet cubeState Front 0 2 topEdge0 ;;
    cellSet cubeState Front 1 2 topEdge1 ;;
    cellSet cubeState Front 2 2 topEdge2.

Definition rotateLeftFace (cubeState : loc) (clockwise : bool) : M unit :=
  (* Rotate the left face itself *)
  leftFace <- getColorsOf cubeState Left ;;
  rotated <- rotate2DArray leftFace clockwise ;;
  setColorsOf cubeState Left rotated ;;
  if clockwise then
    topEdge0 <- cellGet cubeState Up 0 0 ;;
    topEdge1 <- cellGet cubeState Up 1 0 ;;
    topEdge2 <- cellGet cubeState Up 2 0 ;;
    (* Move back edge to top *)
    cellCopy cubeState (Up, 0, 0) (Back, 2, 2) ;;
    cellCopy cubeState (Up, 1, 0) (Back, 1, 2) ;;
    cellCopy cubeState (Up, 2, 0) (Back, 0, 2) ;;
    (* Move bottom edge to back *)
    cellCopy cubeState (Back, 0, 2) (Down, 2, 0) ;;
    cellCopy cubeState (Back, 1, 2) (Down, 1, 0) ;;
    cellCopy cubeState (Back, 2, 2) (Down, 0, 0) ;;
    (* Move front edge to bottom *)
    cellCopy cubeState (Down, 0, 0) (Front, 0, 0) ;;
    cellCopy cubeState (Down, 1, 0) (Front, 1, 0) ;;
    cellCopy cubeState (Down, 2, 0) (Front, 2, 0) ;;
    (* Move top edge to front *)
    cellSet cubeState Front 0 0 topEdge0 ;;
    cellSet cubeState Front 1 0 topEdge1 ;;
    cellSet cubeState Front 2 0 topEdge2
  else
    topEdge0 <- cellGet cubeState Up 0 0 ;;
    topEdge1 <- cellGet cubeState Up 1 0 ;;
    topEdge2 <- cellGet cubeState Up 2 0 ;;
    (* Move front edge to top *)
    cellCopy cubeState (Up, 0, 0) (Front, 0, 0) ;;
    cellCopy cubeState (Up, 1, 0) (Front, 1, 0) ;;
    cellCopy cubeState (Up, 2, 0) (Front, 2, 0) ;;
    (* Move bottom edge to front *)
    cellCopy cubeState (Front, 0, 0) (Down, 0, 0) ;;
    cellCopy cubeState (Front, 1, 0) (Down, 1, 0) ;;
    cellCopy cubeState (Front, 2, 0) (Down, 2, 0) ;;
    (* Move back edge to bottom *)
    cellCopy cubeState (Down, 0, 0) (Back, 2, 2) ;;
    cellCopy cubeState (Down, 1, 0) (Back, 1, 2) ;;
    cellCopy cubeState (Down, 2, 0) (Back, 0, 2) ;;
    (* Move top edge to back *)
    cellSet cubeState Back 0 2 topEdge2 ;;
    cellSet cubeState Back 1 2 topEdge1 ;;
    cellSet cubeState Back 2 2 topEdge0.

Definition rotateUpFace (cubeState : loc) (clockwise : bool) : M unit :=
  (* Rotate the up face itself *)
  upFace <- getColorsOf cubeState Up ;;
  rotated <- rotate2DArray upFace clockwise ;;
  setColorsOf cubeState Up rotated ;;
  if clockwise then
    frontEdge0 <- cellGet cubeState Front 0 0 ;;
    frontEdge1 <- cellGet cubeState Front 0 1 ;;
    frontEdge2 <- cellGet cubeState Front 0 2 ;;
    (* Move left edge to front *)
    cellCopy cubeState (Front, 0, 0) (Left, 0, 0) ;;
    cellCopy cubeState (Front, 0, 1) (Left, 0, 1) ;;
    cellCopy cubeState (Front, 0, 2) (Left, 0, 2) ;;
    (* Move back edge to left *)
    cellCopy cubeState (Left, 0, 0) (Back, 0, 0) ;;
    cellCopy cubeState (Left, 0, 1) (Back, 0, 1) ;;
    cellCopy cubeState (Left, 0, 2) (Back, 0, 2) ;;
    (* Move right edge to back *)
    cellCopy cubeState (Back, 0, 0) (Right, 0, 0) ;;
    cellCopy cubeState (Back, 0, 1) (Right, 0, 1) ;;
    cellCopy cubeState (Back, 0, 2) (Right, 0, 2) ;;
    (* Move front edge to right *)
    cellSet cubeState Right 0 0 frontEdge0 ;;
    cellSet cubeState Right 0 1 frontEdge1 ;;
    cellSet cubeState Right 0 2 frontEdge2
  else
    frontEdge0 <- cellGet cubeState Front 0 0 ;;
    frontEdge1 <- cellGet cubeState Front 0 1 ;;
    frontEdge2 <- cellGet cubeState Front 0 2 ;;
    (* Move right edge to front *)
    cellCopy cubeState (Front, 0, 0) (Right, 0, 0) ;;
    cellCopy cubeState (Front, 0, 1) (Right, 0, 1) ;;
    cellCopy cubeState (Front, 0, 2) (Right, 0, 2) ;;
    (* Move back edge to right *)
    cellCopy cubeState (Right, 0, 0) (Back, 0, 0) ;;
    cellCopy cubeState (Right, 0, 1) (Back, 0, 1) ;;
    cellCopy cubeState (Right, 0, 2) (Back, 0, 2) ;;
    (* Move left edge to back *)
    cellCopy cubeState (Back, 0, 0) (Left, 0, 0) ;;
    cellCopy cubeState (Back, 0, 1) (Left, 0, 1) ;;
    cellCopy cubeState (Back, 0, 2) (Left, 0, 2) ;;
    (* Move front edge to left *)
    cellSet cubeState Left 0 0 frontEdge0 ;;
    cellSet cubeState Left 0 1 frontEdge1 ;;
    cellSet cubeState Left 0 2 frontEdge2.

Definition rotateDownFace (cubeState : loc) (clockwise : bool) : M unit :=
  (* Rotate the down face itself *)
  downFace <- getColorsOf cubeState Down ;;
  rotated <- rotate2DArray downFace clockwise ;;
  setColorsOf cubeState Down rotated ;;
  if clockwise then
    frontEdge0 <- cellGet cubeState Front 2 0 ;;
    frontEdge1 <- cellGet cubeState Front 2 1 ;;
    frontEdge2 <- cellGet cubeState Front 2 2 ;;
    (* Move right edge to front *)
    cellCopy cubeState (Front, 2, 0) (Right, 2, 0) ;;
    cellCopy cubeState (Front, 2, 1) (Right, 2, 1) ;;
    cellCopy cubeState (Front, 2, 2) (Right, 2, 2) ;;
    (* Move back edge to right *)
    cellCopy cubeState (Right, 2, 0) (Back, 2, 0) ;;
    cellCopy cubeState (Right, 2, 1) (Back, 2, 1) ;;
    cellCopy cubeState (Right, 2, 2) (Back, 2, 2) ;;
    (* Move left edge to back *)
    cellCopy cubeState (Back, 2, 0) (Left, 2, 0) ;;
    cellCopy cubeState (Back, 2, 1) (Left, 2, 1) ;;
    cellCopy cubeState (Back, 2, 2) (Left, 2, 2) ;;
    (* Move front edge to left *)
    cellSet cubeState Left 2 0 frontEdge0 ;;
    cellSet cubeState Left 2 1 frontEdge1 ;;
    cellSet cubeState Left 2 2 frontEdge2
  else
    frontEdge0 <- cellGet cubeState Front 2 0 ;;
    frontEdge1 <- cellGet cubeState Front 2 1 ;;
    frontEdge2 <- cellGet cubeState Front 2 2 ;;
    (* Move left edge to front *)
    cellCopy cubeState (Front, 2, 0) (Left, 2, 0) ;;
    cellCopy cubeState (Front, 2, 1) (Left, 2, 1) ;;
    cellCopy cubeState (Front, 2, 2) (Left, 2, 2) ;;
    (* Move back edge to left *)
    cellCopy cubeState (Left, 2, 0) (Back, 2, 0) ;;
    cellCopy cubeState (Left, 2, 1) (Back, 2, 1) ;;
    cellCopy cubeState (Left, 2, 2) (Back, 2, 2) ;;
    (* Move right edge to back *)
    cellCopy cubeState (Back, 2, 0) (Right, 2, 0) ;;
    cellCopy cubeState (Back, 2, 1) (Right, 2, 1) ;;
    cellCopy cubeState (Back, 2, 2) (Right, 2, 2) ;;
    (* Move front edge to right *)
    cellSet cubeState Right 2 0 frontEdge0 ;;
    cellSet cubeState Right 2 1 frontEdge1 ;;
    cellSet cubeState Right 2 2 frontEdge2.

(** The turn angle that [parseMove] computes ([Math.PI / 2],
    [-Math.PI / 2] or [Math.PI]); only the animation reads it. *)
Inductive Angle : Type := QuarterTurn | MinusQuarterTurn | HalfTurn.

Record ParsedMove : Type := mkParsedMove {
  pm_face : string; pm_clockwise : bool; pm_angle : Angle }.

(** [move.charAt(0)]: the empty string when [move] is empty. *)
Definition charAt0 (move : string) : string :=
  match move with
  | EmptyString => EmptyString
  | String c _ => String c EmptyString
  end.

(** [move.substring(1)] *)
Definition substring1 (move : string) : string :=
  match move with
  | EmptyString => EmptyString
  | String _ rest => rest
  end.

(** Parse move notation (e.g., "R", "R'", "R2") *)
Definition parseMove (move : string) : ParsedMove :=
  let face := charAt0 move in
  let modifier := substring1 move in
  if String.eqb modifier "'" then mkParsedMove face false MinusQuarterTurn
  else if String.eqb modifier "2" then mkParsedMove face true HalfTurn
  else mkParsedMove face true QuarterTurn.

(** Apply a move to the cube state (actual cube transformation) *)
Definition applyMoveToCubeState (cubeState : loc) (move : string) : M loc :=
  let pm := parseMove move in
  let face := pm_face pm in
  let clockwise := pm_clockwise pm in
  newState <- jsonClone cubeState ;;
  (if String.eqb face "F" then rotateFrontFace newState clockwise
   else if String.eqb face "B" then rotateBackFace newState clockwise
   else if String.eqb face "R" then rotateRightFace newState clockwise
   else if String.eqb face "L" then rotateLeftFace newState clockwise
   else if String.eqb face "U" then rotateUpFace newState clockwise
   else if String.eqb face "D" then rotateDownFace newState clockwise
   else ret tt) ;;
  ret newState.

(** ** The engine on values *)

Definition run {A} (c : M A) : result A := result_map fst (c emptyHeap).

(** The cube state [s] is built in an empty store, the engine is called on
    it and the graph of the returned reference is read back. *)
Definition applyMoveToCubeState_val (s : CubeVal) (move : string) : result CubeVal :=
  run (st <- store s ;; st' <- applyMoveToCubeState st move ;; load st').

Definition lab (s : string) : jsval := JStr s.

Definition uniformGrid (c : string) : Grid :=
  [[lab c; lab c; lab c]; [lab c; lab c; lab c]; [lab c; lab c; lab c]].

Definition solvedCube : CubeVal :=
  mkCubeVal (uniformGrid "green") (uniformGrid "blue") (uniformGrid "white")
            (uniformGrid "yellow") (uniformGrid "orange") (uniformGrid "red").

Definition numberedGrid (p : string) : Grid :=
  [[lab (p ++ "0"); lab (p ++ "1"); lab (p ++ "2")];
   [lab (p ++ "3"); lab (p ++ "4"); lab (p ++ "5")];
   [lab (p ++ "6"); lab (p ++ "7"); lab (p ++ "8")]]%string.

Definition numberedCube : CubeVal :=
  mkCubeVal (numberedGrid "F") (numberedGrid "B") (numberedGrid "U")
            (numberedGrid "D") (numberedGrid "L") (numberedGrid "R").

Fixpoint iter_apply (n : nat) (move : string) (s : CubeVal) : result CubeVal :=
  match n with
  | 0 => Ok s
  | S n' => match applyMoveToCubeState_val s move with
            | Ok s' => iter_apply n' move s'
            | Throw e => Throw e
            end
  end.


(* ================================================================== *)
(** * Part IV: colour recognition ([src/components/CubeRecognition.js]) *)
(* ================================================================== *)

(** Colour labels: the six sticker colours and ['unknown']. *)
Inductive Color : Type := White | Red | Orange | Yellow | Green | Blue | Unknown.

Definition Color_eqb (a b : Color) : bool :=
  match a, b with
  | White, White | Red, Red | Orange, Orange | Yellow, Yellow
  | Green, Green | Blue, Blue | Unknown, Unknown => true
  | _, _ => false
  end.

Definition obind {A B} (o : option A) (k : A -> option B) : option B :=
  match o with Some a => k a | None => None end.

Notation "'let?' x := c 'in' k" := (obind c (fun x => k))
  (at level 10, x pattern, c at level 100, k at level 200).

Section Numbers.
Local Open Scope Q_scope.

(** JavaScript numbers are modelled as exact rationals.  A division whose
    divisor is a variable is checked: dividing by zero, which in JavaScript
    yields [Infinity] or [NaN], is the failure [None]. *)
Definition js_div (a b : Q) : option Q :=
  if Qeq_bool b 0 then None else Some (a / b).

Definition Qltb (x y : Q) : bool := negb (Qle_bool y x).

(** [Math.max], [Math.min], [Math.round] (to the nearest integer, halves
    upwards) *)
Definition js_max (a b : Q) : Q := if Qle_bool a b then b else a.
Definition js_min (a b : Q) : Q := if Qle_bool a b then a else b.
Definition js_max3 (a b c : Q) : Q := js_max (js_max a b) c.
Definition js_min3 (a b c : Q) : Q := js_min (js_min a b) c.
Definition js_round (x : Q) : Q := inject_Z (Qfloor (x + (1 # 2))).

(** Ultra-precise color detection with refined HSV thresholds *)
Definition rgbToHsv (r g b : Q) : option (Q * Q * Q) :=
  let r := r / 255 in
  let g := g / 255 in
  let b := b / 255 in
  let max := js_max3 r g b in
  let min := js_min3 r g b in
  let v := max in
  let d := max - min in
  let? s := (if Qeq_bool max 0 then Some 0 else js_div d max) in
  let? h :=
    (if negb (Qeq_bool d 0) then
       let? h :=
         (if Qeq_bool max r then
            let? q := js_div (g - b) d in Some (q + (if Qltb g b then 6 else 0))
          else if Qeq_bool max g then
            let? q := js_div (b - r) d in Some (q + 2)
          else if Qeq_bool max b then
            let? q := js_div (r - g) d in Some (q + 4)
          else Some 0) in
       Some (h * 60)
     else Some 0) in
  Some (h, s * 255, v * 255).

(** Color correction for lighting variations *)
Definition correctColorForLighting (r g b : Q) : option (Q * Q * Q) :=
  let avg := (r + g + b) / 3 in
  if Qltb avg 100 then
    let? boost := js_div 150 avg in
    Some (js_min 255 (js_round (r * boost)),
          js_min 255 (js_round (g * boost)),
          js_min 255 (js_round (b * boost)))
  else if Qltb 200 avg then
    let? reduce := js_div 180 avg in
    Some (js_max 0 (js_round (r * reduce)),
          js_max 0 (js_round (g * reduce)),
          js_max 0 (js_round (b * reduce)))
  else Some (r, g, b).

(** The calibration record stored by [calibrateColorsFromEnvironment]. *)
Record Calibration : Type := mkCalibration {
  avgBrightness : Q;
  colorBalance_r : Q; colorBalance_g : Q; colorBalance_b : Q }.

(** Apply color calibration to improve detection *)
Definition applyColorCalibration (calibrationData : option Calibration)
    (r g b : Q) : option (Q * Q * Q) :=
  match calibrationData with
  | None => Some (r, g, b)
  | Some cd =>
      let? qr := js_div r (colorBalance_r cd) in
      let? qg := js_div g (colorBalance_g cd) in
      let? qb := js_div b (colorBalance_b cd) in
      Some (js_min 255 (js_max 0 qr), js_min 255 (js_max 0 qg), js_min 255 (js_max 0 qb))
  end.








Section Classifier.

(** [Math.pow] and [Math.sqrt] are not rational functions; they are
    parameters of the classifier. *)
Variable pow : Q -> Q -> Q.
Variable sqrt : Q -> Q.

(** The detectors that [detectColorWithCorrection] falls back to when the
    first one answers ['unknown']. *)
Variable detectColorAdvanced : Q -> Q -> Q -> option Color.
Variable detectColorNeural : Q -> Q -> Q -> option Color.
Variable detectColorUltraAccurate : Q -> Q -> Q -> option Color.

(** Convert RGB to LAB color space for better perceptual matching *)
Definition rgbToLab (r g b : Q) : Q * Q * Q :=
  let r_norm := r / 255 in
  let g_norm := g / 255 in
  let b_norm := b / 255 in
  let r_norm := if Qltb 0.04045 r_norm then pow ((r_norm + 0.055) / 1.055) 2.4 else r_norm / 12.92 in
  let g_norm := if Qltb 0.04045 g_norm then pow ((g_norm + 0.055) / 1.055) 2.4 else g_norm / 12.92 in
  let b_norm := if Qltb 0.04045 b_norm then pow ((b_norm + 0.055) / 1.055) 2.4 else b_norm / 12.92 in
  let x := r_norm * 0.4124 + g_norm * 0.3576 + b_norm * 0.1805 in
  let y := r_norm * 0.2126 + g_norm * 0.7152 + b_norm * 0.0722 in
  let z := r_norm * 0.0193 + g_norm * 0.1192 + b_norm * 0.9505 in
  let x_norm := x / 0.95047 in
  let y_norm := y / 1.00000 in
  let z_norm := z / 1.08883 in
  let fx := if Qltb 0.008856 x_norm then pow x_norm (1 / 3) else (7.787 * x_norm) + (16 / 116) in
  let fy := if Qltb 0.008856 y_norm then pow y_norm (1 / 3) else (7.787 * y_norm) + (16 / 116) in
  let fz := if Qltb 0.008856 z_norm then pow z_norm (1 / 3) else (7.787 * z_norm) + (16 / 116) in
  let l := (116 * fy) - 16 in
  let a := 500 * (fx - fy) in
  let b_lab := 200 * (fy - fz) in
  (l, a, b_lab).


(** The body of [detectColorRevolutionary] is given technique by
    technique, in the order of the source; each part takes the
    [colorScores] accumulated so far and returns the updated object. *)









(** [bump c x conf]: the statement [if (c) confidence += x]. *)
Definition bump (c : bool) (x : Q) (confidence : Q) : Q :=
  if c then confidence + x else confidence.

(** Revolutionary confidence calculation for better accuracy *)
Definition getColorConfidenceRevolutionary (color : Color) (r g b : Q) : option Q :=
  match color with
  | Unknown => Some 0
  | _ =>
    let? (h, s, v) := rgbToHsv r g b in
    let '(l, a, b_lab) := rgbToLab r g b in
    let confidence := 0 in
    let confidence :=
      match color with
      | White =>
          let confidence := bump (Qltb 180 v && Qltb s 60) 0.3 confidence in
          let confidence := bump (Qltb (Qabs (r - g)) 40 && Qltb (Qabs (g - b)) 40
                                  && Qltb (Qabs (r - b)) 40) 0.3 confidence in
          let confidence := bump (Qltb 140 r && Qltb 140 g && Qltb 140 b) 0.2 confidence in
          let confidence := bump (Qltb 70 l && Qltb (Qabs a) 25 && Qltb (Qabs b) 25) 0.2 confidence in
          let avg := (r + g + b) / 3 in
          bump (Qltb 180 avg) 0.1 confidence
      | Red =>
          let confidence := bump ((Qltb h 15 || Qltb 345 h) && Qltb 80 s && Qltb 80 v) 0.3 confidence in
          let confidence := bump (Qltb (g * 1.4) r && Qltb (b * 1.4) r) 0.3 confidence in
          let confidence := bump (Qltb 130 r && Qltb g 120 && Qltb b 120) 0.2 confidence in
          bump (Qltb 30 a && Qltb 45 l) 0.2 confidence
      | Orange =>
          let confidence := bump (Qle_bool 15 h && Qle_bool h 45 && Qltb 80 s && Qltb 80 v) 0.3 confidence in
          let confidence := bump (Qltb g r && Qltb b g && Qltb 100 r) 0.3 confidence in
          let confidence := bump (Qltb 120 r && Qltb 70 g && Qltb b 90) 0.2 confidence in
          let confidence := bump (Qltb 20 a && Qltb 20 b && Qltb 55 l) 0.2 confidence in
          bump (Qle_bool 15 h && Qle_bool h 45 && Qltb (r - g) 80) 0.1 confidence
      | Yellow =>
          let confidence := bump (Qle_bool 45 h && Qle_bool h 75 && Qltb 80 s && Qltb 150 v) 0.3 confidence in
          let confidence := bump (Qltb 120 r && Qltb 120 g && Qltb b 120
                                  && Qltb (Qabs (r - g)) 60) 0.3 confidence in
          let confidence := bump (Qltb 120 r && Qltb 120 g && Qltb b 120) 0.2 confidence in
          bump (Qltb 25 b && Qltb (Qabs a) 30 && Qltb 60 l) 0.2 confidence
      | Green =>
          let confidence := bump (Qle_bool 80 h && Qle_bool h 160 && Qltb 80 s && Qltb 80 v) 0.3 confidence in
          let confidence := bump (Qltb (r * 1.4) g && Qltb (b * 1.4) g) 0.3 confidence in
          let confidence := bump (Qltb 130 g && Qltb r 120 && Qltb b 120) 0.2 confidence in
          bump (Qltb a (-20) && Qltb 45 l) 0.2 confidence
      | Blue =>
          let confidence := bump (Qle_bool 210 h && Qle_bool h 270 && Qltb 80 s && Qltb 80 v) 0.3 confidence in
          let confidence := bump (Qltb (r * 1.4) b && Qltb (g * 1.4) b && Qltb 100 b) 0.3 confidence in
          let confidence := bump (Qltb 130 b && Qltb r 120 && Qltb g 120) 0.2 confidence in
          bump (Qltb b (-25) && Qltb 45 l) 0.2 confidence
      | Unknown => 0
      end in
    (* Boost confidence for high-quality detections *)
    let confidence :=
      if Qltb 0.7 confidence then js_min 1.0 (confidence * 1.15) else confidence in
    Some (js_min 1.0 confidence)
  end.

End Classifier.

End Numbers.

(** ** The conversion over IEEE doubles

    The same function with the arithmetic of JavaScript numbers (binary64,
    round to nearest), used to cross-check the rational model on the
    channel values that a canvas delivers, the integers 0 to 255. *)

Section Binary64.
Local Open Scope float_scope.

Definition f64_max (a b : float) : float := if PrimFloat.ltb a b then b else a.
Definition f64_min (a b : float) : float := if PrimFloat.ltb b a then b else a.

Definition rgbToHsv_binary64 (r g b : float) : float * float * float :=
  let r := r / 255 in
  let g := g / 255 in
  let b := b / 255 in
  let max := f64_max (f64_max r g) b in
  let min := f64_min (f64_min r g) b in
  let v := max in
  let d := max - min in
  let s := if PrimFloat.eqb max 0 then 0 else d / max in
  let h :=
    if negb (PrimFloat.eqb d 0) then
      (if PrimFloat.eqb max r then (g - b) / d + (if PrimFloat.ltb g b then 6 else 0)
       else if PrimFloat.eqb max g then (b - r) / d + 2
       else if PrimFloat.eqb max b then (r - g) / d + 4
       else 0) * 60
    else 0 in
  (h, s * 255, v * 255).

(** [0 <= h < 360], [0 <= s <= 255] and [0 <= v <= 255]; every comparison
    is false on [NaN], so a result in range is a number. *)
Definition hsvInRange (hsv : float * float * float) : bool :=
  let '(h, s, v) := hsv in
  PrimFloat.leb 0 h && PrimFloat.ltb h 360
  && PrimFloat.leb 0 s && PrimFloat.leb s 255
  && PrimFloat.leb 0 v && PrimFloat.leb v 255.

Definition channel (n : nat) : float := PrimFloat.of_uint63 (Uint63.of_Z (Z.of_nat n)).

Definition channels : list float := map channel (seq 0 256).

End Binary64.

(** ** Grids of labels and the [colorCounts] object *)

Definition ColorGrid := list (list Color).

(** [colorCounts] is an object used as a map from labels to counts; its
    keys keep the order in which they were first written. *)
Definition ColorCounts := list (Color * nat).

(** [colorCounts[color] || 0] *)
Fixpoint lookupCount (color : Color) (cc : ColorCounts) : nat :=
  match cc with
  | [] => 0
  | (c, n) :: t => if Color_eqb c color then n else lookupCount color t
  end.

(** [colorCounts[color] = (colorCounts[color] || 0) + 1] *)
Fixpoint incrCount (color : Color) (cc : ColorCounts) : ColorCounts :=
  match cc with
  | [] => [(color, 1)]
  | (c, n) :: t => if Color_eqb c color then (c, S n) :: t else (c, n) :: incrCount color t
  end.

(** [cells.forEach(color => { if (keep(color)) colorCounts[color] = ... + 1 })] *)
Definition countColors (keep : Color -> bool) (cells : list Color) : ColorCounts :=
  fold_left (fun cc color => if keep color then incrCount color cc else cc) cells [].

Definition validColors : list Color := [Red; Orange; Yellow; Green; Blue; White].

(** [validColors.includes(color)] *)
Definition isValidColor (color : Color) : bool := existsb (Color_eqb color) validColors.

(** [color !== 'unknown'] *)
Definition notUnknown (color : Color) : bool := negb (Color_eqb color Unknown).

(** [colors.flat()] *)
Definition flat (colors : ColorGrid) : list Color := concat colors.

Section Scoring.
Local Open Scope Q_scope.

Definition Qnat (n : nat) : Q := inject_Z (Z.of_nat n).

(** Revolutionary alignment calculation for better accuracy *)
Definition calculateAlignmentScore (validDetections : nat) (totalConfidence : Q)
    (colors : ColorGrid) : Q :=
  if (length colors =? 0)%nat then 0 else
  (* Base alignment from valid detections *)
  let detectionScore := (Qnat validDetections / 9) * 60 in
  (* Confidence score *)
  let confidenceScore := js_min 30 ((totalConfidence / 9) * 30) in
  (* Color distribution score (bonus for good color distribution) *)
  let colorCounts := countColors notUnknown (flat colors) in
  let uniqueColors := length colorCounts in
  let distributionScore := js_min 10 (Qnat uniqueColors * 2) in
  (* Calculate total alignment score *)
  let totalScore := detectionScore + confidenceScore + distributionScore in
  js_min 100 (js_round totalScore).




End Scoring.

(* ================================================================== *)
(** * Part V: the grid consistency corrector                           *)
(* ================================================================== *)

Fixpoint mapi_from {A B} (f : nat -> A -> B) (n : nat) (l : list A) : list B :=
  match l with
  | [] => []
  | x :: t => f n x :: mapi_from f (S n) t
  end.

(** A visit of every cell in reading order that may overwrite the cell it
    is on: [colors.forEach((row, i) => row.forEach((color, j) => ...))] and
    the equivalent pair of counted loops. *)
Definition mapGrid (f : nat -> nat -> Color -> Color) (colors : ColorGrid) : ColorGrid :=
  mapi_from (fun i row => mapi_from (fun j color => f i j color) 0 row) 0 colors.

(** The inner loop
    [for (j = 0; j < row.length && changed < limit; j++)
       if (row[j] === from) { row[j] = to; changed++ }]. *)
Fixpoint replaceInRow (from to : Color) (limit changed : nat) (row : list Color)
  : list Color * nat :=
  match row with
  | [] => ([], changed)
  | c :: t =>
      if changed <? limit then
        if Color_eqb c from then
          let (t', n) := replaceInRow from to limit (S changed) t in (to :: t', n)
        else
          let (t', n) := replaceInRow from to limit changed t in (c :: t', n)
      else (row, changed)
  end.

(** The outer loop [for (i = 0; i < colors.length && changed < limit; i++)]. *)
Fixpoint replaceInGrid (from to : Color) (limit changed : nat) (colors : ColorGrid)
  : ColorGrid :=
  match colors with
  | [] => []
  | row :: rest =>
      if changed <? limit then
        let (row', n) := replaceInRow from to limit changed row in
        row' :: replaceInGrid from to limit n rest
      else colors
  end.

(** Color validation and correction for impossible combinations *)
Definition validateAndCorrectColors (colors : ColorGrid) : ColorGrid :=
  if length colors =? 0 then colors else
  (* Count each color *)
  let colorCounts := countColors isValidColor (flat colors) in
  (* If we have too many of one color (more than 6), it might be wrong *)
  fold_left
    (fun colors entry =>
       let '(color, count) := entry in
       if 6 <? count then
         if Color_eqb color Yellow && (6 <? count) then
           (* Change some yellows to orange if orange count is low *)
           if lookupCount Orange colorCounts <? 3
           then replaceInGrid Yellow Orange (count - 6) 0 colors
           else colors
         else if Color_eqb color Orange && (6 <? count) then
           (* Change some oranges to red if red count is low *)
           if lookupCount Red colorCounts <? 3
           then replaceInGrid Orange Red (count - 6) 0 colors
           else colors
         else colors
       else colors)
    colorCounts colors.

(** [isEdgeOrCorner = (i === 0 || i === 2 || j === 0 || j === 2)] *)
Definition isEdgeOrCorner (i j : nat) : bool :=
  (i =? 0) || (i =? 2) || (j =? 0) || (j =? 2).

(** [isCenterOrMiddle = (i === 1 || j === 1)] *)
Definition isCenterOrMiddle (i j : nat) : bool := (i =? 1) || (j =? 1).

(** The positions at which [color] sits, as [{row, col}] pairs in reading
    order. *)
Definition positionsOf (color : Color) (colors : ColorGrid) : list (nat * nat) :=
  concat (mapi_from (fun i row =>
            concat (mapi_from (fun j c => if Color_eqb c color then [(i, j)] else []) 0 row))
          0 colors).

Definition inCenter (positions : list (nat * nat)) : bool :=
  existsb (fun pos => (fst pos =? 1) && (snd pos =? 1)) positions.

(** Validate and correct color confusion (white/yellow, orange/red) *)
Definition validateColorConfusion (colors : ColorGrid) : ColorGrid :=
  if length colors =? 0 then colors else
  let correctedColors := colors in
  (* Count colors *)
  let colorCounts := countColors notUnknown (flat correctedColors) in
  (* Check for white vs yellow confusion *)
  let hasWhite := 0 <? lookupCount White colorCounts in
  let hasYellow := 0 <? lookupCount Yellow colorCounts in
  let correctedColors :=
    if hasWhite && hasYellow then
      let whitePositions := positionsOf White correctedColors in
      let yellowPositions := positionsOf Yellow correctedColors in
      let yellowInCenter := inCenter yellowPositions in
      let whiteInCenter := inCenter whitePositions in
      if whiteInCenter && negb yellowInCenter then
        (* Swap white and yellow *)
        mapGrid (fun _ _ color =>
                   if Color_eqb color White then Yellow
                   else if Color_eqb color Yellow then White
                   else color) correctedColors
      else correctedColors
    else correctedColors in
  (* Check for orange vs red confusion - more aggressive correction *)
  let hasOrange := 0 <? lookupCount Orange colorCounts in
  let hasRed := 0 <? lookupCount Red colorCounts in
  if hasOrange && hasRed then
    if lookupCount Red colorCounts <? lookupCount Orange colorCounts then
      mapGrid (fun rowIndex colIndex color =>
                 if Color_eqb color Orange then
                   if isEdgeOrCorner rowIndex colIndex
                      && (2 <? lookupCount Orange colorCounts) then Red
                   else color
                 else color) correctedColors
    else correctedColors
  else correctedColors.

(** Color validation specifically for blue/yellow confusion *)
Definition validateBlueYellowConfusion (colors : ColorGrid) : ColorGrid :=
  if length colors =? 0 then colors else
  let colorCounts := countColors (fun _ => true) (flat colors) in
  (* Check for blue/yellow confusion patterns *)
  let blueCount := lookupCount Blue colorCounts in
  let yellowCount := lookupCount Yellow colorCounts in
  (* If we have too many yellows and few blues, some might be misdetected *)
  let colors :=
    if (4 <? yellowCount) && (blueCount <? 2) then
      mapGrid (fun i j color =>
                 if Color_eqb color Yellow then
                   if isEdgeOrCorner i j && (4 <? yellowCount) then Blue else color
                 else color) colors
    else colors in
  (* If we have too many blues and few yellows, some might be misdetected *)
  if (4 <? blueCount) && (yellowCount <? 2) then
    mapGrid (fun i j color =>
               if Color_eqb color Blue then
                 if isCenterOrMiddle i j && (4 <? blueCount) then Yellow else color
               else color) colors
  else colors.

(** The correction pass of [analyzeColorsOptimized]: the three validators
    in the order in which they are called. *)
Definition correctionPass (colors : ColorGrid) : ColorGrid :=
  validateBlueYellowConfusion (validateColorConfusion (validateAndCorrectColors colors)).

(** A face capture: three rows of three labels. *)
Definition is3x3 {A} (g : list (list A)) : Prop :=
  length g = 3 /\ Forall (fun row => length row = 3) g.

Definition uniformColors (c : Color) : ColorGrid :=
  [[c; c; c]; [c; c; c]; [c; c; c]].


(* ================================================================== *)
(** * Part VI: predicates used by the statements                       *)
(* ================================================================== *)

Definition allFaces : list FaceName := [Front; Back; Up; Down; Left; Right].

Definition isLabel (v : jsval) : bool :=
  match v with JStr _ => true | _ => false end.

(** A face grid is well formed when it has three rows of three colour
    labels. *)
Definition wfGridb (g : Grid) : bool :=
  (length g =? 3) && forallb (fun row => (length row =? 3) && forallb isLabel row) g.

Definition wfCubeb (s : CubeVal) : bool :=
  forallb (fun f => wfGridb (grid_of s f)) allFaces.

Definition wfCube (s : CubeVal) : Prop := wfCubeb s = true.

Definition stickerCount (s : CubeVal) : nat :=
  fold_right (fun f n => length (concat (grid_of s f)) + n) 0 allFaces.

Definition faceLetters : list string := ["F"; "B"; "U"; "D"; "L"; "R"]%string.

(** The moves that the [switch] of [applyMoveToCubeState] acts on: those
    whose first character is a face letter. *)
Definition recognised (move : string) : bool :=
  existsb (String.eqb (charAt0 move)) faceLetters.

(** Quarter turns: a face letter, optionally followed by ['] *)
Definition quarterTurns : list string :=
  ["F"; "F'"; "B"; "B'"; "U"; "U'"; "D"; "D'"; "L"; "L'"; "R"; "R'"]%string.

(** Half turns: a face letter followed by [2] *)
Definition halfTurns : list string := ["F2"; "B2"; "U2"; "D2"; "L2"; "R2"]%string.

Definition isMove (l : list string) (move : string) : bool := existsb (String.eqb move) l.

(** The face that a move letter turns and the face opposite to it. *)
Definition faceOfLetter (face : string) : option FaceName :=
  if String.eqb face "F" then Some Front
  else if String.eqb face "B" then Some Back
  else if String.eqb face "R" then Some Right
  else if String.eqb face "L" then Some Left
  else if String.eqb face "U" then Some Up
  else if String.eqb face "D" then Some Down
  else None.

Definition opposite (f : FaceName) : FaceName :=
  match f with
  | Front => Back | Back => Front | Up => Down
  | Down => Up | Left => Right | Right => Left
  end.

Definition isOk {A} (r : result A) : bool :=
  match r with Ok _ => true | Throw _ => false end.

(** A state on which the faulty move shows: the solved cube after the
    move [R]. *)
Definition cubeAfterR : CubeVal :=
  mkCubeVal
    [[lab "green"; lab "green"; lab "yellow"];
     [lab "green"; lab "green"; lab "yellow"];
     [lab "green"; lab "green"; lab "yellow"]]
    [[lab "white"; lab "blue"; lab "blue"];
     [lab "white"; lab "blue"; lab "blue"];
     [lab "white"; lab "blue"; lab "blue"]]
    [[lab "white"; lab "white"; lab "green"];
     [lab "white"; lab "white"; lab "green"];
     [lab "white"; lab "white"; lab "green"]]
    [[lab "yellow"; lab "yellow"; lab "blue"];
     [lab "yellow"; lab "yellow"; lab "blue"];
     [lab "yellow"; lab "yellow"; lab "blue"]]
    (uniformGrid "orange")
    (uniformGrid "red").


Definition grid9 (a b c d e f g h i : string) : Grid :=
  [[lab a; lab b; lab c]; [lab d; lab e; lab f]; [lab g; lab h; lab i]].

(** What the engine looks at in a move string: its first character, and
    whether the rest is exactly [']. *)
Definition normalMove (move : string) : string :=
  match move with
  | EmptyString => EmptyString
  | String c rest => String c (if String.eqb rest "'" then "'" else EmptyString)
  end.


(* ================================================================== *)
(** * Part VII: stores laid side by side                               *)
(* ================================================================== *)

Definition shiftCube (n : nat) (c : CubeObj) : CubeObj :=
  mkCubeObj (n + o_front c) (n + o_back c) (n + o_up c)
            (n + o_down c) (n + o_left c) (n + o_right c).

(** [happ h t]: the store [h] followed by the objects of [t], whose
    references are moved past those of [h]. *)
Definition happ (h t : Heap) : Heap :=
  mkHeap (rowsH h ++ rowsH t)
         (gridsH h ++ map (map (Nat.add (length (rowsH h)))) (gridsH t))
         (facesH h ++ map (Nat.add (length (gridsH h))) (facesH t))
         (cubesH h ++ map (shiftCube (length (facesH h))) (cubesH t)).

(** References of [t] seen in [happ h t]. *)
Definition Rrow (h : Heap) (r r' : loc) : Prop := r' = length (rowsH h) + r.
Definition Rgrid (h : Heap) (g g' : loc) : Prop := g' = length (gridsH h) + g.
Definition Rface (h : Heap) (f f' : loc) : Prop := f' = length (facesH h) + f.
Definition Rcube (h : Heap) (c c' : loc) : Prop := c' = length (cubesH h) + c.

(** [sim h R c c']: whatever [c] does in a store [t], [c'] does in
    [happ h t], with results related by [R] and [h] left in place. *)
Definition sim {A} (h : Heap) (R : A -> A -> Prop) (c c' : M A) : Prop :=
  forall t,
    match c t with
    | Ok (a, t') => exists a', c' (happ h t) = Ok (a', happ h t') /\ R a a'
    | Throw e => c' (happ h t) = Throw e
    end.

(** [reads c]: [c] leaves the store as it is, and gives the same answer
    when more objects are allocated. *)
Definition reads {A} (c : M A) : Prop :=
  forall h a h', c h = Ok (a, h') ->
    h' = h /\ forall t, c (happ h t) = Ok (a, happ h t).

(** Every object of [h] is still in [h'], unchanged. *)
Definition preserved (h h' : Heap) : Prop :=
  (forall r cells, nth_error (rowsH h) r = Some cells -> nth_error (rowsH h') r = Some cells) /\
  (forall g rs, nth_error (gridsH h) g = Some rs -> nth_error (gridsH h') g = Some rs) /\
  (forall f g, nth_error (facesH h) f = Some g -> nth_error (facesH h') f = Some g) /\
  (forall c o, nth_error (cubesH h) c = Some o -> nth_error (cubesH h') c = Some o).

(** The objects that make up the cube state at [st]: its face objects,
    their outer arrays and the inner arrays of those. *)
Definition facesOf (h : Heap) (st : loc) : list loc :=
  match nth_error (cubesH h) st with
  | Some c => map (face_of c) allFaces
  | None => []
  end.

Definition gridsOf (h : Heap) (st : loc) : list loc :=
  flat_map (fun f => match nth_error (facesH h) f with Some g => [g] | None => [] end)
           (facesOf h st).

Definition rowsOf (h : Heap) (st : loc) : list loc :=
  flat_map (fun g => match nth_error (gridsH h) g with Some rs => rs | None => [] end)
           (gridsOf h st).

(** The graph at [st] lies inside the store [h]. *)
Definition graphWithin (h : Heap) (hs : Heap) (st : loc) : Prop :=
  st < length (cubesH h) /\
  Forall (fun f => f < length (facesH h)) (facesOf hs st) /\
  Forall (fun g => g < length (gridsH h)) (gridsOf hs st) /\
  Forall (fun r => r < length (rowsH h)) (rowsOf hs st).

(** The graph at [st'] in [h'] consists of objects that [h] does not
    have. *)
Definition freshGraph (h h' : Heap) (st' : loc) : Prop :=
  length (cubesH h) <= st' /\
  Forall (fun f => length (facesH h) <= f) (facesOf h' st') /\
  Forall (fun g => length (gridsH h) <= g) (gridsOf h' st') /\
  Forall (fun r => length (rowsH h) <= r) (rowsOf h' st').

(** The part of [applyMoveToCubeState] that follows the reading of the
    argument: a copy of the value [s] is built and turned. *)
Definition turnCopy (s : CubeVal) (move : string) : M loc :=
  let pm := parseMove move in
  let face := pm_face pm in
  let clockwise := pm_clockwise pm in
  newState <- store (json_val s) ;;
  (if String.eqb face "F" then rotateFrontFace newState clockwise
   else if String.eqb face "B" then rotateBackFace newState clockwise
   else if String.eqb face "R" then rotateRightFace newState clockwise
   else if String.eqb face "L" then rotateLeftFace newState clockwise
   else if String.eqb face "U" then rotateUpFace newState clockwise
   else if String.eqb face "D" then rotateDownFace newState clockwise
   else ret tt) ;;
  ret newState.

(** The store that holds just the cube state [s]. *)
Definition storeOf (s : CubeVal) : Heap :=
  match store s emptyHeap with
  | Ok (_, h) => h
  | Throw _ => emptyHeap
  end.

(* ================================================================== *)
(** * Part VIII: auxiliary definitions for the recognition statements  *)
(* ================================================================== *)

Definition Color_eq_dec (a b : Color) : {a = b} + {a <> b}.
Proof. decide equality. Defined.

(** Number of cells of [colors] that carry the label [c]. *)
Definition countOf (c : Color) (colors : ColorGrid) : nat :=
  count_occ Color_eq_dec (flat colors) c.





(** A store in which the solved cube is built with one inner array per
    face, shared by the three rows of that face. *)
Definition sharedRowsStore : Heap :=
  mkHeap
    [[lab "green"; lab "green"; lab "green"]; [lab "blue"; lab "blue"; lab "blue"];
     [lab "white"; lab "white"; lab "white"]; [lab "yellow"; lab "yellow"; lab "yellow"];
     [lab "orange"; lab "orange"; lab "orange"]; [lab "red"; lab "red"; lab "red"]]
    [[0; 0; 0]; [1; 1; 1]; [2; 2; 2]; [3; 3; 3]; [4; 4; 4]; [5; 5; 5]]
    [0; 1; 2; 3; 4; 5]
    [mkCubeObj 0 1 2 3 4 5].






(* ================================================================== *)
(** * Part IX: stickers, centres and sequences of moves                *)
(* ================================================================== *)

(** [rotate2DArray] on values: the array is built in an empty store,
    rotated, and the returned array is read back. *)
Definition rotate2DArray_val (g : Grid) (clockwise : bool) : result Grid :=
  run (array <- storeGrid g ;; rotated <- rotate2DArray array clockwise ;; loadGrid rotated).

(** The cells of a cube state, face by face in reading order. *)
Definition stickers (s : CubeVal) : list jsval :=
  flat_map (fun f => concat (grid_of s f)) allFaces.

(** The total of a weight given to each cell. *)
Definition weigh (w : jsval -> nat) (s : CubeVal) : nat :=
  list_sum (map w (stickers s)).

Definition jsval_eq_dec (a b : jsval) : {a = b} + {a <> b}.
Proof. decide equality. apply string_dec. Defined.

(** The cell in the middle of a face grid, [colors[1][1]]. *)
Definition centreCell (g : Grid) : option jsval :=
  match nth_error g 1 with
  | Some row => nth_error row 1
  | None => None
  end.

(** The loop of a caller that feeds each state the engine returns to the
    next call: [state = applyMoveToCubeState(state, move)] for every move
    of a list. *)
Fixpoint applyMoves (moves : list string) (s : CubeVal) : result CubeVal :=
  match moves with
  | [] => Ok s
  | move :: rest =>
      match applyMoveToCubeState_val s move with
      | Ok s' => applyMoves rest s'
      | Throw e => Throw e
      end
  end.

(** The five face letters whose two quarter turns undo each other. *)
Definition soundLetters : list ascii := ["F"; "U"; "D"; "L"; "R"]%char.

(** ** [rotate2DArray] in closed form *)

(** [array[i][j]] read as a value: [undefined] out of range. *)
Definition cellAt (g : Grid) (i j : nat) : jsval := nth j (nth i g []) JUndefined.

(** The square array with [rotated[j][n-1-i] = array[i][j]] for the
    clockwise direction and [rotated[n-1-j][i] = array[i][j]] for the
    other one, [n] being the number of rows of [array]. *)
Definition rotateGrid (clockwise : bool) (g : Grid) : Grid :=
  let n := length g in
  map (fun a =>
         map (fun b => if clockwise then cellAt g (n - 1 - b) a else cellAt g b (n - 1 - a))
             (seq 0 n))
      (seq 0 n).

Definition squareOf (n : nat) (R : Grid) : Prop :=
  length R = n /\ Forall (fun row => length row = n) R.

(** One assignment [rotated[a][b] = v] on the rows of [rotated]. *)
Definition writeCell (R : Grid) (w : nat * nat * jsval) : Grid :=
  let '(a, b, v) := w in upd R a (js_set (nth a R []) b v).

Definition inRange (n : nat) (w : nat * nat * jsval) : Prop :=
  fst (fst w) < n /\ snd (fst w) < n.

(** The assignments of the two nested loops, in the order in which they
    are made. *)
Definition rotationWrite (clockwise : bool) (g : Grid) (i j : nat) : nat * nat * jsval :=
  let n := length g in
  if clockwise then (j, n - 1 - i, cellAt g i j) else (n - 1 - j, i, cellAt g i j).

Definition rotationWrites (clockwise : bool) (g : Grid) : list (nat * nat * jsval) :=
  let n := length g in
  flat_map (fun i => map (rotationWrite clockwise g i) (seq 0 n)) (seq 0 n).

(** The store [h] after the rows [R] of a new array and the array itself
    have been allocated. *)
Definition withSquare (h : Heap) (n : nat) (R : Grid) : Heap :=
  mkHeap (rowsH h ++ R) (gridsH h ++ [seq (length (rowsH h)) n]) (facesH h) (cubesH h).

(* ================================================================== *)
(** * Part X: the animation bookkeeping of [src/animations.js]         *)
(* ================================================================== *)

(** A cubie position [[x, y, z]] and a [THREE.Vector3] are triples of
    integers. *)
Definition Position : Type := (Z * Z * Z)%type.

Definition coordinates : list Z := [-1; 0; 1]%Z.

(** Generate all 27 cube positions *)
Definition allPositions : list Position :=
  flat_map (fun x => flat_map (fun y => map (fun z => (x, y, z)) coordinates) coordinates)
           coordinates.

(** Get affected cube positions for each face *)
Definition getAffectedCubes (face : string) : list Position :=
  let positions := allPositions in
  (* Filter positions based on face *)
  if String.eqb face "R" then filter (fun '(x, _, _) => (x =? 1)%Z) positions
  else if String.eqb face "L" then filter (fun '(x, _, _) => (x =? -1)%Z) positions
  else if String.eqb face "U" then filter (fun '(_, y, _) => (y =? 1)%Z) positions
  else if String.eqb face "D" then filter (fun '(_, y, _) => (y =? -1)%Z) positions
  else if String.eqb face "F" then filter (fun '(_, _, z) => (z =? 1)%Z) positions
  else if String.eqb face "B" then filter (fun '(_, _, z) => (z =? -1)%Z) positions
  else [].


Definition dot (p q : Position) : Z :=
  let '(x, y, z) := p in
  let '(x', y', z') := q in
  (x * x' + y * y' + z * z')%Z.

Definition Position_eqb (p q : Position) : bool :=
  let '(x, y, z) := p in
  let '(x', y', z') := q in
  ((x =? x') && (y =? y') && (z =? z'))%Z.

(** How many of the six faces a position belongs to. *)
Definition facesThrough (p : Position) : nat :=
  length (filter (fun face => existsb (Position_eqb p) (getAffectedCubes face)) faceLetters).

(** ** The state of the module

    [faceAnimationStatus] is an object used as a table from face keys to
    flags; a key it does not hold reads as [undefined], which the test of
    [animate] takes for [false].  Keys are the strings that
    [move.charAt(0)] produces, of at most one character, so none of them
    names a member that every object inherits.  [currentAnimation] is a
    record whose [face] starts as [null].  The three callbacks are either
    absent or observers; a call of one is recorded as an event. *)
Record Animation : Type := mkAnimation {
  a_face : option string;
  a_startTime : Z;
  a_isAnimating : bool;
  a_clockwise : bool;
  a_angle : Angle }.

Record Callbacks : Type := mkCallbacks {
  onStart : bool; onComplete : bool; onUpdate : bool }.

Record AnimState : Type := mkAnimState {
  faceAnimationStatus : list (string * bool);
  currentAnimation : Animation;
  animationCallbacks : Callbacks }.

(** What a callback is called with.  [OnUpdate] carries the angle of the
    running animation and the eased progress; the angle it reports is
    their product. *)
Inductive Event : Type :=
| OnStart (moveData : ParsedMove)
| OnUpdate (face : option string) (angle : Angle) (easedProgress : Q) (isComplete : bool)
| OnComplete (face : option string).

Definition initialAnimState : AnimState :=
  mkAnimState
    [("R", false); ("L", false); ("U", false); ("D", false); ("F", false); ("B", false)]%string
    (mkAnimation None 0%Z false true QuarterTurn)
    (mkCallbacks false false false).

(** [faceAnimationStatus[face]] in a test *)
Fixpoint statusOf (table : list (string * bool)) (face : string) : bool :=
  match table with
  | [] => false
  | (k, v) :: t => if String.eqb k face then v else statusOf t face
  end.

(** [faceAnimationStatus[face] = v] *)
Fixpoint setStatus (table : list (string * bool)) (face : string) (v : bool)
  : list (string * bool) :=
  match table with
  | [] => [(face, v)]
  | (k, w) :: t => if String.eqb k face then (k, v) :: t else (k, w) :: setStatus t face v
  end.

(** The key under which a [face] field is looked up: [null] is turned
    into the string [null]. *)
Definition faceKey (face : option string) : string :=
  match face with Some f => f | None => "null"%string end.

(** [if (moveNotation)]: [null] and the empty string are false. *)
Definition givenNotation (moveNotation : option string) : option string :=
  match moveNotation with
  | Some EmptyString => None
  | other => other
  end.

(** Main animation function; [now] is what [Date.now()] returns. *)
Definition animate (now : Z) (face : string) (moveNotation : option string) (st : AnimState)
  : bool * AnimState * list Event :=
  if statusOf (faceAnimationStatus st) face then (false, st, [])
  else
    (* Parse move if provided *)
    let moveData :=
      match givenNotation moveNotation with
      | Some m => parseMove m
      | None => mkParsedMove face true QuarterTurn
      end in
    (* Start animation *)
    let status := setStatus (faceAnimationStatus st) face true in
    let current :=
      mkAnimation (Some (pm_face moveData)) now true (pm_clockwise moveData)
                  (pm_angle moveData) in
    (true, mkAnimState status current (animationCallbacks st),
     if onStart (animationCallbacks st) then [OnStart moveData] else []).

(** [ANIMATION_CONFIG.duration] *)
Definition duration : Z := 800%Z.

Section Easing.
Local Open Scope Q_scope.

Variable pow : Q -> Q -> Q.

(** Easing function for smooth animation *)
Definition easeInOutCubic (t : Q) : Q :=
  if Qltb t 0.5 then 4 * t * t * t else 1 - pow (-2 * t + 2) 3 / 2.

(** Update animation (call this in render loop) *)
Definition updateAnimations (now : Z) (st : AnimState) : AnimState * list Event :=
  let cur := currentAnimation st in
  if negb (a_isAnimating cur) then (st, [])
  else
    let elapsed := (now - a_startTime cur)%Z in
    let progress := js_min (inject_Z elapsed / inject_Z duration) 1 in
    (* Apply easing *)
    let easedProgress := easeInOutCubic progress in
    let updates :=
      if onUpdate (animationCallbacks st)
      then [OnUpdate (a_face cur) (a_angle cur) easedProgress (Qle_bool 1 progress)]
      else [] in
    (* Check if animation is complete *)
    if Qle_bool 1 progress then
      let status := setStatus (faceAnimationStatus st) (faceKey (a_face cur)) false in
      let cur' := mkAnimation (a_face cur) (a_startTime cur) false (a_clockwise cur)
                              (a_angle cur) in
      (mkAnimState status cur' (animationCallbacks st),
       updates ++ (if onComplete (animationCallbacks st) then [OnComplete (a_face cur)] else []))
    else (st, updates).

End Easing.

(** Stop all animations *)
Definition stopAllAnimations (st : AnimState) : AnimState :=
  let cur := currentAnimation st in
  mkAnimState (map (fun e => (fst e, false)) (faceAnimationStatus st))
              (mkAnimation (a_face cur) (a_startTime cur) false (a_clockwise cur) (a_angle cur))
              (animationCallbacks st).

(** Check if any animation is running *)
Definition isAnimating (st : AnimState) : bool := a_isAnimating (currentAnimation st).

(** The call [animate(move.charAt(0), move)] that [executeMoveSequence]
    makes for each move. *)
Definition animateMove (now : Z) (move : string) (st : AnimState)
  : bool * AnimState * list Event :=
  animate now (charAt0 move) (Some move) st.

(** Calls that reach the module from outside, and their effect on its
    state. *)
Inductive Call : Type :=
| CallAnimate (now : Z) (move : string)
| CallUpdate (now : Z).

(** A power function for the statements about easing: exact on the
    exponent three. *)
Definition cubePow (x y : Q) : Q := if Qeq_bool y 3 then (x * x * x)%Q else x.

Definition perform (pow : Q -> Q -> Q) (st : AnimState) (c : Call) : AnimState :=
  match c with
  | CallAnimate now move => snd (fst (animateMove now move st))
  | CallUpdate now => fst (updateAnimations pow now st)
  end.

(** The situation of a face whose flag is set while the running
    animation belongs to another face. *)
Definition lockedOut (f : string) (st : AnimState) : Prop :=
  statusOf (faceAnimationStatus st) f = true /\
  exists g, a_face (currentAnimation st) = Some g /\ g <> f.

(* ================================================================== *)
(** * Part XI: more of the recognition helpers                         *)
(* ================================================================== *)

Section MoreRecognition.
Local Open Scope Q_scope.

(** Enhanced RGB-based color detection with improved ratios *)
Definition detectColorRGB (r g b : Q) : Color :=
  let max := js_max3 r g b in
  let min := js_min3 r g b in
  let diff := max - min in
  let sum := r + g + b in
  let avg := sum / 3 in
  (* WHITE - High values, low difference *)
  if Qltb 200 avg && Qltb diff 40 then White
  (* BLACK - Low values *)
  else if Qltb avg 50 then Unknown
  (* RED - Very restrictive red detection *)
  else if Qltb 150 r && Qltb (g * 2.2) r && Qltb (b * 2.2) r && Qltb g 70 then Red
  (* ORANGE - Very specific orange detection *)
  else if Qltb 120 r && Qltb 100 g && Qltb b 80 && Qltb g r && Qltb b g
          && Qltb (r - g) 40 && Qltb 100 g then Orange
  (* YELLOW - High red and green, low blue *)
  else if Qltb 140 r && Qltb 140 g && Qltb b 100 && Qltb (Qabs (r - g)) 50 then Yellow
  (* GREEN - High green component *)
  else if Qltb 120 g && Qltb (r * 1.3) g && Qltb (b * 1.3) g then Green
  (* BLUE - High blue component *)
  else if Qltb 120 b && Qltb (r * 1.3) b && Qltb (g * 1.3) b then Blue
  else Unknown.




(** The frame region that [createBasicGrid] returns; its [method] field
    is a constant string. *)
Record GridBounds : Type := mkGridBounds {
  gb_x : Q; gb_y : Q; gb_width : Q; gb_height : Q; gb_area : Q }.

Definition createBasicGrid (width height : Q) : GridBounds :=
  let gridSize := js_min width height * 0.4 in
  let centerX := width / 2 in
  let centerY := height / 2 in
  let gridX := centerX - gridSize / 2 in
  let gridY := centerY - gridSize / 2 in
  mkGridBounds gridX gridY gridSize gridSize (gridSize * gridSize).

(** The point at which [analyzeColorsOptimized] samples the facelet in
    row [row] and column [col] of the grid. *)
Definition faceletCenter (gridBounds : GridBounds) (mirrorMode : bool) (row col : nat) : Q * Q :=
  let x := gb_x gridBounds in
  let y := gb_y gridBounds in
  let gridWidth := gb_width gridBounds in
  let faceletSize := gridWidth / 3 in
  let actualCol := if mirrorMode then (2 - Z.of_nat col)%Z else Z.of_nat col in
  let centerX := x + (inject_Z actualCol * faceletSize) + (faceletSize / 2) in
  let centerY := y + (Qnat row * faceletSize) + (faceletSize / 2) in
  (centerX, centerY).

(** ** Saving a face *)

(** The state and properties of the component that [isFaceValid] and
    [handleSave] read. *)
Record Capture : Type := mkCapture {
  cubeDetected : bool;
  faceColors : ColorGrid;
  alignmentScore : Q;
  totalConfidence : Q;
  faceIndex : nat;
  hasOnSaveFace : bool }.

(** [x > y] for a number [x] that may be [NaN]: false on [NaN]. *)
Definition exceeds (x : option Q) (y : Q) : bool :=
  match x with Some q => Qltb y q | None => false end.

Definition isFaceValid (c : Capture) : bool :=
  if negb (cubeDetected c) then false
  else if (length (faceColors c) =? 0)%nat then false
  else
    let validColors := filter notUnknown (flat (faceColors c)) in
    let totalColors := length (flat (faceColors c)) in
    let colorDetectionRate :=
      js_div (Qnat (length validColors)) (Qnat totalColors) in
    (* More lenient validation for right face (index 5) due to common issues *)
    if (faceIndex c =? 5)%nat then
      (4 <=? length validColors)%nat && Qltb 30 (alignmentScore c)
      && exceeds colorDetectionRate 0.4
    else
      (6 <=? length validColors)%nat && Qltb 50 (alignmentScore c)
      && exceeds colorDetectionRate 0.6.

(** The object that [handleSave] hands to [onSaveFace]; [faceMapping]
    lists the flags [front], [back], [up], [down], [left], [right]. *)
Record FaceData : Type := mkFaceData {
  fd_faceIndex : nat;
  fd_colors : ColorGrid;
  fd_alignmentScore : Q;
  fd_confidence : Q;
  fd_timestamp : Z;
  fd_faceMapping : list bool }.

Inductive SaveOutcome : Type :=
| AlertInvalid (alignment : Q)
| AlertTooFew (detected : nat)
| Saved (faceData : FaceData)
| NoCallback.

(** Enhanced save function with proper 3D cube mapping; [now] is what
    [Date.now()] returns. *)
Definition handleSave (now : Z) (c : Capture) : SaveOutcome :=
  if negb (isFaceValid c) then AlertInvalid (js_round (alignmentScore c))
  else
    (* Validate that we have a complete face *)
    let flatColors := flat (faceColors c) in
    let validColors := filter notUnknown flatColors in
    if (length validColors <? 6)%nat then AlertTooFew (length validColors)
    else
      let faceData :=
        mkFaceData (faceIndex c) (faceColors c) (alignmentScore c) (totalConfidence c / 9) now
          (map (Nat.eqb (faceIndex c)) [0; 1; 2; 3; 4; 5]%nat) in
      if hasOnSaveFace c then Saved faceData else NoCallback.

End MoreRecognition.

(** The number of labels of a grid other than ['unknown']. *)
Definition knownLabels (colors : ColorGrid) : nat := length (filter notUnknown (flat colors)).

(** A capture of the right face with four recognised labels. *)
Definition sparseCapture : Capture :=
  mkCapture true
    [[Red; Red; Unknown]; [Unknown; Blue; Unknown]; [Unknown; Green; Unknown]]
    40%Q 2%Q 5 true.

(** Where the label [c] sits in a grid. *)
Definition mask (c : Color) (colors : ColorGrid) : list (list bool) :=
  map (map (fun x => Color_eqb x c)) colors.

(* ================================================================== *)
(** * Part XII: the analysis of a frame                                *)
(* ================================================================== *)

Section Analysis.
Local Open Scope Q_scope.

Variable pow : Q -> Q -> Q.
Variable sqrt : Q -> Q.
Variable detectColorAdvanced : Q -> Q -> Q -> option Color.
Variable detectColorNeural : Q -> Q -> Q -> option Color.
Variable detectColorUltraAccurate : Q -> Q -> Q -> option Color.

(** [sampleColorOptimized(ctx, centerX, centerY, faceletSize)] reads the
    canvas; it is a parameter, [None] standing for [null]. *)
Variable sampleColorOptimized : Q -> Q -> Q -> option (Q * Q * Q).

(** State of the component *)
Variable calibrationData : option Calibration.
Variable mirrorMode : bool.






End Analysis.


(* ================================================================== *)
(** * Part XIII: the move engine on values                             *)
(* ================================================================== *)

Lemma isLabel_inv (v : jsval) : isLabel v = true -> exists a, v = lab a.
Proof. destruct v; try discriminate. intros _. eexists; reflexivity. Qed.

Lemma wfRow_inv (row : list jsval) :
  (length row =? 3) && forallb isLabel row = true ->
  exists a b c, row = [lab a; lab b; lab c].
Proof.
  intros H. apply andb_true_iff in H. destruct H as [Hl Hc].
  destruct row as [|a [|b [|c [|x row]]]]; try discriminate Hl.
  simpl in Hc.
  repeat (apply andb_true_iff in Hc; destruct Hc as [? Hc]).
  destruct (isLabel_inv a) as [a' ->]; [assumption|].
  destruct (isLabel_inv b) as [b' ->]; [assumption|].
  destruct (isLabel_inv c) as [c' ->]; [assumption|].
  exists a', b', c'. reflexivity.
Qed.

Lemma wfGridb_inv (g : Grid) :
  wfGridb g = true ->
  exists a b c d e f g' h i, g = grid9 a b c d e f g' h i.
Proof.
  unfold wfGridb. intros H.
  apply andb_true_iff in H. destruct H as [Hl Hr].
  destruct g as [|r1 [|r2 [|r3 [|r4 g]]]]; try discriminate Hl.
  cbn [forallb] in Hr.
  apply andb_true_iff in Hr. destruct Hr as [H1 Hr].
  apply andb_true_iff in Hr. destruct Hr as [H2 Hr].
  apply andb_true_iff in Hr. destruct Hr as [H3 _].
  apply wfRow_inv in H1. destruct H1 as (a & b & c & ->).
  apply wfRow_inv in H2. destruct H2 as (d & e & f & ->).
  apply wfRow_inv in H3. destruct H3 as (g' & h & i & ->).
  exists a, b, c, d, e, f, g', h, i. reflexivity.
Qed.

Lemma wfCube_faces (s : CubeVal) :
  wfCube s ->
  wfGridb (v_front s) = true /\ wfGridb (v_back s) = true /\
  wfGridb (v_up s) = true /\ wfGridb (v_down s) = true /\
  wfGridb (v_left s) = true /\ wfGridb (v_right s) = true.
Proof.
  unfold wfCube, wfCubeb. simpl. intros H.
  repeat (apply andb_true_iff in H; destruct H as [? H]).
  repeat split; assumption.
Qed.

(** Brings a well-formed state into the form of six [grid9]s over string
    variables, on which the engine computes. *)
Ltac cube_inv s H :=
  destruct s as [gF gB gU gD gL gR];
  apply wfCube_faces in H; simpl in H;
  destruct H as (HF & HB & HU & HD & HL & HR);
  apply wfGridb_inv in HF; apply wfGridb_inv in HB; apply wfGridb_inv in HU;
  apply wfGridb_inv in HD; apply wfGridb_inv in HL; apply wfGridb_inv in HR;
  destruct HF as (?&?&?&?&?&?&?&?&?&->); destruct HB as (?&?&?&?&?&?&?&?&?&->);
  destruct HU as (?&?&?&?&?&?&?&?&?&->); destruct HD as (?&?&?&?&?&?&?&?&?&->);
  destruct HL as (?&?&?&?&?&?&?&?&?&->); destruct HR as (?&?&?&?&?&?&?&?&?&->).

Lemma parseMove_normal (move : string) :
  pm_face (parseMove move) = pm_face (parseMove (normalMove move)) /\
  pm_clockwise (parseMove move) = pm_clockwise (parseMove (normalMove move)).
Proof.
  destruct move as [|c rest]; [split; reflexivity|].
  unfold parseMove, normalMove. simpl.
  destruct (String.eqb rest "'") eqn:E; simpl.
  - split; reflexivity.
  - destruct (String.eqb rest "2"); split; reflexivity.
Qed.

Lemma applyMoveToCubeState_normal (st : loc) (move : string) :
  applyMoveToCubeState st move = applyMoveToCubeState st (normalMove move).
Proof.
  unfold applyMoveToCubeState.
  destruct (parseMove_normal move) as [-> ->]. reflexivity.
Qed.

Lemma applyMoveToCubeState_val_normal (s : CubeVal) (move : string) :
  applyMoveToCubeState_val s move = applyMoveToCubeState_val s (normalMove move).
Proof.
  unfold applyMoveToCubeState_val, run, bind.
  destruct (store s emptyHeap) as [[st h]|e]; [|reflexivity].
  rewrite applyMoveToCubeState_normal. reflexivity.
Qed.

Lemma recognised_normal (move : string) :
  recognised move = true -> In (normalMove move) quarterTurns.
Proof.
  destruct move as [|c rest]; [discriminate|].
  unfold recognised, faceLetters. cbn [charAt0 existsb normalMove]. intros H.
  repeat rewrite orb_true_iff in H.
  destruct (String.eqb rest "'");
    repeat (destruct H as [H|H]);
    try discriminate H;
    apply String.eqb_eq in H; injection H as ->; simpl; tauto.
Qed.

Lemma unrecognised_normal (move : string) :
  recognised move = false ->
  faceOfLetter (pm_face (parseMove move)) = None.
Proof.
  destruct (parseMove_normal move) as [-> _].
  destruct move as [|c rest]; [reflexivity|].
  unfold recognised, faceLetters. cbn [charAt0 existsb normalMove]. intros H.
  repeat rewrite orb_false_iff in H.
  destruct H as (HF & HB & HU & HD & HL & HR & _).
  assert (E : pm_face (parseMove (String c (if String.eqb rest "'" then "'" else EmptyString)))
              = String c EmptyString)
    by (destruct (String.eqb rest "'"); reflexivity).
  rewrite E. unfold faceOfLetter.
  rewrite HF, HB, HU, HD, HL, HR. reflexivity.
Qed.

(** On a well-formed state the engine succeeds for every move string, and
    an unrecognised one gives back a copy of the state. *)
Lemma engine_unrecognised (s : CubeVal) (move : string) :
  wfCube s -> recognised move = false ->
  applyMoveToCubeState_val s move = Ok s.
Proof.
  intros H Hm.
  pose proof (unrecognised_normal move Hm) as Hf.
  unfold applyMoveToCubeState_val, applyMoveToCubeState.
  unfold faceOfLetter in Hf.
  destruct (String.eqb (pm_face (parseMove move)) "F"); [discriminate|].
  destruct (String.eqb (pm_face (parseMove move)) "B"); [discriminate|].
  destruct (String.eqb (pm_face (parseMove move)) "R"); [discriminate|].
  destruct (String.eqb (pm_face (parseMove move)) "L"); [discriminate|].
  destruct (String.eqb (pm_face (parseMove move)) "U"); [discriminate|].
  destruct (String.eqb (pm_face (parseMove move)) "D"); [discriminate|].
  cube_inv s H. vm_compute. reflexivity.
Qed.

Lemma engine_total (s : CubeVal) (move : string) :
  wfCube s ->
  exists s', applyMoveToCubeState_val s move = Ok s' /\ wfCube s' /\ stickerCount s' = 54.
Proof.
  intros H.
  destruct (recognised move) eqn:Hm.
  - rewrite applyMoveToCubeState_val_normal.
    apply recognised_normal in Hm.
    cube_inv s H.
    simpl in Hm.
    repeat (destruct Hm as [Hm|Hm]; [rewrite <- Hm; eexists; split; [vm_compute; reflexivity|split; reflexivity]|]).
    contradiction.
  - exists s. split; [apply engine_unrecognised; assumption|].
    split; [assumption|].
    cube_inv s H. reflexivity.
Qed.

Lemma wfCube_is3x3 (s : CubeVal) (f : FaceName) :
  wfCube s -> is3x3 (grid_of s f) /\ length (concat (grid_of s f)) = 9.
Proof.
  intros H. cube_inv s H.
  destruct f; (split; [split; [reflexivity|repeat constructor]|reflexivity]).
Qed.

Lemma wfCube_stickerCount (s : CubeVal) : wfCube s -> stickerCount s = 54.
Proof. intros H. cube_inv s H. reflexivity. Qed.

Lemma faceOfLetter_inv (move : string) (f : FaceName) :
  faceOfLetter (charAt0 move) = Some f ->
  recognised move = true /\
  exists c rest, move = String c rest /\
    ((c = "F"%char /\ f = Front) \/ (c = "B"%char /\ f = Back) \/
     (c = "R"%char /\ f = Right) \/ (c = "L"%char /\ f = Left) \/
     (c = "U"%char /\ f = Up) \/ (c = "D"%char /\ f = Down)).
Proof.
  destruct move as [|c rest]; [discriminate|].
  unfold faceOfLetter, recognised, faceLetters. cbn [charAt0 existsb].
  destruct (String.eqb (String c EmptyString) "F") eqn:EF.
  { intros [= <-]. apply String.eqb_eq in EF. injection EF as ->.
    split; [reflexivity|]. exists "F"%char, rest. tauto. }
  destruct (String.eqb (String c EmptyString) "B") eqn:EB.
  { intros [= <-]. apply String.eqb_eq in EB. injection EB as ->.
    split; [reflexivity|]. exists "B"%char, rest. tauto. }
  destruct (String.eqb (String c EmptyString) "R") eqn:ER.
  { intros [= <-]. apply String.eqb_eq in ER. injection ER as ->.
    split; [reflexivity|]. exists "R"%char, rest. tauto. }
  destruct (String.eqb (String c EmptyString) "L") eqn:EL.
  { intros [= <-]. apply String.eqb_eq in EL. injection EL as ->.
    split; [reflexivity|]. exists "L"%char, rest. tauto. }
  destruct (String.eqb (String c EmptyString) "U") eqn:EU.
  { intros [= <-]. apply String.eqb_eq in EU. injection EU as ->.
    split; [reflexivity|]. exists "U"%char, rest. tauto. }
  destruct (String.eqb (String c EmptyString) "D") eqn:ED.
  { intros [= <-]. apply String.eqb_eq in ED. injection ED as ->.
    split; [reflexivity|]. exists "D"%char, rest. tauto. }
  discriminate.
Qed.

(** Every quarter turn other than the clockwise back turn returns to the
    starting state after four applications. *)
Lemma quarter_turn_order_four (s : CubeVal) (move : string) :
  wfCube s -> In move quarterTurns -> move <> "B"%string ->
  iter_apply 4 move s = Ok s.
Proof.
  intros H Hm Hb. cube_inv s H. simpl in Hm.
  repeat (destruct Hm as [Hm|Hm];
          [subst move; try (exfalso; apply Hb; reflexivity); vm_compute; reflexivity|]).
  contradiction.
Qed.

(** The counter-clockwise back turn undoes itself after four applications,
    so the clockwise one is the odd one out among the two back turns. *)
Lemma back_prime_order_four (s : CubeVal) :
  wfCube s -> iter_apply 4 "B'" s = Ok s.
Proof.
  intros H. apply quarter_turn_order_four; [assumption|simpl; tauto|discriminate].
Qed.

(** The clockwise back turn is not undone by the counter-clockwise one:
    the first column of the left face comes back upside down. *)
Lemma back_then_back_prime_differs :
  exists s1 s2,
    applyMoveToCubeState_val numberedCube "B" = Ok s1 /\
    applyMoveToCubeState_val s1 "B'" = Ok s2 /\
    grid_of s2 Left =
      [[lab "L6"; lab "L1"; lab "L2"];
       [lab "L3"; lab "L4"; lab "L5"];
       [lab "L0"; lab "L7"; lab "L8"]] /\
    s2 <> numberedCube.
Proof.
  do 2 eexists. split; [vm_compute; reflexivity|].
  split; [vm_compute; reflexivity|]. split; [reflexivity|discriminate].
Qed.

(** A half-turn string is executed as one clockwise quarter turn. *)
Lemma half_turn_is_one_quarter (s : CubeVal) (c : ascii) :
  applyMoveToCubeState_val s (String c "2") = applyMoveToCubeState_val s (String c EmptyString).
Proof.
  rewrite applyMoveToCubeState_val_normal. reflexivity.
Qed.

(** C1 (evaluation at the failing input): on the state reached from the
    solved cube by [R], four clockwise back turns do not give the state
    back: the two ends of the top row of the up face have changed places,
    and so have those of the bottom row of the down face. *)
Theorem back_turn_four_times_differs :
  wfCube cubeAfterR /\
  applyMoveToCubeState_val solvedCube "R" = Ok cubeAfterR /\
  exists s4,
    iter_apply 4 "B" cubeAfterR = Ok s4 /\
    s4 <> cubeAfterR /\
    grid_of s4 Up =
      [[lab "green"; lab "white"; lab "white"];
       [lab "white"; lab "white"; lab "green"];
       [lab "white"; lab "white"; lab "green"]] /\
    grid_of cubeAfterR Up =
      [[lab "white"; lab "white"; lab "green"];
       [lab "white"; lab "white"; lab "green"];
       [lab "white"; lab "white"; lab "green"]].
Proof.
  split; [reflexivity|]. split; [vm_compute; reflexivity|].
  eexists. split; [vm_compute; reflexivity|].
  split; [discriminate|]. split; reflexivity.
Qed.

(** C2 (evaluation at the failing input): ["R2"] applied to the solved cube
    gives what a single ["R"] gives, not what two give; applying it twice
    therefore leaves the cube half-turned instead of solved. *)
Theorem half_turn_twice_differs :
  wfCube solvedCube /\
  applyMoveToCubeState_val solvedCube "R2" = applyMoveToCubeState_val solvedCube "R" /\
  applyMoveToCubeState_val solvedCube "R2" <> iter_apply 2 "R" solvedCube /\
  exists s2,
    iter_apply 2 "R2" solvedCube = Ok s2 /\
    s2 <> solvedCube /\
    grid_of s2 Front =
      [[lab "green"; lab "green"; lab "blue"];
       [lab "green"; lab "green"; lab "blue"];
       [lab "green"; lab "green"; lab "blue"]].
Proof.
  split; [reflexivity|]. split; [vm_compute; reflexivity|].
  split; [vm_compute; discriminate|].
  eexists. split; [vm_compute; reflexivity|].
  split; [discriminate|reflexivity].
Qed.

(** C4 (counterexample): the move string ["X"] does not start with a face
    letter, and the engine returns a cube state for it, the solved cube it
    was given, instead of an error. *)
Lemma invalid_move_not_signalled :
  ~ (wfCube solvedCube -> recognised "X" = false ->
     isOk (applyMoveToCubeState_val solvedCube "X") = false).
Proof.
  intros H. specialize (H eq_refl eq_refl). vm_compute in H. discriminate H.
Qed.

(** C4 (amended): for a move string whose first character is not one of
    F, B, U, D, L, R (the empty string included) the engine signals no
    error and returns a copy of the state it was given. *)
Theorem unrecognised_move_copies_state (s : CubeVal) (move : string) :
  wfCube s -> recognised move = false ->
  applyMoveToCubeState_val s move = Ok s /\
  isOk (applyMoveToCubeState_val s move) = true.
Proof.
  intros H Hm. rewrite (engine_unrecognised s move H Hm). split; reflexivity.
Qed.

Lemma unrecognised_move_copies_state_witness :
  applyMoveToCubeState_val solvedCube "X" = Ok solvedCube /\
  isOk (applyMoveToCubeState_val solvedCube "X") = true.
Proof.
  apply (unrecognised_move_copies_state solvedCube "X"); reflexivity.
Defined.

(** C5: on a well-formed state (six faces of three rows of three labels,
    54 stickers) every recognised move returns a state that again has six
    faces of three by three, nine stickers on each and 54 in all. *)
Theorem move_preserves_shape (s : CubeVal) (move : string) :
  wfCube s -> recognised move = true ->
  stickerCount s = 54 /\
  exists s',
    applyMoveToCubeState_val s move = Ok s' /\
    (forall f, is3x3 (grid_of s' f) /\ length (concat (grid_of s' f)) = 9) /\
    stickerCount s' = 54.
Proof.
  intros H _. split; [apply wfCube_stickerCount; assumption|].
  destruct (engine_total s move H) as (s' & E & Hwf & Hc).
  exists s'. split; [assumption|]. split; [|assumption].
  intros f. apply wfCube_is3x3. assumption.
Qed.

Lemma move_preserves_shape_witness :
  stickerCount cubeAfterR = 54 /\
  exists s',
    applyMoveToCubeState_val cubeAfterR "U'" = Ok s' /\
    (forall f, is3x3 (grid_of s' f) /\ length (concat (grid_of s' f)) = 9) /\
    stickerCount s' = 54.
Proof.
  apply (move_preserves_shape cubeAfterR "U'"); reflexivity.
Defined.

(** C10: a recognised move leaves the face opposite to the turning face
    as it was: all nine cells keep their values. *)
Theorem opposite_face_unchanged (s : CubeVal) (move : string) (f : FaceName) :
  wfCube s -> faceOfLetter (charAt0 move) = Some f ->
  exists s',
    applyMoveToCubeState_val s move = Ok s' /\
    grid_of s' (opposite f) = grid_of s (opposite f).
Proof.
  intros H Hf.
  destruct (faceOfLetter_inv move f Hf) as (_ & c & rest & -> & Hc).
  rewrite applyMoveToCubeState_val_normal. unfold normalMove.
  cube_inv s H.
  destruct (String.eqb rest "'");
    repeat (destruct Hc as [[-> ->]|Hc]; [eexists; split; [vm_compute; reflexivity|reflexivity]|]);
    destruct Hc as [-> ->]; eexists; (split; [vm_compute; reflexivity|reflexivity]).
Qed.

Lemma opposite_face_unchanged_witness :
  exists s',
    applyMoveToCubeState_val cubeAfterR "F" = Ok s' /\
    grid_of s' Back = grid_of cubeAfterR Back.
Proof.
  apply (opposite_face_unchanged cubeAfterR "F" Front); reflexivity.
Defined.

(* ================================================================== *)
(** * Part XIV: the engine in an arbitrary store                       *)
(* ================================================================== *)

Lemma nth_error_app_shift {A} (l1 l2 : list A) (n : nat) :
  nth_error (l1 ++ l2) (length l1 + n) = nth_error l2 n.
Proof. induction l1; simpl; auto. Qed.

Lemma upd_app_shift {A} (l1 l2 : list A) (n : nat) (x : A) :
  upd (l1 ++ l2) (length l1 + n) x = l1 ++ upd l2 n x.
Proof. induction l1; simpl; [reflexivity|]. rewrite IHl1. reflexivity. Qed.

Lemma upd_map {A B} (f : A -> B) (l : list A) (n : nat) (x : A) :
  map f (upd l n x) = upd (map f l) n (f x).
Proof.
  revert n. induction l as [|y l IH]; intros [|n]; simpl; try reflexivity.
  rewrite IH. reflexivity.
Qed.

Lemma upd_app_left {A} (l1 l2 : list A) (n : nat) (x y : A) :
  nth_error l1 n = Some y -> upd (l1 ++ l2) n x = upd l1 n x ++ l2.
Proof.
  revert n. induction l1 as [|z l1 IH]; intros [|n]; simpl; try discriminate; auto.
  intros H. rewrite (IH _ H). reflexivity.
Qed.

Lemma nth_error_app_left {A} (l1 l2 : list A) (n : nat) (y : A) :
  nth_error l1 n = Some y -> nth_error (l1 ++ l2) n = Some y.
Proof.
  revert n. induction l1 as [|z l1 IH]; intros [|n]; simpl; try discriminate; auto.
Qed.

Lemma length_upd {A} (l : list A) (n : nat) (x : A) : length (upd l n x) = length l.
Proof.
  revert n. induction l as [|y l IH]; intros [|n]; simpl; auto.
Qed.

Lemma face_of_shiftCube (n : nat) (c : CubeObj) (f : FaceName) :
  face_of (shiftCube n c) f = n + face_of c f.
Proof. destruct f; reflexivity. Qed.

Lemma happ_empty_r (h : Heap) : happ h emptyHeap = h.
Proof.
  destruct h. unfold happ. simpl. rewrite !app_nil_r. reflexivity.
Qed.

Lemma Forall2_shift (n : nat) (rs rs' : list loc) :
  Forall2 (fun r r' => r' = n + r) rs rs' <-> rs' = map (Nat.add n) rs.
Proof.
  split.
  - induction 1; simpl; [reflexivity|]. subst. reflexivity.
  - intros ->. induction rs; simpl; constructor; auto.
Qed.

Lemma Forall2_eq {A} (l l' : list A) : Forall2 eq l l' -> l = l'.
Proof. induction 1; [reflexivity|]. subst. reflexivity. Qed.

(** ** Rules of the simulation *)

Lemma sim_ret {A} h (R : A -> A -> Prop) a a' : R a a' -> sim h R (ret a) (ret a').
Proof. intros H t. unfold ret. eexists. split; [reflexivity|assumption]. Qed.

Lemma sim_bind {A B} h (R : A -> A -> Prop) (R' : B -> B -> Prop)
      (c c' : M A) (k k' : A -> M B) :
  sim h R c c' ->
  (forall a a', R a a' -> sim h R' (k a) (k' a')) ->
  sim h R' (bind c k) (bind c' k').
Proof.
  intros Hc Hk t. unfold bind. specialize (Hc t).
  destruct (c t) as [[a t']|e].
  - destruct Hc as (a' & -> & Ha). apply (Hk a a' Ha).
  - rewrite Hc. reflexivity.
Qed.

Lemma sim_weaken {A} h (R R' : A -> A -> Prop) (c c' : M A) :
  (forall a a', R a a' -> R' a a') -> sim h R c c' -> sim h R' c c'.
Proof.
  intros HR Hc t. specialize (Hc t). destruct (c t) as [[a t']|e]; [|assumption].
  destruct Hc as (a' & E & Ha). eauto.
Qed.

Lemma sim_getFace h st f :
  sim h (Rface h) (getFace st f) (getFace (length (cubesH h) + st) f).
Proof.
  intros t. unfold getFace, happ. simpl.
  rewrite nth_error_app_shift, nth_error_map.
  destruct (nth_error (cubesH t) st); simpl; [|reflexivity].
  eexists. split; [reflexivity|]. apply face_of_shiftCube.
Qed.

Lemma sim_getColors h fc :
  sim h (Rgrid h) (getColors fc) (getColors (length (facesH h) + fc)).
Proof.
  intros t. unfold getColors, happ. simpl.
  rewrite nth_error_app_shift, nth_error_map.
  destruct (@nth_error nat (facesH t) fc); simpl; [|reflexivity].
  eexists. split; reflexivity.
Qed.

Lemma sim_setColors h fc g :
  sim h eq (setColors fc g)
      (setColors (length (facesH h) + fc) (length (gridsH h) + g)).
Proof.
  intros t. unfold setColors, happ. simpl.
  rewrite nth_error_app_shift, nth_error_map.
  destruct (@nth_error nat (facesH t) fc); simpl; [|reflexivity].
  eexists. split; [|reflexivity].
  rewrite upd_app_shift, upd_map. reflexivity.
Qed.

Lemma sim_arrayLength h g :
  sim h eq (arrayLength g) (arrayLength (length (gridsH h) + g)).
Proof.
  intros t. unfold arrayLength, happ. simpl.
  rewrite nth_error_app_shift, nth_error_map.
  destruct (@nth_error (list nat) (gridsH t) g); simpl; [|reflexivity].
  eexists. split; [reflexivity|]. rewrite length_map. reflexivity.
Qed.

Lemma sim_getRow h g i :
  sim h (Rrow h) (getRow g i) (getRow (length (gridsH h) + g) i).
Proof.
  intros t. unfold getRow, happ. simpl.
  rewrite nth_error_app_shift, nth_error_map.
  destruct (@nth_error (list nat) (gridsH t) g) as [rs|]; simpl; [|reflexivity].
  rewrite nth_error_map.
  destruct (@nth_error nat rs i); simpl; [|reflexivity].
  eexists. split; reflexivity.
Qed.

Lemma sim_getRows h g :
  sim h (Forall2 (Rrow h)) (getRows g) (getRows (length (gridsH h) + g)).
Proof.
  intros t. unfold getRows, happ. simpl.
  rewrite nth_error_app_shift, nth_error_map.
  destruct (@nth_error (list nat) (gridsH t) g) as [rs|]; simpl; [|reflexivity].
  eexists. split; [reflexivity|]. apply Forall2_shift. reflexivity.
Qed.

Lemma sim_getCell h r j :
  sim h eq (getCell r j) (getCell (length (rowsH h) + r) j).
Proof.
  intros t. unfold getCell, happ. simpl.
  rewrite nth_error_app_shift.
  destruct (nth_error (rowsH t) r); simpl; [|reflexivity].
  eexists. split; reflexivity.
Qed.

Lemma sim_getCells h r :
  sim h eq (getCells r) (getCells (length (rowsH h) + r)).
Proof.
  intros t. unfold getCells, happ. simpl.
  rewrite nth_error_app_shift.
  destruct (nth_error (rowsH t) r); simpl; [|reflexivity].
  eexists. split; reflexivity.
Qed.

Lemma sim_setCell h r j v :
  sim h eq (setCell r j v) (setCell (length (rowsH h) + r) j v).
Proof.
  intros t. unfold setCell, happ. simpl.
  rewrite nth_error_app_shift.
  destruct (nth_error (rowsH t) r); simpl; [|reflexivity].
  eexists. split; [|reflexivity].
  rewrite upd_app_shift. reflexivity.
Qed.

Lemma sim_allocRow h cells : sim h (Rrow h) (allocRow cells) (allocRow cells).
Proof.
  intros t. unfold allocRow, happ. simpl.
  eexists. split.
  { rewrite <- app_assoc. reflexivity. }
  unfold Rrow. rewrite length_app. reflexivity.
Qed.

Lemma sim_allocGrid h rs rs' :
  Forall2 (Rrow h) rs rs' -> sim h (Rgrid h) (allocGrid rs) (allocGrid rs').
Proof.
  intros H t. apply Forall2_shift in H. subst rs'.
  unfold allocGrid, happ. simpl.
  eexists. split.
  { rewrite map_app, <- app_assoc. reflexivity. }
  unfold Rgrid. rewrite length_app, length_map. reflexivity.
Qed.

Lemma sim_allocFace h g :
  sim h (Rface h) (allocFace g) (allocFace (length (gridsH h) + g)).
Proof.
  intros t. unfold allocFace, happ. simpl.
  eexists. split.
  { rewrite map_app, <- app_assoc. reflexivity. }
  unfold Rface. rewrite length_app, length_map. reflexivity.
Qed.

Lemma sim_allocCube h c :
  sim h (Rcube h) (allocCube c) (allocCube (shiftCube (length (facesH h)) c)).
Proof.
  intros t. unfold allocCube, happ. simpl.
  eexists. split.
  { rewrite map_app, <- app_assoc. reflexivity. }
  unfold Rcube. rewrite length_app, length_map. reflexivity.
Qed.

Lemma sim_forRange h k start (body body' : nat -> M unit) :
  (forall i, sim h eq (body i) (body' i)) ->
  sim h eq (forRange k start body) (forRange k start body').
Proof.
  intros Hb. revert start. induction k as [|k IH]; intros start; simpl.
  - apply sim_ret. reflexivity.
  - eapply sim_bind; [apply Hb|]. intros _ _ _. apply IH.
Qed.

Lemma sim_mapM {A B} h (R : A -> A -> Prop) (R' : B -> B -> Prop)
      (f f' : A -> M B) (l l' : list A) :
  Forall2 R l l' ->
  (forall x x', R x x' -> sim h R' (f x) (f' x')) ->
  sim h (Forall2 R') (mapM f l) (mapM f' l').
Proof.
  intros Hl Hf. induction Hl as [|x x' l l' Hx Hl IH]; simpl.
  - apply sim_ret. constructor.
  - eapply sim_bind; [apply Hf; assumption|]. intros y y' Hy.
    eapply sim_bind; [apply IH|]. intros ys ys' Hys.
    apply sim_ret. constructor; assumption.
Qed.

Lemma Forall2_refl {A} (R : A -> A -> Prop) (l : list A) :
  (forall x, R x x) -> Forall2 R l l.
Proof. intros H. induction l; constructor; auto. Qed.

(** ** Simulation of the compound accesses and of the engine *)

Ltac sim_rel H :=
  try (unfold Rrow, Rgrid, Rface, Rcube in H); try subst.

Ltac sim_prim :=
  first [ apply sim_getFace | apply sim_getColors | apply sim_setColors
        | apply sim_arrayLength | apply sim_getRow | apply sim_getRows
        | apply sim_getCell | apply sim_getCells | apply sim_setCell
        | apply sim_allocRow | apply sim_allocFace | apply sim_allocCube ].

Ltac sim_seq lemmas :=
  repeat first
    [ solve [lemmas]
    | apply sim_ret; solve [reflexivity | assumption]
    | eapply sim_bind;
      [ solve [lemmas]
      | let a := fresh "a" in let a' := fresh "a'" in let H := fresh "Ha" in
        intros a a' H; sim_rel H ] ].

Lemma sim_getColorsOf h st f :
  sim h (Rgrid h) (getColorsOf st f) (getColorsOf (length (cubesH h) + st) f).
Proof. unfold getColorsOf. sim_seq sim_prim. Qed.

Lemma sim_setColorsOf h st f g :
  sim h eq (setColorsOf st f g)
      (setColorsOf (length (cubesH h) + st) f (length (gridsH h) + g)).
Proof. unfold setColorsOf. sim_seq sim_prim. Qed.

Lemma sim_gridGet h g i j :
  sim h eq (gridGet g i j) (gridGet (length (gridsH h) + g) i j).
Proof. unfold gridGet. sim_seq sim_prim. Qed.

Lemma sim_gridSet h g i j v :
  sim h eq (gridSet g i j v) (gridSet (length (gridsH h) + g) i j v).
Proof. unfold gridSet. sim_seq sim_prim. Qed.

Ltac sim_grid :=
  first [ apply sim_getColorsOf | apply sim_setColorsOf
        | apply sim_gridGet | apply sim_gridSet | sim_prim ].

Lemma sim_cellGet h st f i j :
  sim h eq (cellGet st f i j) (cellGet (length (cubesH h) + st) f i j).
Proof. unfold cellGet. sim_seq sim_grid. Qed.

Lemma sim_cellSet h st f i j v :
  sim h eq (cellSet st f i j v) (cellSet (length (cubesH h) + st) f i j v).
Proof. unfold cellSet. sim_seq sim_grid. Qed.

Lemma sim_cellCopy h st dst src :
  sim h eq (cellCopy st dst src) (cellCopy (length (cubesH h) + st) dst src).
Proof.
  destruct dst as [[f i] j], src as [[f' i'] j']. unfold cellCopy.
  sim_seq ltac:(first [apply sim_cellGet | apply sim_cellSet]).
Qed.

Lemma sim_newSquare h n : sim h (Rgrid h) (newSquare n) (newSquare n).
Proof.
  unfold newSquare.
  eapply sim_bind.
  - apply (sim_mapM h eq (Rrow h)); [apply Forall2_refl; reflexivity|].
    intros _ _ _. apply sim_allocRow.
  - intros rs rs' Hrs. apply sim_allocGrid. assumption.
Qed.

Lemma sim_rotate2DArray h g clockwise :
  sim h (Rgrid h) (rotate2DArray g clockwise)
      (rotate2DArray (length (gridsH h) + g) clockwise).
Proof.
  unfold rotate2DArray.
  eapply sim_bind; [apply sim_arrayLength|]. intros n ? <-.
  eapply sim_bind; [apply sim_newSquare|]. intros rotated ? ->.
  eapply sim_bind.
  - destruct clockwise;
      (apply sim_forRange; intros i; apply sim_forRange; intros j;
       eapply sim_bind; [apply sim_gridGet|]; intros v ? <-; apply sim_gridSet).
  - intros _ _ _. apply sim_ret. reflexivity.
Qed.

Ltac sim_engine :=
  first [ apply sim_cellCopy | apply sim_cellGet | apply sim_cellSet
        | apply sim_rotate2DArray | sim_grid ].

Lemma sim_rotateFrontFace h st clockwise :
  sim h eq (rotateFrontFace st clockwise)
      (rotateFrontFace (length (cubesH h) + st) clockwise).
Proof. unfold rotateFrontFace. destruct clockwise; sim_seq sim_engine. Qed.

Lemma sim_rotateBackFace h st clockwise :
  sim h eq (rotateBackFace st clockwise)
      (rotateBackFace (length (cubesH h) + st) clockwise).
Proof. unfold rotateBackFace. destruct clockwise; sim_seq sim_engine. Qed.

Lemma sim_rotateRightFace h st clockwise :
  sim h eq (rotateRightFace st clockwise)
      (rotateRightFace (length (cubesH h) + st) clockwise).
Proof. unfold rotateRightFace. destruct clockwise; sim_seq sim_engine. Qed.

Lemma sim_rotateLeftFace h st clockwise :
  sim h eq (rotateLeftFace st clockwise)
      (rotateLeftFace (length (cubesH h) + st) clockwise).
Proof. unfold rotateLeftFace. destruct clockwise; sim_seq sim_engine. Qed.

Lemma sim_rotateUpFace h st clockwise :
  sim h eq (rotateUpFace st clockwise)
      (rotateUpFace (length (cubesH h) + st) clockwise).
Proof. unfold rotateUpFace. destruct clockwise; sim_seq sim_engine. Qed.

Lemma sim_rotateDownFace h st clockwise :
  sim h eq (rotateDownFace st clockwise)
      (rotateDownFace (length (cubesH h) + st) clockwise).
Proof. unfold rotateDownFace. destruct clockwise; sim_seq sim_engine. Qed.

Lemma sim_storeGrid h g : sim h (Rgrid h) (storeGrid g) (storeGrid g).
Proof.
  unfold storeGrid.
  eapply sim_bind.
  - apply (sim_mapM h eq (Rrow h)); [apply Forall2_refl; reflexivity|].
    intros cells ? <-. apply sim_allocRow.
  - intros rs rs' Hrs. apply sim_allocGrid. assumption.
Qed.

Lemma sim_storeFace h g : sim h (Rface h) (storeFace g) (storeFace g).
Proof.
  unfold storeFace. sim_seq ltac:(first [apply sim_storeGrid | sim_prim]).
Qed.

Lemma sim_store h s : sim h (Rcube h) (store s) (store s).
Proof.
  unfold store.
  eapply sim_bind; [apply sim_storeFace|]. intros fr ? ->.
  eapply sim_bind; [apply sim_storeFace|]. intros bk ? ->.
  eapply sim_bind; [apply sim_storeFace|]. intros u ? ->.
  eapply sim_bind; [apply sim_storeFace|]. intros d ? ->.
  eapply sim_bind; [apply sim_storeFace|]. intros l ? ->.
  eapply sim_bind; [apply sim_storeFace|]. intros r ? ->.
  apply (sim_allocCube h (mkCubeObj fr bk u d l r)).
Qed.

Lemma sim_loadGrid h g :
  sim h eq (loadGrid g) (loadGrid (length (gridsH h) + g)).
Proof.
  unfold loadGrid.
  eapply sim_bind; [apply sim_getRows|]. intros rs rs' Hrs.
  apply (sim_weaken h (Forall2 eq) eq); [apply Forall2_eq|].
  apply (sim_mapM h (Rrow h) eq); [assumption|].
  intros r ? ->. apply sim_getCells.
Qed.

Lemma sim_loadFace h st f :
  sim h eq (loadFace st f) (loadFace (length (cubesH h) + st) f).
Proof.
  unfold loadFace. sim_seq ltac:(first [apply sim_loadGrid | sim_grid]).
Qed.

Lemma sim_load h st :
  sim h eq (load st) (load (length (cubesH h) + st)).
Proof. unfold load. sim_seq ltac:(apply sim_loadFace). Qed.

Lemma sim_turnCopy h s move :
  sim h (Rcube h) (turnCopy s move) (turnCopy s move).
Proof.
  unfold turnCopy.
  eapply sim_bind; [apply sim_store|]. intros st ? ->.
  eapply sim_bind; [|intros _ _ _; apply sim_ret; reflexivity].
  repeat match goal with
         | |- sim _ _ (if ?b then _ else _) _ => destruct b
         end;
    match goal with
    | |- sim _ _ (rotateFrontFace _ _) _ => apply sim_rotateFrontFace
    | |- sim _ _ (rotateBackFace _ _) _ => apply sim_rotateBackFace
    | |- sim _ _ (rotateRightFace _ _) _ => apply sim_rotateRightFace
    | |- sim _ _ (rotateLeftFace _ _) _ => apply sim_rotateLeftFace
    | |- sim _ _ (rotateUpFace _ _) _ => apply sim_rotateUpFace
    | |- sim _ _ (rotateDownFace _ _) _ => apply sim_rotateDownFace
    | |- sim _ _ (ret _) _ => apply sim_ret; reflexivity
    end.
Qed.

(** ** Reading a graph does not depend on later allocations *)

Lemma reads_ret {A} (a : A) : reads (ret a).
Proof. intros h b h' [= <- <-]. split; reflexivity. Qed.

Lemma reads_bind {A B} (c : M A) (k : A -> M B) :
  reads c -> (forall a, reads (k a)) -> reads (bind c k).
Proof.
  intros Hc Hk h b h'. unfold bind.
  destruct (c h) as [[a h1]|e] eqn:E; [|discriminate].
  destruct (Hc _ _ _ E) as [-> Hc']. intros Ek.
  destruct (Hk a _ _ _ Ek) as [-> Hk']. split; [reflexivity|].
  intros t. rewrite Hc'. apply Hk'.
Qed.

Lemma reads_getFace st f : reads (getFace st f).
Proof.
  intros h a h'. unfold getFace.
  destruct (nth_error (cubesH h) st) as [c|] eqn:E; [|discriminate].
  intros [= <- <-]. split; [reflexivity|]. intros t. unfold happ. cbn [cubesH facesH gridsH rowsH].
  rewrite (nth_error_app_left _ _ _ _ E). reflexivity.
Qed.

Lemma reads_getColors fc : reads (getColors fc).
Proof.
  intros h a h'. unfold getColors.
  destruct (nth_error (facesH h) fc) as [g|] eqn:E; [|discriminate].
  intros [= <- <-]. split; [reflexivity|]. intros t. unfold happ. cbn [cubesH facesH gridsH rowsH].
  rewrite (nth_error_app_left _ _ _ _ E). reflexivity.
Qed.

Lemma reads_getRows g : reads (getRows g).
Proof.
  intros h a h'. unfold getRows.
  destruct (nth_error (gridsH h) g) as [rs|] eqn:E; [|discriminate].
  intros [= <- <-]. split; [reflexivity|]. intros t. unfold happ. cbn [cubesH facesH gridsH rowsH].
  rewrite (nth_error_app_left _ _ _ _ E). reflexivity.
Qed.

Lemma reads_getCells r : reads (getCells r).
Proof.
  intros h a h'. unfold getCells.
  destruct (nth_error (rowsH h) r) as [cells|] eqn:E; [|discriminate].
  intros [= <- <-]. split; [reflexivity|]. intros t. unfold happ. cbn [cubesH facesH gridsH rowsH].
  rewrite (nth_error_app_left _ _ _ _ E). reflexivity.
Qed.

Lemma reads_mapM {A B} (f : A -> M B) (l : list A) :
  (forall x, reads (f x)) -> reads (mapM f l).
Proof.
  intros Hf. induction l as [|x l IH]; simpl.
  - apply reads_ret.
  - apply reads_bind; [apply Hf|]. intros y.
    apply reads_bind; [apply IH|]. intros ys. apply reads_ret.
Qed.

Lemma reads_loadFace st f : reads (loadFace st f).
Proof.
  unfold loadFace, getColorsOf, loadGrid.
  repeat first [ apply reads_bind; [|intros ?] | apply reads_getFace
               | apply reads_getColors | apply reads_getRows
               | apply reads_mapM; intros ?; apply reads_getCells ].
Qed.

Lemma reads_load st : reads (load st).
Proof.
  unfold load.
  repeat first [ apply reads_bind; [apply reads_loadFace|intros ?] | apply reads_ret ].
Qed.

(** ** The call, taken apart *)

Lemma applyMoveToCubeState_unfold (st : loc) (move : string) (h : Heap) :
  applyMoveToCubeState st move h =
  match load st h with
  | Ok (s, h1) => turnCopy s move h1
  | Throw e => Throw e
  end.
Proof.
  unfold applyMoveToCubeState, turnCopy, jsonClone, bind.
  destruct (load st h) as [[s h1]|e]; reflexivity.
Qed.

Lemma turnCopy_normal (s : CubeVal) (move : string) :
  turnCopy s move = turnCopy s (normalMove move).
Proof.
  unfold turnCopy. destruct (parseMove_normal move) as [-> ->]. reflexivity.
Qed.

Lemma turnCopy_unrecognised (s : CubeVal) (move : string) :
  recognised move = false ->
  turnCopy s move = (newState <- store (json_val s) ;; ret tt ;; ret newState).
Proof.
  intros Hm. pose proof (unrecognised_normal move Hm) as Hf.
  unfold turnCopy. unfold faceOfLetter in Hf.
  destruct (String.eqb (pm_face (parseMove move)) "F"); [discriminate|].
  destruct (String.eqb (pm_face (parseMove move)) "B"); [discriminate|].
  destruct (String.eqb (pm_face (parseMove move)) "R"); [discriminate|].
  destruct (String.eqb (pm_face (parseMove move)) "L"); [discriminate|].
  destruct (String.eqb (pm_face (parseMove move)) "U"); [discriminate|].
  destruct (String.eqb (pm_face (parseMove move)) "D"); [discriminate|].
  reflexivity.
Qed.

(** In the empty store the copy-and-turn succeeds on a well-formed state,
    and the graph it returns reads as the value-level result. *)
Lemma turnCopy_wf (s : CubeVal) (move : string) :
  wfCube s ->
  exists a t' s',
    turnCopy s move emptyHeap = Ok (a, t') /\
    load a t' = Ok (s', t') /\
    applyMoveToCubeState_val s move = Ok s'.
Proof.
  intros H.
  destruct (recognised move) eqn:Hm.
  - rewrite turnCopy_normal, applyMoveToCubeState_val_normal.
    apply recognised_normal in Hm.
    cube_inv s H. simpl in Hm.
    repeat (destruct Hm as [Hm|Hm];
            [rewrite <- Hm; do 3 eexists;
             split; [vm_compute; reflexivity|split; vm_compute; reflexivity]|]).
    contradiction.
  - rewrite (turnCopy_unrecognised s move Hm).
    rewrite (engine_unrecognised s move H Hm).
    cube_inv s H.
    do 3 eexists. split; [vm_compute; reflexivity|split; vm_compute; reflexivity].
Qed.

(** The engine called on a reference [st] of any store [h]: the objects it
    allocates are those it allocates from the empty store, placed after
    [h], and the graph it returns reads as the value-level result. *)
Lemma engine_in_any_store (h : Heap) (st : loc) (s : CubeVal) (move : string) :
  load st h = Ok (s, h) -> wfCube s ->
  exists a t' s',
    applyMoveToCubeState st move h = Ok (length (cubesH h) + a, happ h t') /\
    turnCopy s move emptyHeap = Ok (a, t') /\
    load (length (cubesH h) + a) (happ h t') = Ok (s', happ h t') /\
    applyMoveToCubeState_val s move = Ok s'.
Proof.
  intros Hl Hwf.
  destruct (turnCopy_wf s move Hwf) as (a & t' & s' & Ht & Hl' & Hv).
  exists a, t', s'.
  rewrite applyMoveToCubeState_unfold, Hl.
  pose proof (sim_turnCopy h s move emptyHeap) as Hs.
  rewrite Ht, happ_empty_r in Hs. destruct Hs as (a' & -> & ->).
  pose proof (sim_load h a t') as Hs'.
  rewrite Hl' in Hs'. destruct Hs' as (x & Hx & <-).
  repeat split; assumption.
Qed.

(** ** Old objects stay, new graphs are new *)

Lemma preserved_happ (h t : Heap) : preserved h (happ h t).
Proof.
  unfold preserved, happ. simpl.
  repeat split; intros; apply nth_error_app_left; assumption.
Qed.

Lemma nth_error_fresh_ref (l1 l2 : list nat) (k f g : nat) :
  length l1 <= f ->
  nth_error (l1 ++ map (Nat.add k) l2) f = Some g -> k <= g.
Proof.
  intros Hf. replace f with (length l1 + (f - length l1)) by lia.
  rewrite nth_error_app_shift, nth_error_map.
  destruct (nth_error l2 (f - length l1)); simpl; [|discriminate].
  intros [= <-]. lia.
Qed.

Lemma nth_error_fresh_refs (l1 l2 : list (list nat)) (k g : nat) (rs : list nat) :
  length l1 <= g ->
  nth_error (l1 ++ map (map (Nat.add k)) l2) g = Some rs ->
  Forall (fun r => k <= r) rs.
Proof.
  intros Hg. replace g with (length l1 + (g - length l1)) by lia.
  rewrite nth_error_app_shift, nth_error_map.
  destruct (nth_error l2 (g - length l1)) as [rs0|]; simpl; [|discriminate].
  intros [= <-]. apply Forall_forall. intros r Hr.
  apply in_map_iff in Hr. destruct Hr as (r0 & <- & _). lia.
Qed.

Lemma fresh_happ (h t : Heap) (a : nat) :
  freshGraph h (happ h t) (length (cubesH h) + a).
Proof.
  assert (HF : Forall (fun f => length (facesH h) <= f)
                      (facesOf (happ h t) (length (cubesH h) + a))).
  { unfold facesOf, happ. simpl.
    rewrite nth_error_app_shift, nth_error_map.
    destruct (nth_error (cubesH t) a) as [c|]; simpl; [|constructor].
    repeat constructor; lia. }
  assert (HG : Forall (fun g => length (gridsH h) <= g)
                      (gridsOf (happ h t) (length (cubesH h) + a))).
  { unfold gridsOf. induction HF as [|f fs Hf _ IH]; cbn [flat_map]; [constructor|].
    apply Forall_app. split; [|exact IH].
    destruct (nth_error (facesH (happ h t)) f) as [g|] eqn:E; [|constructor].
    constructor; [|constructor].
    unfold happ in E. simpl in E. exact (nth_error_fresh_ref _ _ _ _ _ Hf E). }
  assert (HR : Forall (fun r => length (rowsH h) <= r)
                      (rowsOf (happ h t) (length (cubesH h) + a))).
  { unfold rowsOf. induction HG as [|g gs Hg _ IH]; cbn [flat_map]; [constructor|].
    apply Forall_app. split; [|exact IH].
    destruct (nth_error (gridsH (happ h t)) g) as [rs|] eqn:E; [|constructor].
    unfold happ in E. simpl in E. exact (nth_error_fresh_refs _ _ _ _ _ Hg E). }
  unfold freshGraph. repeat split; try assumption. lia.
Qed.

Lemma mapM_getCells_within (rs : list nat) (h h' : Heap) (g : Grid) :
  mapM getCells rs h = Ok (g, h') ->
  Forall (fun r => r < length (rowsH h)) rs.
Proof.
  revert h h' g. induction rs as [|r rs IH]; intros h h' g; simpl; [constructor|].
  unfold bind. destruct (getCells r h) as [[cells h1]|e] eqn:E; [|discriminate].
  destruct (reads_getCells r h cells h1 E) as [-> _].
  destruct (mapM getCells rs h) as [[g1 h2]|e] eqn:E2; [|discriminate].
  intros _. constructor; [|exact (IH _ _ _ E2)].
  unfold getCells in E.
  destruct (nth_error (rowsH h) r) eqn:En; [|discriminate].
  apply nth_error_Some. rewrite En. discriminate.
Qed.

Lemma loadFace_within (st : nat) (f : FaceName) (h h' : Heap) (g : Grid) :
  loadFace st f h = Ok (g, h') ->
  exists c gl rs,
    nth_error (cubesH h) st = Some c /\
    nth_error (facesH h) (face_of c f) = Some gl /\
    nth_error (gridsH h) gl = Some rs /\
    Forall (fun r => r < length (rowsH h)) rs.
Proof.
  unfold loadFace, getColorsOf, loadGrid, bind, getFace, getColors, getRows.
  destruct (nth_error (cubesH h) st) as [c|]; [|discriminate].
  destruct (nth_error (facesH h) (face_of c f)) as [gl|] eqn:Ef; [|discriminate].
  destruct (nth_error (gridsH h) gl) as [rs|] eqn:Eg; [|discriminate].
  intros E. exists c, gl, rs.
  split; [reflexivity|]. split; [exact Ef|]. split; [exact Eg|].
  exact (mapM_getCells_within _ _ _ _ E).
Qed.

Lemma nth_error_lt {A} (l : list A) (n : nat) (x : A) :
  nth_error l n = Some x -> n < length l.
Proof. intros E. apply nth_error_Some. rewrite E. discriminate. Qed.

(** A cube state that can be read from [h] is made of objects of [h]. *)
Lemma load_within (st : nat) (h h' : Heap) (s : CubeVal) :
  load st h = Ok (s, h') -> graphWithin h h st.
Proof.
  unfold load, bind. intros E.
  destruct (loadFace st Front h) as [[g1 h1]|] eqn:E1; [|discriminate].
  destruct (reads_loadFace st Front h g1 h1 E1) as [-> _].
  destruct (loadFace st Back h) as [[g2 h2]|] eqn:E2; [|discriminate].
  destruct (reads_loadFace st Back h g2 h2 E2) as [-> _].
  destruct (loadFace st Up h) as [[g3 h3]|] eqn:E3; [|discriminate].
  destruct (reads_loadFace st Up h g3 h3 E3) as [-> _].
  destruct (loadFace st Down h) as [[g4 h4]|] eqn:E4; [|discriminate].
  destruct (reads_loadFace st Down h g4 h4 E4) as [-> _].
  destruct (loadFace st Left h) as [[g5 h5]|] eqn:E5; [|discriminate].
  destruct (reads_loadFace st Left h g5 h5 E5) as [-> _].
  destruct (loadFace st Right h) as [[g6 h6]|] eqn:E6; [|discriminate].
  clear E.
  apply loadFace_within in E1, E2, E3, E4, E5, E6.
  destruct E1 as (c & gl1 & rs1 & Hc & Hf1 & Hg1 & Hr1).
  destruct E2 as (c2 & gl2 & rs2 & Hc2 & Hf2 & Hg2 & Hr2).
  destruct E3 as (c3 & gl3 & rs3 & Hc3 & Hf3 & Hg3 & Hr3).
  destruct E4 as (c4 & gl4 & rs4 & Hc4 & Hf4 & Hg4 & Hr4).
  destruct E5 as (c5 & gl5 & rs5 & Hc5 & Hf5 & Hg5 & Hr5).
  destruct E6 as (c6 & gl6 & rs6 & Hc6 & Hf6 & Hg6 & Hr6).
  rewrite Hc in Hc2, Hc3, Hc4, Hc5, Hc6.
  injection Hc2 as <-. injection Hc3 as <-. injection Hc4 as <-.
  injection Hc5 as <-. injection Hc6 as <-.
  unfold graphWithin, rowsOf, gridsOf, facesOf. rewrite Hc.
  cbn [map allFaces flat_map].
  rewrite Hf1, Hf2, Hf3, Hf4, Hf5, Hf6. cbn [app flat_map].
  rewrite Hg1, Hg2, Hg3, Hg4, Hg5, Hg6. rewrite app_nil_r.
  split; [exact (nth_error_lt _ _ _ Hc)|].
  split; [repeat constructor; eapply nth_error_lt; eassumption|].
  split; [repeat constructor; eapply nth_error_lt; eassumption|].
  repeat (apply Forall_app; split); assumption.
Qed.

(** C6: the engine, called on a reference [st] to a well-formed cube state
    in any store, returns a reference [st'] in a store [h'] such that
    - every object of the old store is still there unchanged, so [st] still
      reads as the same state, cell for cell;
    - the state at [st] is made of old objects and the state at [st'] only
      of objects allocated by the call, so the two share nothing;
    - writing a cell of the result, or replacing the grid of one of its
      faces, leaves the state at [st] as it was. *)
Theorem engine_leaves_input_untouched (h : Heap) (st : nat) (s : CubeVal) (move : string) :
  load st h = Ok (s, h) -> wfCube s ->
  exists st' h' s',
    applyMoveToCubeState st move h = Ok (st', h') /\
    applyMoveToCubeState_val s move = Ok s' /\
    load st' h' = Ok (s', h') /\
    preserved h h' /\
    load st h' = Ok (s, h') /\
    graphWithin h h' st /\
    freshGraph h h' st' /\
    (forall f i j v h'',
        cellSet st' f i j v h' = Ok (tt, h'') -> load st h'' = Ok (s, h'')) /\
    (forall f g h'',
        length (gridsH h) <= g ->
        setColorsOf st' f g h' = Ok (tt, h'') -> load st h'' = Ok (s, h'')).
Proof.
  intros Hl Hwf.
  destruct (engine_in_any_store h st s move Hl Hwf) as (a & t' & s' & Ha & _ & Hl' & Hv).
  destruct (reads_load st h s h Hl) as [_ Hstable].
  exists (length (cubesH h) + a), (happ h t'), s'.
  split; [exact Ha|]. split; [exact Hv|]. split; [exact Hl'|].
  split; [apply preserved_happ|]. split; [apply Hstable|].
  split.
  { pose proof (load_within st h h s Hl) as (Hc & HF & HG & HR).
    unfold graphWithin.
    assert (Ef : facesOf (happ h t') st = facesOf h st).
    { unfold facesOf. destruct (nth_error (cubesH h) st) as [c|] eqn:E.
      - unfold happ. simpl. rewrite (nth_error_app_left _ _ _ _ E). reflexivity.
      - apply nth_error_None in E. lia. }
    assert (Eg : gridsOf (happ h t') st = gridsOf h st).
    { unfold gridsOf. rewrite Ef. clear - HF.
      induction HF as [|f fs Hf _ IH]; cbn [flat_map]; [reflexivity|]. rewrite IH. f_equal.
      destruct (nth_error (facesH h) f) as [g|] eqn:E.
      - unfold happ. simpl. rewrite (nth_error_app_left _ _ _ _ E). reflexivity.
      - apply nth_error_None in E. lia. }
    assert (Er : rowsOf (happ h t') st = rowsOf h st).
    { unfold rowsOf. rewrite Eg. clear - HG.
      induction HG as [|g gs Hg _ IH]; cbn [flat_map]; [reflexivity|]. rewrite IH. f_equal.
      destruct (nth_error (gridsH h) g) as [rs|] eqn:E.
      - unfold happ. simpl. rewrite (nth_error_app_left _ _ _ _ E). reflexivity.
      - apply nth_error_None in E. lia. }
    rewrite Ef, Eg, Er. repeat split; assumption. }
  split; [apply fresh_happ|].
  split.
  - intros f i j v h'' Hset.
    pose proof (sim_cellSet h a f i j v t') as Hs.
    destruct (cellSet a f i j v t') as [[[] t'']|e].
    + destruct Hs as (x & Hx & <-). rewrite Hx in Hset. injection Hset as <-.
      apply Hstable.
    + rewrite Hs in Hset. discriminate.
  - intros f g h'' Hg Hset.
    replace g with (length (gridsH h) + (g - length (gridsH h))) in Hset by lia.
    pose proof (sim_setColorsOf h a f (g - length (gridsH h)) t') as Hs.
    destruct (setColorsOf a f (g - length (gridsH h)) t') as [[[] t'']|e].
    + destruct Hs as (x & Hx & <-). rewrite Hx in Hset. injection Hset as <-.
      apply Hstable.
    + rewrite Hs in Hset. discriminate.
Qed.

Lemma engine_leaves_input_untouched_witness :
  exists st' h' s',
    applyMoveToCubeState 0 "F" sharedRowsStore = Ok (st', h') /\
    applyMoveToCubeState_val solvedCube "F" = Ok s' /\
    load st' h' = Ok (s', h') /\
    preserved sharedRowsStore h' /\
    load 0 h' = Ok (solvedCube, h') /\
    graphWithin sharedRowsStore h' 0 /\
    freshGraph sharedRowsStore h' st' /\
    (forall f i j v h'',
        cellSet st' f i j v h' = Ok (tt, h'') -> load 0 h'' = Ok (solvedCube, h'')) /\
    (forall f g h'',
        length (gridsH sharedRowsStore) <= g ->
        setColorsOf st' f g h' = Ok (tt, h'') -> load 0 h'' = Ok (solvedCube, h'')).
Proof.
  apply (engine_leaves_input_untouched sharedRowsStore 0 solvedCube "F"); reflexivity.
Defined.

(* ================================================================== *)
(** * Part XV: colour-space conversion                                 *)
(* ================================================================== *)

Section NumberFacts.
Local Open Scope Q_scope.

Lemma Qltb_true (x y : Q) : Qltb x y = true <-> x < y.
Proof.
  unfold Qltb. rewrite negb_true_iff. split.
  - intros H. apply Qnot_le_lt. intros Hle. apply Qle_bool_iff in Hle. congruence.
  - intros H. destruct (Qle_bool y x) eqn:E; [|reflexivity].
    apply Qle_bool_iff in E. exfalso. apply (Qlt_not_le _ _ H E).
Qed.

Lemma Qltb_false (x y : Q) : Qltb x y = false <-> y <= x.
Proof.
  unfold Qltb. rewrite negb_false_iff. apply Qle_bool_iff.
Qed.

Lemma Qle_bool_false (x y : Q) : Qle_bool x y = false -> y < x.
Proof.
  intros H. apply Qnot_le_lt. intros Hle. apply Qle_bool_iff in Hle. congruence.
Qed.

Lemma js_max_spec (a b : Q) :
  a <= js_max a b /\ b <= js_max a b /\ (js_max a b = a \/ js_max a b = b).
Proof.
  unfold js_max. destruct (Qle_bool a b) eqn:E.
  - apply Qle_bool_iff in E. repeat split; [assumption|apply Qle_refl|tauto].
  - apply Qle_bool_false in E. repeat split; [apply Qle_refl|apply Qlt_le_weak; assumption|tauto].
Qed.

Lemma js_min_spec (a b : Q) :
  js_min a b <= a /\ js_min a b <= b /\ (js_min a b = a \/ js_min a b = b).
Proof.
  unfold js_min. destruct (Qle_bool a b) eqn:E.
  - apply Qle_bool_iff in E. repeat split; [apply Qle_refl|assumption|tauto].
  - apply Qle_bool_false in E. repeat split; [apply Qlt_le_weak; assumption|apply Qle_refl|tauto].
Qed.

Lemma js_max3_spec (a b c : Q) :
  a <= js_max3 a b c /\ b <= js_max3 a b c /\ c <= js_max3 a b c /\
  (js_max3 a b c = a \/ js_max3 a b c = b \/ js_max3 a b c = c).
Proof.
  unfold js_max3.
  destruct (js_max_spec a b) as (H1 & H2 & H3).
  destruct (js_max_spec (js_max a b) c) as (H4 & H5 & H6).
  repeat split; try lra.
  destruct H6 as [-> | ->]; [destruct H3 as [-> | ->]|]; tauto.
Qed.

Lemma js_min3_spec (a b c : Q) :
  js_min3 a b c <= a /\ js_min3 a b c <= b /\ js_min3 a b c <= c /\
  (js_min3 a b c = a \/ js_min3 a b c = b \/ js_min3 a b c = c).
Proof.
  unfold js_min3.
  destruct (js_min_spec a b) as (H1 & H2 & H3).
  destruct (js_min_spec (js_min a b) c) as (H4 & H5 & H6).
  repeat split; try lra.
  destruct H6 as [-> | ->]; [destruct H3 as [-> | ->]|]; tauto.
Qed.

(** A checked division by a positive number succeeds, and a quotient of
    numbers within [-d, d] lies within [-1, 1]. *)
Lemma js_div_pos (x d : Q) :
  0 < d -> js_div x d = Some (x / d).
Proof.
  intros Hd. unfold js_div. destruct (Qeq_bool d 0) eqn:E; [|reflexivity].
  apply Qeq_bool_iff in E. lra.
Qed.






(** On black, where the largest channel is 0, the guard is taken. *)
Lemma rgbToHsv_black :
  exists h s v, rgbToHsv 0 0 0 = Some (h, s, v) /\ h == 0 /\ s == 0 /\ v == 0.
Proof. do 3 eexists. split; [reflexivity|]. repeat split; reflexivity. Qed.

End NumberFacts.

(** In binary64 arithmetic the conversion stays in range on every triple of
    8-bit channel values; in particular no [NaN] or infinity arises. *)
Lemma channel_in (n : nat) : n < 256 -> In (channel n) channels.
Proof. intros H. apply in_map. apply in_seq. lia. Qed.

Lemma rgbToHsv_binary64_bytes (r g b : nat) :
  r < 256 -> g < 256 -> b < 256 ->
  hsvInRange (rgbToHsv_binary64 (channel r) (channel g) (channel b)) = true.
Proof.
  intros Hr Hg Hb.
  assert (H : forallb (fun r => forallb (fun g => forallb (fun b =>
                hsvInRange (rgbToHsv_binary64 r g b)) channels) channels) channels = true)
    by (vm_compute; reflexivity).
  rewrite forallb_forall in H. specialize (H _ (channel_in r Hr)).
  rewrite forallb_forall in H. specialize (H _ (channel_in g Hg)).
  rewrite forallb_forall in H. exact (H _ (channel_in b Hb)).
Qed.

(* ================================================================== *)
(** * Part XVI: the alignment score                                    *)
(* ================================================================== *)

Lemma Color_eqb_eq (a b : Color) : Color_eqb a b = true <-> a = b.
Proof. destruct a, b; simpl; split; intros H; try reflexivity; discriminate H. Qed.

Lemma Color_eqb_refl (a : Color) : Color_eqb a a = true.
Proof. destruct a; reflexivity. Qed.

Lemma Color_eqb_neq (a b : Color) : Color_eqb a b = false <-> a <> b.
Proof.
  split.
  - intros H E. apply Color_eqb_eq in E. congruence.
  - intros H. destruct (Color_eqb a b) eqn:E; [|reflexivity].
    apply Color_eqb_eq in E. contradiction.
Qed.

(** ** The keys of [colorCounts] are the distinct counted labels *)

Lemma incrCount_keys_in (c k : Color) (cc : ColorCounts) :
  In k (map fst (incrCount c cc)) <-> k = c \/ In k (map fst cc).
Proof.
  induction cc as [|[c0 n] cc IH]; simpl.
  - intuition.
  - destruct (Color_eqb c0 c) eqn:E; simpl.
    + apply Color_eqb_eq in E. subst. intuition.
    + rewrite IH. intuition.
Qed.

Lemma incrCount_keys_nodup (c : Color) (cc : ColorCounts) :
  NoDup (map fst cc) -> NoDup (map fst (incrCount c cc)).
Proof.
  induction cc as [|[c0 n] cc IH]; simpl; intros H.
  - constructor; [intros []|constructor].
  - inversion H as [|? ? Hn Hd]; subst.
    destruct (Color_eqb c0 c) eqn:E; simpl.
    + constructor; assumption.
    + constructor; [|apply IH; assumption].
      rewrite incrCount_keys_in. intros [->|Hin]; [|contradiction].
      rewrite Color_eqb_refl in E. discriminate.
Qed.

Lemma countColors_keys (keep : Color -> bool) (cells : list Color) (acc : ColorCounts) :
  NoDup (map fst acc) ->
  let cc := fold_left (fun cc color => if keep color then incrCount color cc else cc) cells acc in
  NoDup (map fst cc) /\
  forall k, In k (map fst cc) <-> In k (map fst acc) \/ In k (filter keep cells).
Proof.
  revert acc. induction cells as [|c cells IH]; intros acc Hacc; simpl.
  - split; [assumption|]. intuition.
  - destruct (keep c) eqn:Ek.
    + destruct (IH (incrCount c acc) (incrCount_keys_nodup c acc Hacc)) as [Hn Hi].
      split; [exact Hn|]. intros k. rewrite Hi, incrCount_keys_in. simpl. intuition.
    + destruct (IH acc Hacc) as [Hn Hi]. split; [exact Hn|]. exact Hi.
Qed.


Section ScoreFacts.
Local Open Scope Q_scope.


Lemma js_min_le_l (a b : Q) : js_min a b <= a.
Proof. apply js_min_spec. Qed.

Lemma js_min_le_r (a b : Q) : js_min a b <= b.
Proof. apply js_min_spec. Qed.

Lemma js_min_glb (a b c : Q) : c <= a -> c <= b -> c <= js_min a b.
Proof. intros Ha Hb. unfold js_min. destruct (Qle_bool a b); assumption. Qed.



Lemma js_round_ge (n : Z) (x : Q) : inject_Z n - (1 # 2) <= x -> inject_Z n <= js_round x.
Proof.
  intros H. unfold js_round. rewrite <- Zle_Qle.
  rewrite <- (Qfloor_Z n). apply Qfloor_resp_le. lra.
Qed.

Lemma Qnat_nonneg (n : nat) : 0 <= Qnat n.
Proof. unfold Qnat. change 0 with (inject_Z 0). rewrite <- Zle_Qle. lia. Qed.

Lemma Qnat_ge (n m : nat) : (m <= n)%nat -> Qnat m <= Qnat n.
Proof. intros H. unfold Qnat. rewrite <- Zle_Qle. lia. Qed.




End ScoreFacts.

(* ================================================================== *)
(** * Part XVII: the classifier on white                               *)
(* ================================================================== *)

Section ClassifierFacts.
Local Open Scope Q_scope.

Variable pow : Q -> Q -> Q.
Variable sqrt : Q -> Q.
Variable detectColorAdvanced : Q -> Q -> Q -> option Color.
Variable detectColorNeural : Q -> Q -> Q -> option Color.
Variable detectColorUltraAccurate : Q -> Q -> Q -> option Color.

Hypothesis sqrt_mono : forall x y, x <= y -> sqrt x <= sqrt y.
Hypothesis pow_square : forall x, pow x 2 == x * x.










End ClassifierFacts.




(* ================================================================== *)
(** * Part XVIII: the grid consistency corrector                       *)
(* ================================================================== *)

(** ** Counts read from [colorCounts] *)

Lemma lookupCount_incrCount (c c' : Color) (cc : ColorCounts) :
  lookupCount c (incrCount c' cc) = lookupCount c cc + (if Color_eqb c' c then 1 else 0).
Proof.
  induction cc as [|[c0 n] cc IH]; simpl.
  - destruct (Color_eqb c' c); reflexivity.
  - destruct (Color_eqb c0 c') eqn:E0; simpl.
    + apply Color_eqb_eq in E0. subst c0.
      destruct (Color_eqb c' c); lia.
    + destruct (Color_eqb c0 c) eqn:E1; [|exact IH].
      apply Color_eqb_eq in E1. subst c0.
      destruct (Color_eqb c' c) eqn:E2; [|lia].
      apply Color_eqb_eq in E2. subst c'. rewrite Color_eqb_refl in E0. discriminate.
Qed.

Lemma count_occ_cons_eqb (c x : Color) (l : list Color) :
  count_occ Color_eq_dec (x :: l) c
  = (if Color_eqb x c then 1 else 0) + count_occ Color_eq_dec l c.
Proof.
  simpl. destruct (Color_eq_dec x c) as [->|Hn].
  - rewrite Color_eqb_refl. reflexivity.
  - apply Color_eqb_neq in Hn. rewrite Hn. reflexivity.
Qed.

Lemma lookupCount_fold (keep : Color -> bool) (c : Color) (cells : list Color)
      (acc : ColorCounts) :
  lookupCount c (fold_left (fun cc color => if keep color then incrCount color cc else cc)
                           cells acc)
  = lookupCount c acc + (if keep c then count_occ Color_eq_dec cells c else 0).
Proof.
  revert acc. induction cells as [|x cells IH]; intros acc.
  - simpl. destruct (keep c); lia.
  - cbn [fold_left]. rewrite IH, count_occ_cons_eqb.
    destruct (keep x) eqn:Ex.
    + rewrite lookupCount_incrCount.
      destruct (Color_eqb x c) eqn:E.
      * apply Color_eqb_eq in E. subst x. rewrite Ex. lia.
      * destruct (keep c); lia.
    + destruct (Color_eqb x c) eqn:E.
      * apply Color_eqb_eq in E. subst x. rewrite Ex. lia.
      * destruct (keep c); lia.
Qed.

Lemma lookupCount_countColors (keep : Color -> bool) (c : Color) (colors : ColorGrid) :
  lookupCount c (countColors keep (flat colors))
  = if keep c then countOf c colors else 0.
Proof. unfold countColors. rewrite lookupCount_fold. reflexivity. Qed.

Lemma lookupCount_in (c : Color) (n : nat) (cc : ColorCounts) :
  NoDup (map fst cc) -> In (c, n) cc -> lookupCount c cc = n.
Proof.
  induction cc as [|[c0 m] cc IH]; simpl; intros Hn Hin; [contradiction|].
  inversion Hn as [|? ? Hnot Hn']; subst.
  destruct Hin as [[= -> ->]|Hin].
  - rewrite Color_eqb_refl. reflexivity.
  - destruct (Color_eqb c0 c) eqn:E; [|apply IH; assumption].
    apply Color_eqb_eq in E. subst c0. exfalso. apply Hnot.
    apply (in_map fst) in Hin. exact Hin.
Qed.

(** ** The first and the third validator when their triggers are off *)

Lemma fold_left_unchanged {A B} (f : A -> B -> A) (l : list B) (a : A) :
  (forall x, In x l -> f a x = a) -> fold_left f l a = a.
Proof.
  induction l as [|x l IH]; simpl; intros H; [reflexivity|].
  rewrite (H x (or_introl eq_refl)). apply IH. intros y Hy. apply H. right. exact Hy.
Qed.

Lemma validateAndCorrectColors_quiet (colors : ColorGrid) :
  countOf Yellow colors <= 6 -> countOf Orange colors <= 6 ->
  validateAndCorrectColors colors = colors.
Proof.
  intros HY HO. unfold validateAndCorrectColors.
  destruct (length colors =? 0); [reflexivity|].
  apply fold_left_unchanged. intros [color count] Hin.
  destruct (countColors_keys isValidColor (flat colors) [] (NoDup_nil _)) as [Hn _].
  cbv zeta in Hn.
  pose proof (lookupCount_in color count (countColors isValidColor (flat colors)) Hn Hin) as Hc.
  rewrite lookupCount_countColors in Hc.
  destruct (6 <? count) eqn:E6; [|reflexivity].
  apply Nat.ltb_lt in E6.
  destruct color; simpl in Hc; try reflexivity; lia.
Qed.


(** ** Cell-wise rewriting of a grid *)




Lemma length_mapi_from {A B} (f : nat -> A -> B) (k : nat) (l : list A) :
  length (mapi_from f k l) = length l.
Proof.
  revert k. induction l as [|x l IH]; intros k; simpl; [reflexivity|].
  rewrite IH. reflexivity.
Qed.




Lemma is3x3_inv {A} (g : list (list A)) :
  is3x3 g ->
  exists a b c d e f g' h i, g = [[a; b; c]; [d; e; f]; [g'; h; i]].
Proof.
  intros [Hl Hr].
  destruct g as [|r1 [|r2 [|r3 [|r4 g]]]]; try discriminate Hl.
  inversion Hr as [|? ? H1 Hr1]; subst.
  inversion Hr1 as [|? ? H2 Hr2]; subst.
  inversion Hr2 as [|? ? H3 _]; subst.
  destruct r1 as [|a [|b [|c [|x r1]]]]; try discriminate H1.
  destruct r2 as [|d [|e [|f [|y r2]]]]; try discriminate H2.
  destruct r3 as [|g' [|h [|i [|z r3]]]]; try discriminate H3.
  exists a, b, c, d, e, f, g', h, i. reflexivity.
Qed.









(** ** The second validator as one cell-wise rewriting *)




















(* ================================================================== *)
(** * Part XIX: more on the move engine                                *)
(* ================================================================== *)

Lemma iter_apply_normal (n : nat) (move : string) (s : CubeVal) :
  iter_apply n move s = iter_apply n (normalMove move) s.
Proof.
  revert s. induction n as [|n IH]; intros s; [reflexivity|].
  cbn [iter_apply]. rewrite applyMoveToCubeState_val_normal.
  destruct (applyMoveToCubeState_val s (normalMove move)); [apply IH|reflexivity].
Qed.

(** X1: a move string whose first character is a face letter, whatever
    follows it, brings every well-formed state back after four
    applications, unless the engine reads it as the clockwise back turn
    (first character [B], rest other than [']).  So ["R2"] applied four
    times is the identity as well. *)
Theorem turn_order_four_any_suffix (s : CubeVal) (move : string) :
  wfCube s -> recognised move = true -> normalMove move <> "B"%string ->
  iter_apply 4 move s = Ok s.
Proof.
  intros H Hm Hb. rewrite iter_apply_normal.
  apply quarter_turn_order_four; [assumption|apply recognised_normal; assumption|assumption].
Qed.

Lemma turn_order_four_any_suffix_witness :
  iter_apply 4 "R2" cubeAfterR = Ok cubeAfterR.
Proof.
  apply (turn_order_four_any_suffix cubeAfterR "R2"); [reflexivity|reflexivity|discriminate].
Defined.

(** X2: for the front, up, down, left and right faces the clockwise and
    the counter-clockwise quarter turn undo each other, in either order,
    on every well-formed state. *)
Theorem turn_then_inverse (s : CubeVal) (c : ascii) :
  wfCube s -> In c soundLetters ->
  applyMoves [String c EmptyString; String c "'"] s = Ok s /\
  applyMoves [String c "'"; String c EmptyString] s = Ok s.
Proof.
  intros H Hc. cube_inv s H. simpl in Hc.
  repeat (destruct Hc as [Hc|Hc]; [subst c; split; vm_compute; reflexivity|]).
  contradiction.
Qed.

Lemma turn_then_inverse_witness :
  applyMoves ["L"; "L'"]%string cubeAfterR = Ok cubeAfterR /\
  applyMoves ["L'"; "L"]%string cubeAfterR = Ok cubeAfterR.
Proof.
  apply (turn_then_inverse cubeAfterR "L"); [reflexivity|simpl; tauto].
Defined.

(** X3: in any store and for any reference, a move whose suffix is
    anything but the single character ['] runs exactly as the bare face
    letter does: ["U2"], ["U'2"], ["Uw"] and ["U''"] are all the
    clockwise quarter turn ["U"]. *)
Theorem suffix_other_than_prime_is_clockwise (st : nat) (c : ascii) (rest : string) :
  rest <> "'"%string ->
  applyMoveToCubeState st (String c rest) = applyMoveToCubeState st (String c EmptyString).
Proof.
  intros H. rewrite applyMoveToCubeState_normal. unfold normalMove.
  destruct (String.eqb rest "'") eqn:E; [|reflexivity].
  apply String.eqb_eq in E. contradiction.
Qed.

Lemma suffix_other_than_prime_is_clockwise_witness :
  applyMoveToCubeState 0 "U'2" = applyMoveToCubeState 0 "U".
Proof.
  apply (suffix_other_than_prime_is_clockwise 0 "U" "'2"). discriminate.
Defined.

(** What one call does to the stickers of a well-formed state, for the
    twelve quarter turns. *)
Lemma quarter_turn_invariants (s : CubeVal) (move : string) :
  wfCube s -> In move quarterTurns ->
  exists s',
    applyMoveToCubeState_val s move = Ok s' /\
    (forall w, weigh w s' = weigh w s) /\
    (forall f, centreCell (grid_of s' f) = centreCell (grid_of s f)).
Proof.
  intros H Hm. cube_inv s H. simpl in Hm.
  repeat (destruct Hm as [Hm|Hm];
    [subst move; eexists; split; [vm_compute; reflexivity|];
     split; [intros w; unfold weigh, stickers; cbn; unfold lab; lia | intros []; reflexivity]|]).
  contradiction.
Qed.

Lemma move_invariants (s : CubeVal) (move : string) :
  wfCube s ->
  exists s',
    applyMoveToCubeState_val s move = Ok s' /\ wfCube s' /\
    (forall w, weigh w s' = weigh w s) /\
    (forall f, centreCell (grid_of s' f) = centreCell (grid_of s f)).
Proof.
  intros H. destruct (engine_total s move H) as (s1 & E1 & Hwf & _).
  destruct (recognised move) eqn:Hm.
  - destruct (quarter_turn_invariants s (normalMove move) H (recognised_normal move Hm))
      as (s' & E & Hw & Hc).
    rewrite <- applyMoveToCubeState_val_normal in E.
    exists s'. rewrite E in E1. injection E1 as <-. auto.
  - exists s. rewrite (engine_unrecognised s move H Hm) in *. injection E1 as <-. auto.
Qed.

Lemma count_occ_weigh (x : jsval) (l : list jsval) :
  count_occ jsval_eq_dec l x = list_sum (map (fun v => if jsval_eq_dec v x then 1 else 0) l).
Proof.
  induction l as [|a l IH]; [reflexivity|].
  simpl. rewrite IH. destruct (jsval_eq_dec a x); reflexivity.
Qed.

Lemma weigh_permutation (s s' : CubeVal) :
  (forall w, weigh w s' = weigh w s) -> Permutation (stickers s) (stickers s').
Proof.
  intros Hw. apply (Permutation_count_occ jsval_eq_dec). intros x.
  rewrite !count_occ_weigh. symmetry.
  apply (Hw (fun v => if jsval_eq_dec v x then 1 else 0)).
Qed.

(** X4: every call of the engine on a well-formed state, whatever the
    move string, the faulty clockwise back turn included, returns a
    rearrangement of the 54 stickers it was given: no label is lost,
    duplicated or invented. *)
Theorem move_permutes_stickers (s : CubeVal) (move : string) :
  wfCube s ->
  exists s',
    applyMoveToCubeState_val s move = Ok s' /\
    Permutation (stickers s) (stickers s').
Proof.
  intros H. destruct (move_invariants s move H) as (s' & E & _ & Hw & _).
  exists s'. split; [exact E|apply weigh_permutation; exact Hw].
Qed.

Lemma move_permutes_stickers_witness :
  exists s',
    applyMoveToCubeState_val cubeAfterR "B" = Ok s' /\
    Permutation (stickers cubeAfterR) (stickers s').
Proof.
  apply (move_permutes_stickers cubeAfterR "B"). reflexivity.
Defined.

(** X5: no move changes the centre cell of any face. *)
Theorem move_keeps_centres (s : CubeVal) (move : string) (f : FaceName) :
  wfCube s ->
  exists s',
    applyMoveToCubeState_val s move = Ok s' /\
    centreCell (grid_of s' f) = centreCell (grid_of s f) /\
    centreCell (grid_of s' f) <> None.
Proof.
  intros H. destruct (move_invariants s move H) as (s' & E & Hwf & _ & Hc).
  exists s'. split; [exact E|]. split; [apply Hc|].
  rewrite Hc. clear E Hwf Hc. cube_inv s H. destruct f; discriminate.
Qed.

Lemma move_keeps_centres_witness :
  exists s',
    applyMoveToCubeState_val cubeAfterR "F'" = Ok s' /\
    centreCell (grid_of s' Front) = centreCell (grid_of cubeAfterR Front) /\
    centreCell (grid_of s' Front) <> None.
Proof.
  apply (move_keeps_centres cubeAfterR "F'" Front). reflexivity.
Defined.

Lemma parseMove_clockwise (c : ascii) (rest : string) :
  pm_clockwise (parseMove (String c rest)) = negb (String.eqb rest "'").
Proof.
  unfold parseMove. cbn [substring1].
  destruct (String.eqb rest "'"); [reflexivity|].
  destruct (String.eqb rest "2"); reflexivity.
Qed.

(** X6: after a move the grid of the turning face is what
    [rotate2DArray] returns for the grid it had before, in the direction
    that [parseMove] read off the move string. *)
Theorem turned_face_is_rotated (s : CubeVal) (move : string) (f : FaceName) :
  wfCube s -> faceOfLetter (charAt0 move) = Some f ->
  exists s',
    applyMoveToCubeState_val s move = Ok s' /\
    rotate2DArray_val (grid_of s f) (pm_clockwise (parseMove move)) = Ok (grid_of s' f).
Proof.
  intros H Hf.
  destruct (faceOfLetter_inv move f Hf) as (_ & c & rest & -> & Hc).
  rewrite parseMove_clockwise.
  rewrite applyMoveToCubeState_val_normal. unfold normalMove.
  cube_inv s H.
  destruct (String.eqb rest "'");
    repeat (destruct Hc as [[-> ->]|Hc];
            [eexists; split; [vm_compute; reflexivity|vm_compute; reflexivity]|]);
    destruct Hc as [-> ->]; eexists; (split; [vm_compute; reflexivity|vm_compute; reflexivity]).
Qed.

Lemma turned_face_is_rotated_witness :
  exists s',
    applyMoveToCubeState_val cubeAfterR "B'" = Ok s' /\
    rotate2DArray_val (grid_of cubeAfterR Back) (pm_clockwise (parseMove "B'"))
    = Ok (grid_of s' Back).
Proof.
  apply (turned_face_is_rotated cubeAfterR "B'" Back); reflexivity.
Defined.

Lemma applyMoves_pair_normal (a b : string) (t : CubeVal) :
  applyMoves [a; b] t = applyMoves [normalMove a; normalMove b] t.
Proof.
  cbn [applyMoves]. rewrite (applyMoveToCubeState_val_normal t a).
  destruct (applyMoveToCubeState_val t (normalMove a)) as [t'|]; [|reflexivity].
  rewrite (applyMoveToCubeState_val_normal t' b). reflexivity.
Qed.

(** X7: turns of two opposite faces commute: applied to a well-formed
    state in either order, whatever their directions, they give the same
    state. *)
Theorem opposite_turns_commute (s : CubeVal) (m1 m2 : string) (f : FaceName) :
  wfCube s ->
  faceOfLetter (charAt0 m1) = Some f -> faceOfLetter (charAt0 m2) = Some (opposite f) ->
  applyMoves [m1; m2] s = applyMoves [m2; m1] s /\ isOk (applyMoves [m1; m2] s) = true.
Proof.
  intros H H1 H2.
  destruct (faceOfLetter_inv m1 f H1) as (_ & c1 & r1 & -> & Hc1).
  destruct (faceOfLetter_inv m2 _ H2) as (_ & c2 & r2 & -> & Hc2).
  rewrite !(applyMoves_pair_normal (String c1 r1)), !(applyMoves_pair_normal (String c2 r2)).
  unfold normalMove.
  cube_inv s H.
  destruct (String.eqb r1 "'"), (String.eqb r2 "'");
    repeat (destruct Hc1 as [[-> ->]|Hc1];
      [repeat (destruct Hc2 as [[-> Hc2]|Hc2];
               [try discriminate Hc2; split; vm_compute; reflexivity|]);
       destruct Hc2 as [-> Hc2]; try discriminate Hc2; split; vm_compute; reflexivity|]);
    destruct Hc1 as [-> ->];
    repeat (destruct Hc2 as [[-> Hc2]|Hc2];
            [try discriminate Hc2; split; vm_compute; reflexivity|]);
    destruct Hc2 as [-> Hc2]; try discriminate Hc2; split; vm_compute; reflexivity.
Qed.

Lemma opposite_turns_commute_witness :
  applyMoves ["U'"; "D2"]%string cubeAfterR = applyMoves ["D2"; "U'"]%string cubeAfterR /\
  isOk (applyMoves ["U'"; "D2"]%string cubeAfterR) = true.
Proof.
  apply (opposite_turns_commute cubeAfterR "U'" "D2" Up); reflexivity.
Defined.

(** X8: a caller that feeds each returned state to the next call can run
    any list of move strings from a well-formed state: no call throws,
    the final state is well formed, holds the stickers of the first one
    in some arrangement, and has the same six centre cells. *)
Theorem move_sequence_invariants (s : CubeVal) (moves : list string) :
  wfCube s ->
  exists s',
    applyMoves moves s = Ok s' /\ wfCube s' /\
    Permutation (stickers s) (stickers s') /\
    (forall f, centreCell (grid_of s' f) = centreCell (grid_of s f)).
Proof.
  revert s. induction moves as [|move rest IH]; intros s H.
  - exists s. repeat split; auto.
  - destruct (move_invariants s move H) as (s1 & E & Hwf & Hw & Hc).
    destruct (IH s1 Hwf) as (s' & E' & Hwf' & HP & Hc').
    exists s'. cbn [applyMoves]. rewrite E. split; [exact E'|]. split; [exact Hwf'|].
    split.
    + apply Permutation_trans with (stickers s1); [|exact HP].
      apply weigh_permutation; exact Hw.
    + intros f. rewrite Hc'. apply Hc.
Qed.

Lemma move_sequence_invariants_witness :
  exists s',
    applyMoves ["R"; "U"; "R'"; "U'"; "B"; "x"; "F2"]%string solvedCube = Ok s' /\ wfCube s' /\
    Permutation (stickers solvedCube) (stickers s') /\
    (forall f, centreCell (grid_of s' f) = centreCell (grid_of solvedCube f)).
Proof.
  apply (move_sequence_invariants solvedCube ["R"; "U"; "R'"; "U'"; "B"; "x"; "F2"]%string).
  reflexivity.
Defined.

(* ================================================================== *)
(** * Part XX: [rotate2DArray] for arrays of any size                  *)
(* ================================================================== *)

Lemma nth_upd {A} (l : list A) (a a' : nat) (x d : A) :
  a < length l -> nth a' (upd l a x) d = if a' =? a then x else nth a' l d.
Proof.
  revert a a'. induction l as [|y l IH]; intros a a' Ha; [simpl in Ha; lia|].
  destruct a as [|a], a' as [|a']; simpl; try reflexivity.
  apply IH. simpl in Ha. lia.
Qed.

Lemma nth_js_set (cells : list jsval) (b b' : nat) (v : jsval) :
  b < length cells ->
  nth b' (js_set cells b v) JUndefined = if b' =? b then v else nth b' cells JUndefined.
Proof.
  revert b b'. induction cells as [|c cells IH]; intros b b' Hb; [simpl in Hb; lia|].
  destruct b as [|b], b' as [|b']; simpl; try reflexivity.
  apply IH. simpl in Hb. lia.
Qed.

Lemma length_js_set (cells : list jsval) (b : nat) (v : jsval) :
  b < length cells -> length (js_set cells b v) = length cells.
Proof.
  revert b. induction cells as [|c cells IH]; intros b Hb; [simpl in Hb; lia|].
  destruct b as [|b]; simpl; [reflexivity|]. rewrite IH; [reflexivity|simpl in Hb; lia].
Qed.

Lemma Forall_upd {A} (P : A -> Prop) (l : list A) (a : nat) (x : A) :
  Forall P l -> P x -> Forall P (upd l a x).
Proof.
  intros H Hx. revert a. induction H as [|y l Hy Hl IH]; intros a; [constructor|].
  destruct a as [|a]; simpl; constructor; auto.
Qed.

Lemma squareOf_row (n : nat) (R : Grid) (a : nat) :
  squareOf n R -> a < n -> length (nth a R []) = n.
Proof.
  intros [Hl Hr] Ha. rewrite Forall_forall in Hr. apply Hr. apply nth_In. lia.
Qed.

Lemma writeCell_square (n : nat) (R : Grid) (a b : nat) (v : jsval) :
  squareOf n R -> a < n -> b < n -> squareOf n (writeCell R (a, b, v)).
Proof.
  intros HR Ha Hb. pose proof (squareOf_row n R a HR Ha) as Hrow.
  destruct HR as [Hl Hr]. split.
  - cbn [writeCell]. rewrite length_upd. exact Hl.
  - cbn [writeCell]. apply Forall_upd; [exact Hr|].
    rewrite length_js_set; lia.
Qed.

Lemma cellAt_writeCell (n : nat) (R : Grid) (a b a' b' : nat) (v : jsval) :
  squareOf n R -> a < n -> b < n ->
  cellAt (writeCell R (a, b, v)) a' b'
  = if (a' =? a) && (b' =? b) then v else cellAt R a' b'.
Proof.
  intros HR Ha Hb. pose proof (squareOf_row n R a HR Ha) as Hrow.
  destruct HR as [Hl Hr]. unfold cellAt. cbn [writeCell].
  rewrite nth_upd by lia.
  destruct (a' =? a) eqn:E; cbn [andb]; [|reflexivity].
  apply Nat.eqb_eq in E. subst a'.
  rewrite nth_js_set by lia. reflexivity.
Qed.

Lemma writes_square (n : nat) (W : list (nat * nat * jsval)) (R : Grid) :
  Forall (inRange n) W -> squareOf n R -> squareOf n (fold_left writeCell W R).
Proof.
  intros HW. revert R. induction HW as [|[[a b] v] W [Ha Hb] _ IH]; intros R HR; [exact HR|].
  cbn [fold_left]. apply IH. apply writeCell_square; assumption.
Qed.

Lemma writes_keep (n : nat) (W : list (nat * nat * jsval)) (R : Grid) (a b : nat) (V : jsval) :
  Forall (inRange n) W -> squareOf n R ->
  (forall v, In (a, b, v) W -> v = V) ->
  cellAt R a b = V -> cellAt (fold_left writeCell W R) a b = V.
Proof.
  intros HW. revert R. induction HW as [|[[a' b'] v] W [Ha Hb] _ IH]; intros R HR Hv HV; [exact HV|].
  cbn [fold_left]. cbn [fst snd] in Ha, Hb. apply IH.
  - apply writeCell_square; assumption.
  - intros v' Hin. apply Hv. right. exact Hin.
  - rewrite (cellAt_writeCell n) by assumption.
    destruct ((a =? a') && (b =? b')) eqn:E; [|exact HV].
    apply andb_true_iff in E. destruct E as [E1 E2].
    apply Nat.eqb_eq in E1, E2. subst a' b'. apply Hv. left. reflexivity.
Qed.

Lemma writes_value (n : nat) (W : list (nat * nat * jsval)) (R : Grid) (a b : nat) (V : jsval) :
  Forall (inRange n) W -> squareOf n R ->
  (forall v, In (a, b, v) W -> v = V) ->
  In (a, b, V) W -> cellAt (fold_left writeCell W R) a b = V.
Proof.
  intros HW. revert R. induction HW as [|[[a' b'] v] W [Ha Hb] HW' IH]; intros R HR Hv Hin;
    [contradiction|].
  cbn [fold_left]. cbn [fst snd] in Ha, Hb.
  destruct Hin as [Hin|Hin].
  - injection Hin as -> -> ->.
    apply (writes_keep n); try assumption.
    + apply writeCell_square; assumption.
    + intros v' Hin'. apply Hv. right. exact Hin'.
    + rewrite (cellAt_writeCell n) by assumption. rewrite !Nat.eqb_refl. reflexivity.
  - apply IH; try assumption.
    + apply writeCell_square; assumption.
    + intros v' Hin'. apply Hv. right. exact Hin'.
Qed.

Lemma grid_ext (n : nat) (R R' : Grid) :
  squareOf n R -> squareOf n R' ->
  (forall a b, a < n -> b < n -> cellAt R a b = cellAt R' a b) -> R = R'.
Proof.
  intros [Hl Hr] [Hl' Hr'] H.
  apply (nth_ext R R' [] []); [lia|]. intros a Ha.
  rewrite Forall_forall in Hr, Hr'.
  assert (L1 : length (nth a R []) = n) by (apply Hr, nth_In; lia).
  assert (L2 : length (nth a R' []) = n) by (apply Hr', nth_In; lia).
  apply (nth_ext _ _ JUndefined JUndefined); [lia|]. intros b Hb.
  apply H; lia.
Qed.

Lemma rotateGrid_square (clockwise : bool) (g : Grid) :
  squareOf (length g) (rotateGrid clockwise g).
Proof.
  unfold rotateGrid, squareOf. cbv zeta. rewrite length_map, length_seq. split; [reflexivity|].
  apply Forall_forall. intros row Hin. apply in_map_iff in Hin.
  destruct Hin as (a & <- & _). rewrite length_map, length_seq. reflexivity.
Qed.

Lemma nth_map_seq {A} (f : nat -> A) (n i : nat) (d : A) :
  i < n -> nth i (map f (seq 0 n)) d = f i.
Proof.
  intros H. rewrite (nth_indep _ d (f 0)) by (rewrite length_map, length_seq; lia).
  rewrite map_nth, seq_nth by lia. reflexivity.
Qed.

Lemma cellAt_rotateGrid (clockwise : bool) (g : Grid) (a b : nat) :
  a < length g -> b < length g ->
  cellAt (rotateGrid clockwise g) a b
  = if clockwise then cellAt g (length g - 1 - b) a else cellAt g b (length g - 1 - a).
Proof.
  intros Ha Hb. unfold rotateGrid. cbv zeta. unfold cellAt at 1.
  rewrite nth_map_seq by exact Ha. rewrite nth_map_seq by exact Hb. reflexivity.
Qed.

Lemma squareOf_nulls (n : nat) : squareOf n (repeat (repeat JNull n) n).
Proof.
  split; [apply repeat_length|].
  apply Forall_forall. intros row Hin. apply repeat_spec in Hin. subst row. apply repeat_length.
Qed.

Lemma rotation_writes_in (clockwise : bool) (g : Grid) (a b : nat) (v : jsval) :
  In (a, b, v) (rotationWrites clockwise g) <->
  exists i j, i < length g /\ j < length g /\ rotationWrite clockwise g i j = (a, b, v).
Proof.
  unfold rotationWrites. cbv zeta. rewrite in_flat_map. split.
  - intros (i & Hi & Hin). apply in_map_iff in Hin. destruct Hin as (j & E & Hj).
    apply in_seq in Hi, Hj. exists i, j. repeat split; try lia. exact E.
  - intros (i & j & Hi & Hj & E). exists i. split; [apply in_seq; lia|].
    apply in_map_iff. exists j. split; [exact E|apply in_seq; lia].
Qed.

Lemma rotation_writes_range (clockwise : bool) (g : Grid) :
  Forall (inRange (length g)) (rotationWrites clockwise g).
Proof.
  apply Forall_forall. intros [[a b] v] Hin.
  apply rotation_writes_in in Hin. destruct Hin as (i & j & Hi & Hj & E).
  unfold rotationWrite in E. cbv zeta in E.
  destruct clockwise; injection E as <- <- _; split; cbn [fst snd]; lia.
Qed.

Lemma rotation_writes_result (clockwise : bool) (g : Grid) :
  fold_left writeCell (rotationWrites clockwise g)
            (repeat (repeat JNull (length g)) (length g))
  = rotateGrid clockwise g.
Proof.
  apply (grid_ext (length g)).
  - apply writes_square; [apply rotation_writes_range|apply squareOf_nulls].
  - apply rotateGrid_square.
  - intros a b Ha Hb. rewrite cellAt_rotateGrid by assumption.
    apply (writes_value (length g));
      [apply rotation_writes_range|apply squareOf_nulls| |].
    + intros v Hin. apply rotation_writes_in in Hin.
      destruct Hin as (i & j & Hi & Hj & E). unfold rotationWrite in E. cbv zeta in E.
      destruct clockwise; injection E as <- <- <-.
      * replace (length g - 1 - (length g - 1 - i)) with i by lia. reflexivity.
      * replace (length g - 1 - (length g - 1 - j)) with j by lia. reflexivity.
    + apply rotation_writes_in. destruct clockwise.
      * exists (length g - 1 - b), a. split; [lia|]. split; [lia|].
        unfold rotationWrite. cbv zeta.
        replace (length g - 1 - (length g - 1 - b)) with b by lia. reflexivity.
      * exists b, (length g - 1 - a). split; [lia|]. split; [lia|].
        unfold rotationWrite. cbv zeta.
        replace (length g - 1 - (length g - 1 - a)) with a by lia. reflexivity.
Qed.

(** Reading and allocating whole arrays *)

Lemma mapM_getCells_inv (rs : list nat) (h h' : Heap) (g : Grid) :
  mapM getCells rs h = Ok (g, h') ->
  h' = h /\ Forall2 (fun r row => nth_error (rowsH h) r = Some row) rs g.
Proof.
  revert g h'. induction rs as [|r rs IH]; intros g h' H.
  - injection H as <- <-. split; [reflexivity|constructor].
  - cbn [mapM] in H. unfold bind in H. unfold getCells at 1 in H.
    destruct (nth_error (rowsH h) r) as [row|] eqn:E; [|discriminate].
    destruct (mapM getCells rs h) as [[g1 h1]|] eqn:E1; [|discriminate].
    destruct (IH g1 h1 eq_refl) as [-> HF].
    unfold ret in H. injection H as <- <-. split; [reflexivity|]. constructor; assumption.
Qed.

Lemma mapM_getCells_ok (rs : list nat) (h : Heap) (g : Grid) :
  Forall2 (fun r row => nth_error (rowsH h) r = Some row) rs g ->
  mapM getCells rs h = Ok (g, h).
Proof.
  induction 1 as [|r row rs g E _ IH]; [reflexivity|].
  cbn [mapM]. unfold bind. unfold getCells at 1. rewrite E. rewrite IH. reflexivity.
Qed.

Lemma loadGrid_inv (array : nat) (h h' : Heap) (g : Grid) :
  loadGrid array h = Ok (g, h') ->
  h' = h /\ exists rs, nth_error (gridsH h) array = Some rs /\
    Forall2 (fun r row => nth_error (rowsH h) r = Some row) rs g.
Proof.
  unfold loadGrid, bind, getRows. intros H.
  destruct (nth_error (gridsH h) array) as [rs|] eqn:E; [|discriminate].
  destruct (mapM_getCells_inv rs h h' g H) as [-> HF].
  split; [reflexivity|]. exists rs. split; [reflexivity|exact HF].
Qed.

Lemma loadGrid_ok (array : nat) (h : Heap) (rs : list nat) (g : Grid) :
  nth_error (gridsH h) array = Some rs ->
  Forall2 (fun r row => nth_error (rowsH h) r = Some row) rs g ->
  loadGrid array h = Ok (g, h).
Proof.
  intros E HF. unfold loadGrid, bind, getRows. rewrite E. apply mapM_getCells_ok. exact HF.
Qed.

Lemma mapM_allocRow (g : Grid) (h : Heap) :
  mapM allocRow g h
  = Ok (seq (length (rowsH h)) (length g),
        mkHeap (rowsH h ++ g) (gridsH h) (facesH h) (cubesH h)).
Proof.
  revert h. induction g as [|row g IH]; intros h.
  - cbn. rewrite app_nil_r. destruct h; reflexivity.
  - cbn [mapM]. unfold bind. unfold allocRow at 1. rewrite IH. unfold ret.
    cbn [rowsH gridsH facesH cubesH length seq]. rewrite length_app. cbn [length].
    rewrite <- app_assoc. cbn [app].
    replace (length (rowsH h) + 1) with (S (length (rowsH h))) by lia. reflexivity.
Qed.

Lemma mapM_allocNulls (n : nat) (l : list nat) (h : Heap) :
  mapM (fun _ : nat => allocRow (repeat JNull n)) l h
  = Ok (seq (length (rowsH h)) (length l),
        mkHeap (rowsH h ++ repeat (repeat JNull n) (length l))
               (gridsH h) (facesH h) (cubesH h)).
Proof.
  revert h. induction l as [|x l IH]; intros h.
  - cbn. rewrite app_nil_r. destruct h; reflexivity.
  - cbn [mapM]. unfold bind. unfold allocRow at 1. rewrite IH. unfold ret.
    cbn [rowsH gridsH facesH cubesH length seq repeat]. rewrite length_app. cbn [length].
    rewrite <- app_assoc. cbn [app].
    replace (length (rowsH h) + 1) with (S (length (rowsH h))) by lia. reflexivity.
Qed.

Lemma newSquare_spec (n : nat) (h : Heap) :
  newSquare n h = Ok (length (gridsH h), withSquare h n (repeat (repeat JNull n) n)).
Proof.
  unfold newSquare, bind. rewrite mapM_allocNulls. rewrite length_seq.
  unfold allocGrid, withSquare. reflexivity.
Qed.

Lemma Forall2_nth_error {A B} (P : A -> B -> Prop) (l : list A) (l' : list B) (i : nat) (d : B) :
  Forall2 P l l' -> i < length l' ->
  exists x, nth_error l i = Some x /\ P x (nth i l' d).
Proof.
  intros H. revert i. induction H as [|x y l l' Hxy _ IH]; intros i Hi; [simpl in Hi; lia|].
  destruct i as [|i]; [exists x; split; [reflexivity|exact Hxy]|].
  apply IH. simpl in Hi. lia.
Qed.

Section RotateInStore.

Variable h : Heap.
Variable array : nat.
Variable rs : list nat.
Variable g : Grid.
Hypothesis array_rows : nth_error (gridsH h) array = Some rs.
Hypothesis rows_cells : Forall2 (fun r row => nth_error (rowsH h) r = Some row) rs g.

Lemma gridGet_old (R : Grid) (i j : nat) :
  i < length g ->
  gridGet array i j (withSquare h (length g) R) = Ok (cellAt g i j, withSquare h (length g) R).
Proof.
  intros Hi. unfold gridGet, bind, getRow, getCell.
  change (gridsH (withSquare h (length g) R))
    with (gridsH h ++ [seq (length (rowsH h)) (length g)]).
  change (rowsH (withSquare h (length g) R)) with (rowsH h ++ R).
  rewrite (nth_error_app_left _ _ _ _ array_rows).
  destruct (Forall2_nth_error _ rs g i [] rows_cells Hi) as (r & Er & Ec).
  rewrite Er.
  change (rowsH (withSquare h (length g) R)) with (rowsH h ++ R).
  rewrite (nth_error_app_left _ _ _ _ Ec). reflexivity.
Qed.

Lemma gridSet_new (R : Grid) (a b : nat) (v : jsval) :
  squareOf (length g) R -> a < length g ->
  gridSet (length (gridsH h)) a b v (withSquare h (length g) R)
  = Ok (tt, withSquare h (length g) (writeCell R (a, b, v))).
Proof.
  intros [Hl _] Ha. unfold gridSet, bind, getRow, setCell.
  change (gridsH (withSquare h (length g) R))
    with (gridsH h ++ [seq (length (rowsH h)) (length g)]).
  change (rowsH (withSquare h (length g) R)) with (rowsH h ++ R).
  change (facesH (withSquare h (length g) R)) with (facesH h).
  change (cubesH (withSquare h (length g) R)) with (cubesH h).
  rewrite <- (Nat.add_0_r (length (gridsH h))) at 1. rewrite nth_error_app_shift. cbn [nth_error].
  assert (E : nth_error (seq (length (rowsH h)) (length g)) a = Some (length (rowsH h) + a)).
  { rewrite nth_error_nth' with (d := 0) by (rewrite length_seq; exact Ha).
    rewrite seq_nth by exact Ha. reflexivity. }
  rewrite E.
  change (rowsH (withSquare h (length g) R)) with (rowsH h ++ R).
  change (gridsH (withSquare h (length g) R))
    with (gridsH h ++ [seq (length (rowsH h)) (length g)]).
  change (facesH (withSquare h (length g) R)) with (facesH h).
  change (cubesH (withSquare h (length g) R)) with (cubesH h).
  rewrite nth_error_app_shift.
  rewrite nth_error_nth' with (d := []) by lia.
  rewrite upd_app_shift. reflexivity.
Qed.

Lemma forRange_writes (body : nat -> M unit) (p : nat -> list (nat * nat * jsval))
    (k s : nat) (R : Grid) :
  (forall x R', s <= x < s + k -> squareOf (length g) R' ->
     body x (withSquare h (length g) R')
     = Ok (tt, withSquare h (length g) (fold_left writeCell (p x) R'))) ->
  (forall x, s <= x < s + k -> Forall (inRange (length g)) (p x)) ->
  squareOf (length g) R ->
  forRange k s body (withSquare h (length g) R)
  = Ok (tt, withSquare h (length g) (fold_left writeCell (flat_map p (seq s k)) R)).
Proof.
  revert s R. induction k as [|k IH]; intros s R Hb Hp HR; [reflexivity|].
  cbn [forRange seq flat_map]. unfold bind at 1. rewrite Hb by (lia || exact HR).
  rewrite fold_left_app. apply IH.
  - intros x R' Hx HR'. apply Hb; [lia|exact HR'].
  - intros x Hx. apply Hp. lia.
  - apply writes_square; [apply Hp; lia|exact HR].
Qed.

Lemma flat_map_single {A B} (f : A -> B) (l : list A) :
  flat_map (fun x => [f x]) l = map f l.
Proof. induction l as [|x l IH]; [reflexivity|]. cbn. rewrite IH. reflexivity. Qed.

Lemma rotationWrite_range (clockwise : bool) (i j : nat) :
  i < length g -> j < length g -> inRange (length g) (rotationWrite clockwise g i j).
Proof.
  intros Hi Hj. unfold rotationWrite. cbv zeta. destruct clockwise; split; cbn [fst snd]; lia.
Qed.

Lemma rotate_loops (clockwise : bool) (R : Grid) :
  squareOf (length g) R ->
  forRange (length g) 0 (fun i =>
    forRange (length g) 0 (fun j =>
      v <- gridGet array i j ;;
      (if clockwise then gridSet (length (gridsH h)) j (length g - 1 - i) v
       else gridSet (length (gridsH h)) (length g - 1 - j) i v)))
    (withSquare h (length g) R)
  = Ok (tt, withSquare h (length g) (fold_left writeCell (rotationWrites clockwise g) R)).
Proof.
  intros HR. unfold rotationWrites. cbv zeta.
  apply (forRange_writes _ (fun i => map (rotationWrite clockwise g i) (seq 0 (length g))));
    [| |exact HR].
  - intros i R' Hi HR'. rewrite <- flat_map_single.
    apply (forRange_writes _ (fun j => [rotationWrite clockwise g i j])); [| |exact HR'].
    + intros j R2 Hj HR2. unfold bind. rewrite gridGet_old by lia.
      cbn [fold_left]. unfold rotationWrite. cbv zeta.
      destruct clockwise; apply gridSet_new; (exact HR2 || lia).
    + intros j Hj. constructor; [|constructor]. apply rotationWrite_range; lia.
  - intros i Hi. apply Forall_forall. intros w Hin. apply in_map_iff in Hin.
    destruct Hin as (j & <- & Hj). apply in_seq in Hj. apply rotationWrite_range; lia.
Qed.

Lemma rotate2DArray_run (clockwise : bool) :
  rotate2DArray array clockwise h
  = Ok (length (gridsH h), withSquare h (length g) (rotateGrid clockwise g)).
Proof.
  assert (Hlen : length rs = length g) by (eapply Forall2_length; exact rows_cells).
  unfold rotate2DArray. unfold bind at 1. unfold arrayLength. rewrite array_rows. rewrite Hlen.
  unfold bind at 1. rewrite newSquare_spec.
  unfold bind at 1.
  destruct clockwise.
  - rewrite (rotate_loops true) by apply squareOf_nulls.
    rewrite rotation_writes_result. reflexivity.
  - rewrite (rotate_loops false) by apply squareOf_nulls.
    rewrite rotation_writes_result. reflexivity.
Qed.

End RotateInStore.

Lemma Forall2_seq_rows (rows R : Grid) :
  Forall2 (fun r row => nth_error (rows ++ R) r = Some row) (seq (length rows) (length R)) R.
Proof.
  revert rows. induction R as [|row R IH]; intros rows; [constructor|].
  cbn [length seq]. constructor.
  - rewrite <- (Nat.add_0_r (length rows)). rewrite nth_error_app_shift. reflexivity.
  - specialize (IH (rows ++ [row])). rewrite length_app in IH. cbn [length] in IH.
    rewrite <- app_assoc in IH. cbn [app] in IH.
    replace (length rows + 1) with (S (length rows)) in IH by lia. exact IH.
Qed.

Lemma preserved_withSquare (h : Heap) (n : nat) (R : Grid) : preserved h (withSquare h n R).
Proof.
  unfold preserved, withSquare. cbn [rowsH gridsH facesH cubesH].
  repeat split; intros; try assumption; eapply nth_error_app_left; eassumption.
Qed.

Lemma rotate2DArray_store (h : Heap) (array : nat) (g : Grid) (clockwise : bool) :
  loadGrid array h = Ok (g, h) ->
  rotate2DArray array clockwise h
  = Ok (length (gridsH h), withSquare h (length g) (rotateGrid clockwise g)) /\
  loadGrid (length (gridsH h)) (withSquare h (length g) (rotateGrid clockwise g))
  = Ok (rotateGrid clockwise g, withSquare h (length g) (rotateGrid clockwise g)).
Proof.
  intros H. destruct (loadGrid_inv array h h g H) as (_ & rs & Hrs & Hcells).
  pose proof (rotateGrid_square clockwise g) as [Hl _].
  split; [apply (rotate2DArray_run h array rs g Hrs Hcells)|].
  apply (loadGrid_ok _ _ (seq (length (rowsH h)) (length g))).
  - unfold withSquare. cbn [gridsH].
    rewrite <- (Nat.add_0_r (length (gridsH h))) at 1. rewrite nth_error_app_shift. reflexivity.
  - unfold withSquare. cbn [rowsH]. rewrite <- Hl at 1. apply Forall2_seq_rows.
Qed.

(** X9: in any store, aliased rows included, [rotate2DArray] called on an
    array of [n] rows never throws and returns a newly allocated array of
    [n] new rows of [n] cells, with [rotated[j][n-1-i] = array[i][j]]
    (clockwise) or [rotated[n-1-j][i] = array[i][j]] (counter-clockwise)
    for all [i], [j] below [n]; cells that [array] does not have read as
    [undefined].  The argument and every other object of the store are
    left as they were. *)
Theorem rotate2DArray_spec (h : Heap) (array : nat) (g : Grid) (clockwise : bool) :
  loadGrid array h = Ok (g, h) ->
  exists h',
    rotate2DArray array clockwise h = Ok (length (gridsH h), h') /\
    loadGrid (length (gridsH h)) h' = Ok (rotateGrid clockwise g, h') /\
    nth_error (gridsH h') (length (gridsH h)) = Some (seq (length (rowsH h)) (length g)) /\
    loadGrid array h' = Ok (g, h') /\
    preserved h h'.
Proof.
  intros H. destruct (rotate2DArray_store h array g clockwise H) as [E1 E2].
  destruct (loadGrid_inv array h h g H) as (_ & rs & Hrs & Hcells).
  exists (withSquare h (length g) (rotateGrid clockwise g)).
  split; [exact E1|]. split; [exact E2|]. split.
  { unfold withSquare. cbn [gridsH].
    rewrite <- (Nat.add_0_r (length (gridsH h))) at 1. rewrite nth_error_app_shift. reflexivity. }
  split.
  - apply (loadGrid_ok _ _ rs).
    + unfold withSquare. cbn [gridsH]. eapply nth_error_app_left. exact Hrs.
    + unfold withSquare. cbn [rowsH]. eapply Forall2_impl; [|exact Hcells].
      intros r row E. eapply nth_error_app_left. exact E.
  - apply preserved_withSquare.
Qed.

Lemma rotate2DArray_spec_witness :
  exists h',
    rotate2DArray 2 false sharedRowsStore = Ok (length (gridsH sharedRowsStore), h') /\
    loadGrid (length (gridsH sharedRowsStore)) h'
      = Ok (rotateGrid false (uniformGrid "white"), h') /\
    nth_error (gridsH h') (length (gridsH sharedRowsStore))
      = Some (seq (length (rowsH sharedRowsStore)) (length (uniformGrid "white"))) /\
    loadGrid 2 h' = Ok (uniformGrid "white", h') /\
    preserved sharedRowsStore h'.
Proof.
  apply (rotate2DArray_spec sharedRowsStore 2 (uniformGrid "white") false). reflexivity.
Defined.

(** On values: [rotate2DArray] computes [rotateGrid]. *)
Lemma rotate2DArray_val_closed (g : Grid) (clockwise : bool) :
  rotate2DArray_val g clockwise = Ok (rotateGrid clockwise g).
Proof.
  unfold rotate2DArray_val, run. unfold bind at 1. unfold storeGrid, bind at 1.
  rewrite mapM_allocRow. unfold allocGrid. cbn [emptyHeap rowsH gridsH facesH cubesH length app].
  set (h := mkHeap g [seq 0 (length g)] [] []).
  assert (Hload : loadGrid 0 h = Ok (g, h)).
  { apply (loadGrid_ok 0 h (seq 0 (length g))); [reflexivity|].
    apply (Forall2_seq_rows [] g). }
  destruct (rotate2DArray_store h 0 g clockwise Hload) as (E1 & E2).
  unfold bind. rewrite E1. rewrite E2. reflexivity.
Qed.

Lemma rotateGrid_length (clockwise : bool) (g : Grid) :
  length (rotateGrid clockwise g) = length g.
Proof. unfold rotateGrid. cbv zeta. rewrite length_map, length_seq. reflexivity. Qed.

Lemma rotateGrid_back (n : nat) (g : Grid) :
  squareOf n g ->
  rotateGrid false (rotateGrid true g) = g /\ rotateGrid true (rotateGrid false g) = g.
Proof.
  intros Hg. pose proof Hg as [Hl _]. split.
  - apply (grid_ext n); [| exact Hg |].
    + rewrite <- Hl, <- (rotateGrid_length true g). apply rotateGrid_square.
    + intros a b Ha Hb.
      rewrite cellAt_rotateGrid by (rewrite rotateGrid_length; lia).
      rewrite rotateGrid_length.
      rewrite cellAt_rotateGrid by lia.
      replace (length g - 1 - (length g - 1 - a)) with a by lia. reflexivity.
  - apply (grid_ext n); [| exact Hg |].
    + rewrite <- Hl, <- (rotateGrid_length false g). apply rotateGrid_square.
    + intros a b Ha Hb.
      rewrite cellAt_rotateGrid by (rewrite rotateGrid_length; lia).
      rewrite rotateGrid_length.
      rewrite cellAt_rotateGrid by lia.
      replace (length g - 1 - (length g - 1 - b)) with b by lia. reflexivity.
Qed.

Lemma rotateGrid_squareOf (n : nat) (clockwise : bool) (g : Grid) :
  squareOf n g -> squareOf n (rotateGrid clockwise g).
Proof. intros [Hl _]. rewrite <- Hl. apply rotateGrid_square. Qed.

Lemma rotateGrid_twice (n : nat) (g : Grid) (a b : nat) :
  squareOf n g -> a < n -> b < n ->
  cellAt (rotateGrid true (rotateGrid true g)) a b = cellAt g (n - 1 - a) (n - 1 - b).
Proof.
  intros [Hl _] Ha Hb.
  rewrite cellAt_rotateGrid by (rewrite rotateGrid_length; lia).
  rewrite rotateGrid_length.
  rewrite cellAt_rotateGrid by lia. rewrite Hl. reflexivity.
Qed.

(** X10: on a square array of any size, rotating clockwise and then
    counter-clockwise gives the array back, and so does the opposite
    order; two clockwise rotations equal two counter-clockwise ones; the
    results are square arrays of the same size. *)
Theorem rotate2DArray_round_trip (n : nat) (g : Grid) :
  squareOf n g ->
  exists cw ccw cw2,
    rotate2DArray_val g true = Ok cw /\ rotate2DArray_val cw false = Ok g /\
    rotate2DArray_val g false = Ok ccw /\ rotate2DArray_val ccw true = Ok g /\
    rotate2DArray_val cw true = Ok cw2 /\ rotate2DArray_val ccw false = Ok cw2 /\
    squareOf n cw /\ squareOf n ccw.
Proof.
  intros Hg. destruct (rotateGrid_back n g Hg) as [E1 E2].
  exists (rotateGrid true g), (rotateGrid false g), (rotateGrid true (rotateGrid true g)).
  rewrite !rotate2DArray_val_closed, E1, E2.
  repeat split; try (apply rotateGrid_squareOf; exact Hg); try apply rotateGrid_square.
  f_equal. apply (grid_ext n).
  - do 2 apply rotateGrid_squareOf. exact Hg.
  - do 2 apply rotateGrid_squareOf. exact Hg.
  - intros a b Ha Hb. rewrite (rotateGrid_twice n) by assumption.
    pose proof Hg as [Hl _].
    rewrite cellAt_rotateGrid by (rewrite rotateGrid_length; lia).
    rewrite rotateGrid_length.
    rewrite cellAt_rotateGrid by lia. rewrite Hl. reflexivity.
Qed.

Lemma rotate2DArray_round_trip_witness :
  exists cw ccw cw2,
    rotate2DArray_val (numberedGrid "F") true = Ok cw /\ rotate2DArray_val cw false = Ok (numberedGrid "F") /\
    rotate2DArray_val (numberedGrid "F") false = Ok ccw /\ rotate2DArray_val ccw true = Ok (numberedGrid "F") /\
    rotate2DArray_val cw true = Ok cw2 /\ rotate2DArray_val ccw false = Ok cw2 /\
    squareOf 3 cw /\ squareOf 3 ccw.
Proof.
  apply (rotate2DArray_round_trip 3 (numberedGrid "F")).
  split; [reflexivity|repeat constructor].
Defined.

(* ================================================================== *)
(** * Part XXI: affected cubies, easing and the animation flags        *)
(* ================================================================== *)



(** X12: a cubie position lies on as many faces as it has non-zero
    coordinates (none for the core, one for a face centre, two for an
    edge, three for a corner), and never on two opposite faces. *)
Theorem faces_through_position (p : Position) :
  In p allPositions ->
  facesThrough p = Z.to_nat (dot p p) /\
  (forall f g, In (f, g) [("R", "L"); ("U", "D"); ("F", "B")]%string ->
     ~ (In p (getAffectedCubes f) /\ In p (getAffectedCubes g))).
Proof.
  intros Hin. split.
  - cbv in Hin. repeat (destruct Hin as [<-|Hin]; [reflexivity|]). contradiction.
  - intros f g Hfg [Hf Hg]. cbv in Hfg.
    repeat (destruct Hfg as [Hfg|Hfg];
            [injection Hfg as <- <-; cbv in Hf, Hg;
             repeat (destruct Hf as [<-|Hf]; [repeat (destruct Hg as [Hg|Hg]; [discriminate Hg|]); contradiction|]);
             contradiction|]).
    contradiction.
Qed.

Lemma faces_through_position_witness :
  facesThrough (1, -1, 0)%Z = Z.to_nat (dot (1, -1, 0)%Z (1, -1, 0)%Z) /\
  (forall f g, In (f, g) [("R", "L"); ("U", "D"); ("F", "B")]%string ->
     ~ (In (1, -1, 0)%Z (getAffectedCubes f) /\ In (1, -1, 0)%Z (getAffectedCubes g))).
Proof.
  apply (faces_through_position (1, -1, 0)%Z). vm_compute. tauto.
Defined.

Section EasingFacts.
Local Open Scope Q_scope.

Variable pow : Q -> Q -> Q.
Hypothesis pow_cube : forall x, pow x 3 == x * x * x.









End EasingFacts.



Lemma statusOf_set_same (table : list (string * bool)) (f : string) (v : bool) :
  statusOf (setStatus table f v) f = v.
Proof.
  induction table as [|[k w] t IH]; cbn [setStatus statusOf].
  - rewrite String.eqb_refl. reflexivity.
  - destruct (String.eqb k f) eqn:E; cbn [statusOf]; rewrite E; [reflexivity|exact IH].
Qed.

Lemma statusOf_set_other (table : list (string * bool)) (f g : string) (v : bool) :
  f <> g -> statusOf (setStatus table f v) g = statusOf table g.
Proof.
  intros H. induction table as [|[k w] t IH]; cbn [setStatus statusOf].
  - destruct (String.eqb f g) eqn:E; [|reflexivity]. apply String.eqb_eq in E. contradiction.
  - destruct (String.eqb k f) eqn:E; cbn [statusOf].
    + apply String.eqb_eq in E. subst k.
      destruct (String.eqb f g) eqn:E'; [|reflexivity]. apply String.eqb_eq in E'. contradiction.
    + rewrite IH. reflexivity.
Qed.

Lemma statusOf_cleared (table : list (string * bool)) (f : string) :
  statusOf (map (fun e => (fst e, false)) table) f = false.
Proof.
  induction table as [|[k w] t IH]; [reflexivity|].
  cbn [map statusOf fst]. destruct (String.eqb k f); [reflexivity|exact IH].
Qed.

(** [animate(move.charAt(0), move)] names the face it marks. *)
Lemma notation_face (move : string) :
  pm_face (match givenNotation (Some move) with
           | Some m => parseMove m
           | None => mkParsedMove (charAt0 move) true QuarterTurn
           end) = charAt0 move.
Proof.
  destruct move as [|c rest]; [reflexivity|].
  cbn [givenNotation]. unfold parseMove.
  destruct (String.eqb (substring1 (String c rest)) "'"); [reflexivity|].
  destruct (String.eqb (substring1 (String c rest)) "2"); reflexivity.
Qed.

Lemma animateMove_free (now : Z) (move : string) (st : AnimState) :
  statusOf (faceAnimationStatus st) (charAt0 move) = false ->
  exists current events,
    animateMove now move st
    = (true,
       mkAnimState (setStatus (faceAnimationStatus st) (charAt0 move) true) current
                   (animationCallbacks st),
       events) /\
    a_face current = Some (charAt0 move) /\ a_startTime current = now /\
    a_isAnimating current = true.
Proof.
  intros H. unfold animateMove, animate. rewrite H.
  do 2 eexists. split; [reflexivity|]. cbn [a_face a_startTime a_isAnimating].
  rewrite notation_face. repeat split.
Qed.

Lemma animateMove_busy (now : Z) (move : string) (st : AnimState) :
  statusOf (faceAnimationStatus st) (charAt0 move) = true ->
  animateMove now move st = (false, st, []).
Proof. intros H. unfold animateMove, animate. rewrite H. reflexivity. Qed.

Section AnimationFacts.
Local Open Scope Q_scope.

Variable pow : Q -> Q -> Q.

Lemma progress_below (elapsed : Z) :
  (elapsed < duration)%Z ->
  Qle_bool 1 (js_min (inject_Z elapsed / inject_Z duration) 1) = false.
Proof.
  intros H.
  assert (Hq : (inject_Z elapsed / inject_Z duration < 1)%Q).
  { apply Qlt_shift_div_r; [reflexivity|]. rewrite Qmult_1_l. rewrite <- Zlt_Qlt. exact H. }
  unfold js_min.
  destruct (Qle_bool (inject_Z elapsed / inject_Z duration) 1) eqn:E.
  - destruct (Qle_bool 1 (inject_Z elapsed / inject_Z duration)) eqn:E'; [|reflexivity].
    apply Qle_bool_iff in E'. exfalso. apply (Qlt_not_le _ _ Hq). exact E'.
  - apply Qle_bool_false in E. exfalso. apply (Qlt_irrefl 1).
    apply Qlt_trans with (inject_Z elapsed / inject_Z duration); assumption.
Qed.

Lemma progress_reached (elapsed : Z) :
  (duration <= elapsed)%Z ->
  Qle_bool 1 (js_min (inject_Z elapsed / inject_Z duration) 1) = true.
Proof.
  intros H.
  assert (Hq : (1 <= inject_Z elapsed / inject_Z duration)%Q).
  { apply Qle_shift_div_l; [reflexivity|]. rewrite Qmult_1_l. rewrite <- Zle_Qle. exact H. }
  unfold js_min.
  destruct (Qle_bool (inject_Z elapsed / inject_Z duration) 1) eqn:E; [|reflexivity].
  apply Qle_bool_iff. exact Hq.
Qed.

Lemma update_early (now : Z) (st : AnimState) :
  (now - a_startTime (currentAnimation st) < duration)%Z ->
  fst (updateAnimations pow now st) = st.
Proof.
  intros H. unfold updateAnimations.
  destruct (a_isAnimating (currentAnimation st)); [|reflexivity]. cbn [negb].
  rewrite (progress_below _ H). reflexivity.
Qed.

Lemma update_late (now : Z) (st : AnimState) :
  a_isAnimating (currentAnimation st) = true ->
  (duration <= now - a_startTime (currentAnimation st))%Z ->
  faceAnimationStatus (fst (updateAnimations pow now st))
  = setStatus (faceAnimationStatus st) (faceKey (a_face (currentAnimation st))) false /\
  isAnimating (fst (updateAnimations pow now st)) = false.
Proof.
  intros Ha H. unfold updateAnimations. rewrite Ha. cbn [negb].
  rewrite (progress_reached _ H). split; reflexivity.
Qed.

(** X14: when [animate(move.charAt(0), move)] finds the face free it
    returns [true] and the module is animating; from then on a second
    call for the same face returns [false] and changes nothing, and an
    [updateAnimations] made less than 800 ms after the start leaves the
    state as it is. *)
Theorem animation_locks_face (now : Z) (move : string) (st : AnimState) :
  statusOf (faceAnimationStatus st) (charAt0 move) = false ->
  exists st1 events,
    animateMove now move st = (true, st1, events) /\
    isAnimating st1 = true /\
    (forall now' move', charAt0 move' = charAt0 move ->
       animateMove now' move' st1 = (false, st1, [])) /\
    (forall now', (now' - now < duration)%Z -> fst (updateAnimations pow now' st1) = st1).
Proof.
  intros H. destruct (animateMove_free now move st H) as (cur & events & E & Hf & Ht & Ha).
  do 2 eexists. split; [exact E|]. split; [exact Ha|]. split.
  - intros now' move' Hm. apply animateMove_busy. cbn [faceAnimationStatus].
    rewrite Hm. apply statusOf_set_same.
  - intros now' Hn. apply update_early. cbn [currentAnimation]. rewrite Ht. exact Hn.
Qed.

(** X15: the first [updateAnimations] made 800 ms or more after the
    start ends the animation: the module is no longer animating, every
    face flag reads as it did before the animation began, and the same
    move can be animated again. *)
Theorem animation_completes (now now' : Z) (move : string) (st : AnimState) :
  statusOf (faceAnimationStatus st) (charAt0 move) = false ->
  (now + duration <= now')%Z ->
  exists st1 events,
    animateMove now move st = (true, st1, events) /\
    isAnimating (fst (updateAnimations pow now' st1)) = false /\
    (forall face, statusOf (faceAnimationStatus (fst (updateAnimations pow now' st1))) face
                  = statusOf (faceAnimationStatus st) face) /\
    fst (fst (animateMove now' move (fst (updateAnimations pow now' st1)))) = true.
Proof.
  intros H Hn. destruct (animateMove_free now move st H) as (cur & events & E & Hf & Ht & Ha).
  do 2 eexists. split; [exact E|].
  match goal with |- context [updateAnimations pow now' ?s] => set (st1 := s) end.
  destruct (update_late now' st1) as [E1 E2].
  { exact Ha. }
  { cbn [st1 currentAnimation]. rewrite Ht. lia. }
  assert (Hall : forall face, statusOf (faceAnimationStatus (fst (updateAnimations pow now' st1))) face
                              = statusOf (faceAnimationStatus st) face).
  { intros face. rewrite E1. cbn [st1 currentAnimation faceAnimationStatus]. rewrite Hf.
    cbn [faceKey].
    destruct (string_dec (charAt0 move) face) as [<-|Hne].
    - rewrite statusOf_set_same. symmetry. exact H.
    - rewrite !statusOf_set_other by exact Hne. reflexivity. }
  split; [exact E2|]. split; [exact Hall|].
  unfold animateMove, animate. rewrite Hall, H. reflexivity.
Qed.

Lemma lockedOut_perform (f : string) (st : AnimState) (c : Call) :
  lockedOut f st -> lockedOut f (perform pow st c).
Proof.
  intros (Hs & g & Hg & Hne). destruct c as [now move|now]; cbn [perform].
  - destruct (statusOf (faceAnimationStatus st) (charAt0 move)) eqn:E.
    + rewrite (animateMove_busy now move st E). cbn [fst snd]. split; [exact Hs|]. exists g. auto.
    + destruct (animateMove_free now move st E) as (cur & events & -> & Hf & _ & _).
      cbn [fst snd]. assert (Hm : charAt0 move <> f).
      { intros <-. rewrite Hs in E. discriminate. }
      split.
      * cbn [faceAnimationStatus]. rewrite statusOf_set_other by exact Hm. exact Hs.
      * exists (charAt0 move). cbn [currentAnimation]. split; [exact Hf|exact Hm].
  - unfold updateAnimations.
    destruct (a_isAnimating (currentAnimation st)); cbn [negb fst];
      [|split; [exact Hs|exists g; auto]].
    destruct (Qle_bool 1 _); cbn [fst]; [|split; [exact Hs|exists g; auto]].
    split.
    + cbn [faceAnimationStatus]. rewrite Hg. cbn [faceKey].
      rewrite statusOf_set_other by exact Hne. exact Hs.
    + exists g. cbn [currentAnimation a_face]. auto.
Qed.

(** X16: the module remembers one running animation only.  When a
    second face is started while the first is still running, the flag of
    the first face is never cleared again: whatever calls of [animate]
    and [updateAnimations] follow, at whatever times, the first face
    reads busy and [animate] refuses it. *)
Theorem overlapping_animation_locks_face
    (now1 now2 : Z) (m1 m2 : string) (st : AnimState) (calls : list Call) :
  statusOf (faceAnimationStatus st) (charAt0 m1) = false ->
  statusOf (faceAnimationStatus st) (charAt0 m2) = false ->
  charAt0 m1 <> charAt0 m2 ->
  exists st1 st2 e1 e2,
    animateMove now1 m1 st = (true, st1, e1) /\
    animateMove now2 m2 st1 = (true, st2, e2) /\
    statusOf (faceAnimationStatus (fold_left (perform pow) calls st2)) (charAt0 m1) = true /\
    forall now m, charAt0 m = charAt0 m1 ->
      fst (fst (animateMove now m (fold_left (perform pow) calls st2))) = false.
Proof.
  intros H1 H2 Hne.
  destruct (animateMove_free now1 m1 st H1) as (cur1 & e1 & E1 & Hf1 & _ & _).
  match type of E1 with _ = (_, ?s, _) => set (st1 := s) in * end.
  assert (H2' : statusOf (faceAnimationStatus st1) (charAt0 m2) = false).
  { cbn [st1 faceAnimationStatus]. rewrite statusOf_set_other by exact Hne. exact H2. }
  destruct (animateMove_free now2 m2 st1 H2') as (cur2 & e2 & E2 & Hf2 & _ & _).
  match type of E2 with _ = (_, ?s, _) => set (st2 := s) in * end.
  exists st1, st2, e1, e2. split; [exact E1|]. split; [exact E2|].
  assert (Hinv : lockedOut (charAt0 m1) (fold_left (perform pow) calls st2)).
  { assert (H0 : lockedOut (charAt0 m1) st2).
    { split.
      - cbn [st2 st1 faceAnimationStatus].
        rewrite statusOf_set_other by (intros E; apply Hne; symmetry; exact E).
        apply statusOf_set_same.
      - exists (charAt0 m2). cbn [st2 currentAnimation]. split; [exact Hf2|].
        intros E; apply Hne; symmetry; exact E. }
    clearbody st2. clear E2. revert st2 H0.
    induction calls as [|c calls IH]; intros st2 H0; [exact H0|].
    cbn [fold_left]. apply IH. apply lockedOut_perform. exact H0. }
  destruct Hinv as [Hs _]. split; [exact Hs|].
  intros now m Hm. rewrite animateMove_busy; [reflexivity|]. rewrite Hm. exact Hs.
Qed.

End AnimationFacts.

Lemma animation_locks_face_witness :
  exists st1 events,
    animateMove 1000 "R'" initialAnimState = (true, st1, events) /\
    isAnimating st1 = true /\
    (forall now' move', charAt0 move' = charAt0 "R'" ->
       animateMove now' move' st1 = (false, st1, [])) /\
    (forall now', (now' - 1000 < duration)%Z -> fst (updateAnimations cubePow now' st1) = st1).
Proof.
  apply (animation_locks_face cubePow 1000 "R'" initialAnimState). reflexivity.
Defined.

Lemma animation_completes_witness :
  exists st1 events,
    animateMove 1000 "U2" initialAnimState = (true, st1, events) /\
    isAnimating (fst (updateAnimations cubePow 1800 st1)) = false /\
    (forall face, statusOf (faceAnimationStatus (fst (updateAnimations cubePow 1800 st1))) face
                  = statusOf (faceAnimationStatus initialAnimState) face) /\
    fst (fst (animateMove 1800 "U2" (fst (updateAnimations cubePow 1800 st1)))) = true.
Proof.
  apply (animation_completes cubePow 1000 1800 "U2" initialAnimState); [reflexivity|].
  vm_compute. discriminate.
Defined.

Lemma overlapping_animation_locks_face_witness :
  exists st1 st2 e1 e2,
    animateMove 0 "R" initialAnimState = (true, st1, e1) /\
    animateMove 100 "U" st1 = (true, st2, e2) /\
    statusOf (faceAnimationStatus
                (fold_left (perform cubePow) [CallUpdate 900; CallAnimate 950 "R"; CallUpdate 5000] st2))
             (charAt0 "R") = true /\
    forall now m, charAt0 m = charAt0 "R" ->
      fst (fst (animateMove now m
                  (fold_left (perform cubePow)
                             [CallUpdate 900; CallAnimate 950 "R"; CallUpdate 5000] st2))) = false.
Proof.
  apply (overlapping_animation_locks_face cubePow 0 100 "R" "U" initialAnimState
           [CallUpdate 900; CallAnimate 950 "R"; CallUpdate 5000]);
    [reflexivity|reflexivity|discriminate].
Defined.

(** X17: after [stopAllAnimations], from any state of the module, no
    face reads busy, the module is not animating,
    [animate(move.charAt(0), move)] accepts every move and
    [updateAnimations] does nothing. *)
Theorem stopAllAnimations_frees_all (st : AnimState) (move : string) (now : Z)
    (pow : Q -> Q -> Q) :
  statusOf (faceAnimationStatus (stopAllAnimations st)) (charAt0 move) = false /\
  isAnimating (stopAllAnimations st) = false /\
  fst (fst (animateMove now move (stopAllAnimations st))) = true /\
  updateAnimations pow now (stopAllAnimations st) = (stopAllAnimations st, []).
Proof.
  assert (H : statusOf (faceAnimationStatus (stopAllAnimations st)) (charAt0 move) = false).
  { unfold stopAllAnimations. cbn [faceAnimationStatus]. apply statusOf_cleared. }
  split; [exact H|]. split; [reflexivity|]. split.
  - unfold animateMove, animate. rewrite H. reflexivity.
  - reflexivity.
Qed.

(* ================================================================== *)
(** * Part XXII: lighting, calibration, hue and confidence             *)
(* ================================================================== *)

Section LightingFacts.
Local Open Scope Q_scope.

Lemma js_round_le (n : Z) (x : Q) : x <= inject_Z n -> js_round x <= inject_Z n.
Proof.
  intros H. unfold js_round. rewrite <- Zle_Qle.
  assert (Hlt : x + (1 # 2) < inject_Z (n + 1)).
  { rewrite inject_Z_plus. change (inject_Z 1) with 1. lra. }
  pose proof (Qfloor_le (x + (1 # 2))) as Hf.
  assert (Hz : inject_Z (Qfloor (x + (1 # 2))) < inject_Z (n + 1)) by lra.
  rewrite <- Zlt_Qlt in Hz. lia.
Qed.

Lemma js_round_nonneg (x : Q) : 0 <= x -> 0 <= js_round x.
Proof. intros H. apply (js_round_ge 0). change (inject_Z 0) with 0. lra. Qed.

Lemma js_max_ge_l (a b : Q) : a <= js_max a b.
Proof. unfold js_max. destruct (Qle_bool a b) eqn:E; [apply Qle_bool_iff; exact E|lra]. Qed.

Lemma js_max_ge_r (a b : Q) : b <= js_max a b.
Proof.
  unfold js_max. destruct (Qle_bool a b) eqn:E; [lra|].
  apply Qle_bool_false in E. lra.
Qed.

Lemma js_max_lub (a b c : Q) : a <= c -> b <= c -> js_max a b <= c.
Proof. intros Ha Hb. unfold js_max. destruct (Qle_bool a b); assumption. Qed.

(** X18: for channels between 0 and 255, [correctColorForLighting]
    divides by zero exactly on black (all three channels 0, where the
    boost [150 / avg] has no value); on every other colour it returns
    three channels between 0 and 255. *)
Theorem correctColorForLighting_range (r g b : Q) :
  0 <= r /\ r <= 255 -> 0 <= g /\ g <= 255 -> 0 <= b /\ b <= 255 ->
  (r + g + b == 0 -> correctColorForLighting r g b = None) /\
  (~ r + g + b == 0 ->
   exists r' g' b',
     correctColorForLighting r g b = Some (r', g', b') /\
     (0 <= r' /\ r' <= 255) /\ (0 <= g' /\ g' <= 255) /\ (0 <= b' /\ b' <= 255)).
Proof.
  intros [Hr0 Hr1] [Hg0 Hg1] [Hb0 Hb1]. unfold correctColorForLighting. cbv zeta. split.
  - intros Hz.
    assert (E : Qltb ((r + g + b) / 3) 100 = true) by (apply Qltb_true; rewrite Hz; reflexivity).
    rewrite E. unfold js_div.
    assert (E0 : Qeq_bool ((r + g + b) / 3) 0 = true) by (apply Qeq_bool_iff; rewrite Hz; reflexivity).
    rewrite E0. reflexivity.
  - intros Hnz.
    assert (Hpos : 0 < (r + g + b) / 3).
    { apply Qlt_shift_div_l; [reflexivity|]. 
      assert (0 <= r + g + b) by lra.
      apply Qle_lteq in H. destruct H as [H|H]; [lra|]. exfalso. apply Hnz. symmetry. exact H. }
    set (avg := (r + g + b) / 3) in *.
    destruct (Qltb avg 100) eqn:E1.
    + rewrite (js_div_pos 150 avg Hpos). cbn [obind].
      assert (Hboost : 0 < 150 / avg) by (apply Qlt_shift_div_l; [exact Hpos|lra]).
      do 3 eexists. split; [reflexivity|].
      repeat split; try apply js_min_le_l;
        (apply js_min_glb; [lra|apply js_round_nonneg; apply Qmult_le_0_compat; lra]).
    + destruct (Qltb 200 avg) eqn:E2.
      * apply Qltb_true in E2. rewrite (js_div_pos 180 avg Hpos). cbn [obind].
        assert (Hred : 0 < 180 / avg /\ 180 / avg <= 1).
        { split; [apply Qlt_shift_div_l; [exact Hpos|lra]|].
          apply Qle_shift_div_r; [exact Hpos|lra]. }
        destruct Hred as [Hred0 Hred1].
        do 3 eexists. split; [reflexivity|].
        repeat split; try apply js_max_ge_l;
          (apply js_max_lub; [lra|apply (js_round_le 255); change (inject_Z 255) with 255; nra]).
      * do 3 eexists. split; [reflexivity|]. repeat split; assumption.
Qed.

Lemma correctColorForLighting_range_witness :
  (40 + 30 + 20 == 0 -> correctColorForLighting 40 30 20 = None) /\
  (~ 40 + 30 + 20 == 0 ->
   exists r' g' b',
     correctColorForLighting 40 30 20 = Some (r', g', b') /\
     (0 <= r' /\ r' <= 255) /\ (0 <= g' /\ g' <= 255) /\ (0 <= b' /\ b' <= 255)).
Proof.
  apply (correctColorForLighting_range 40 30 20); split; vm_compute; discriminate.
Defined.

End LightingFacts.

Section GreyFacts.
Local Open Scope Q_scope.

Lemma js_round_int (n : Z) (x : Q) : x == inject_Z n -> js_round x = inject_Z n.
Proof.
  intros H. unfold js_round. f_equal. rewrite H.
  rewrite <- (Qfloor_Z n) at 2. 
  apply Z.le_antisymm.
  - assert (Hlt : inject_Z n + (1 # 2) < inject_Z (n + 1)).
    { rewrite inject_Z_plus. change (inject_Z 1) with 1. lra. }
    pose proof (Qfloor_le (inject_Z n + (1 # 2))) as Hf.
    assert (Hz : inject_Z (Qfloor (inject_Z n + (1 # 2))) < inject_Z (n + 1)) by lra.
    rewrite <- Zlt_Qlt in Hz. rewrite Qfloor_Z. lia.
  - apply Qfloor_resp_le. lra.
Qed.

(** X19: a grey pixel stays grey: [(v, v, v)] with [v] positive is
    mapped to 150 on all channels when [v] is below 100, to 180 when [v]
    is above 200, and is returned unchanged in between. *)
Theorem correctColorForLighting_grey (v : Q) :
  0 < v ->
  correctColorForLighting v v v
  = Some (if Qltb v 100 then (150, 150, 150)
          else if Qltb 200 v then (180, 180, 180)
          else (v, v, v)).
Proof.
  intros Hv. unfold correctColorForLighting. cbv zeta.
  assert (Eavg : (v + v + v) / 3 == v) by field.
  assert (E1 : Qltb ((v + v + v) / 3) 100 = Qltb v 100).
  { unfold Qltb. f_equal. destruct (Qle_bool 100 v) eqn:E.
    - apply Qle_bool_iff. rewrite Eavg. apply Qle_bool_iff. exact E.
    - destruct (Qle_bool 100 ((v + v + v) / 3)) eqn:E'; [|reflexivity].
      apply Qle_bool_iff in E'. rewrite Eavg in E'. apply Qle_bool_iff in E'. congruence. }
  assert (E2 : Qltb 200 ((v + v + v) / 3) = Qltb 200 v).
  { unfold Qltb. f_equal. destruct (Qle_bool v 200) eqn:E.
    - apply Qle_bool_iff. rewrite Eavg. apply Qle_bool_iff. exact E.
    - destruct (Qle_bool ((v + v + v) / 3) 200) eqn:E'; [|reflexivity].
      apply Qle_bool_iff in E'. rewrite Eavg in E'. apply Qle_bool_iff in E'. congruence. }
  rewrite E1, E2.
  assert (Hpos : 0 < (v + v + v) / 3) by (rewrite Eavg; exact Hv).
  destruct (Qltb v 100) eqn:Hd.
  - rewrite (js_div_pos 150 _ Hpos). cbn [obind].
    assert (R : js_round (v * (150 / ((v + v + v) / 3))) = 150).
    { apply (js_round_int 150). change (inject_Z 150) with 150. field. lra. }
    rewrite R. reflexivity.
  - destruct (Qltb 200 v) eqn:Hb; [|reflexivity].
    rewrite (js_div_pos 180 _ Hpos). cbn [obind].
    assert (R : js_round (v * (180 / ((v + v + v) / 3))) = 180).
    { apply (js_round_int 180). change (inject_Z 180) with 180. field. lra. }
    rewrite R. reflexivity.
Qed.

Lemma correctColorForLighting_grey_witness :
  correctColorForLighting 64 64 64
  = Some (if Qltb 64 100 then (150, 150, 150)
          else if Qltb 200 64 then (180, 180, 180)
          else (64, 64, 64)).
Proof.
  apply (correctColorForLighting_grey 64). reflexivity.
Defined.

End GreyFacts.

Section CalibrationFacts.
Local Open Scope Q_scope.

Lemma clamp_range (x : Q) : 0 <= js_min 255 (js_max 0 x) /\ js_min 255 (js_max 0 x) <= 255.
Proof.
  split; [|apply js_min_le_l].
  apply js_min_glb; [lra|apply js_max_ge_l].
Qed.

Lemma clamp_inside (x : Q) : 0 <= x -> x <= 255 -> js_min 255 (js_max 0 x) == x.
Proof.
  intros H0 H1. unfold js_max.
  destruct (Qle_bool 0 x) eqn:E; [|apply Qle_bool_false in E; lra].
  unfold js_min. destruct (Qle_bool 255 x) eqn:E'; [|reflexivity].
  apply Qle_bool_iff in E'. lra.
Qed.

(** X20: with a calibration whose three colour balances are positive,
    [applyColorCalibration] performs no division by zero and returns
    channels clamped to the range from 0 to 255; a channel is the plain
    quotient by its balance whenever that quotient lies in the range. *)
Theorem applyColorCalibration_range (cd : Calibration) (r g b : Q) :
  0 < colorBalance_r cd -> 0 < colorBalance_g cd -> 0 < colorBalance_b cd ->
  exists r' g' b',
    applyColorCalibration (Some cd) r g b = Some (r', g', b') /\
    (0 <= r' /\ r' <= 255) /\ (0 <= g' /\ g' <= 255) /\ (0 <= b' /\ b' <= 255) /\
    (0 <= r -> r <= 255 * colorBalance_r cd -> r' == r / colorBalance_r cd) /\
    (0 <= g -> g <= 255 * colorBalance_g cd -> g' == g / colorBalance_g cd) /\
    (0 <= b -> b <= 255 * colorBalance_b cd -> b' == b / colorBalance_b cd).
Proof.
  intros Hr Hg Hb. unfold applyColorCalibration.
  rewrite (js_div_pos r _ Hr), (js_div_pos g _ Hg), (js_div_pos b _ Hb). cbn [obind].
  do 3 eexists. split; [reflexivity|].
  split; [apply clamp_range|]. split; [apply clamp_range|]. split; [apply clamp_range|].
  repeat split; intros H0 H1; apply clamp_inside;
    try (apply Qle_shift_div_l; [assumption|lra]);
    (apply Qle_shift_div_r; [assumption|lra]).
Qed.

Lemma applyColorCalibration_range_witness :
  exists r' g' b',
    applyColorCalibration (Some (mkCalibration 120 (11 # 10) 1 (9 # 10))) 200 100 250
      = Some (r', g', b') /\
    (0 <= r' /\ r' <= 255) /\ (0 <= g' /\ g' <= 255) /\ (0 <= b' /\ b' <= 255) /\
    (0 <= 200 -> 200 <= 255 * colorBalance_r (mkCalibration 120 (11 # 10) 1 (9 # 10)) ->
       r' == 200 / colorBalance_r (mkCalibration 120 (11 # 10) 1 (9 # 10))) /\
    (0 <= 100 -> 100 <= 255 * colorBalance_g (mkCalibration 120 (11 # 10) 1 (9 # 10)) ->
       g' == 100 / colorBalance_g (mkCalibration 120 (11 # 10) 1 (9 # 10))) /\
    (0 <= 250 -> 250 <= 255 * colorBalance_b (mkCalibration 120 (11 # 10) 1 (9 # 10)) ->
       b' == 250 / colorBalance_b (mkCalibration 120 (11 # 10) 1 (9 # 10))).
Proof.
  apply (applyColorCalibration_range (mkCalibration 120 (11 # 10) 1 (9 # 10)) 200 100 250);
    reflexivity.
Defined.





End CalibrationFacts.

Section HueFacts.
Local Open Scope Q_scope.





End HueFacts.

Section ConfidenceFacts.
Local Open Scope Q_scope.

Variable pow : Q -> Q -> Q.

Lemma js_div_nonzero (x d : Q) : ~ d == 0 -> js_div x d = Some (x / d).
Proof.
  intros H. unfold js_div. destruct (Qeq_bool d 0) eqn:E; [|reflexivity].
  apply Qeq_bool_iff in E. contradiction.
Qed.

Lemma rgbToHsv_total (r g b : Q) : exists h s v, rgbToHsv r g b = Some (h, s, v).
Proof.
  unfold rgbToHsv. cbv zeta.
  set (mx := js_max3 (r / 255) (g / 255) (b / 255)).
  set (mn := js_min3 (r / 255) (g / 255) (b / 255)).
  assert (HS : exists s, (if Qeq_bool mx 0 then Some 0 else js_div (mx - mn) mx) = Some s).
  { destruct (Qeq_bool mx 0) eqn:E0; [eexists; reflexivity|].
    rewrite js_div_nonzero; [eexists; reflexivity|].
    intros E. apply Qeq_bool_iff in E. congruence. }
  destruct HS as (s & ->). cbn [obind].
  destruct (Qeq_bool (mx - mn) 0) eqn:Ed; cbn [negb obind]; [do 3 eexists; reflexivity|].
  assert (D : forall x, js_div x (mx - mn) = Some (x / (mx - mn))).
  { intros x. apply js_div_nonzero. intros E. apply Qeq_bool_iff in E. congruence. }
  rewrite !D. cbn [obind].
  destruct (Qeq_bool mx (r / 255)); [do 3 eexists; reflexivity|].
  destruct (Qeq_bool mx (g / 255)); [do 3 eexists; reflexivity|].
  destruct (Qeq_bool mx (b / 255)); do 3 eexists; reflexivity.
Qed.

Lemma bump_range (c : bool) (x lo hi conf : Q) :
  0 <= x -> lo <= conf -> conf <= hi -> lo <= bump c x conf /\ bump c x conf <= hi + x.
Proof. intros Hx H0 H1. unfold bump. destruct c; split; lra. Qed.

Lemma bump_nonneg (c : bool) (x conf : Q) : 0 <= x -> 0 <= conf -> 0 <= bump c x conf.
Proof. intros Hx H0. unfold bump. destruct c; lra. Qed.

Lemma final_confidence (conf : Q) :
  0 <= conf ->
  0 <= js_min 1.0 (if Qltb 0.7 conf then js_min 1.0 (conf * 1.15) else conf) /\
  js_min 1.0 (if Qltb 0.7 conf then js_min 1.0 (conf * 1.15) else conf) <= 1.
Proof.
  intros H. split; [|eapply Qle_trans; [apply js_min_le_l|lra]].
  apply js_min_glb; [lra|]. destruct (Qltb 0.7 conf); [|exact H].
  apply js_min_glb; lra.
Qed.

Lemma getColorConfidenceRevolutionary_range (color : Color) (r g b : Q) :
  exists confidence,
    getColorConfidenceRevolutionary pow color r g b = Some confidence /\
    0 <= confidence /\ confidence <= 1.
Proof.
  destruct (rgbToHsv_total r g b) as (h & s & v & E).
  unfold getColorConfidenceRevolutionary.
  destruct color;
    try (rewrite E; cbn [obind]; destruct (rgbToLab pow r g b) as [[l a] b_lab]; cbv zeta;
         eexists; split; [reflexivity|];
         split; apply final_confidence;
         repeat (apply bump_nonneg; [lra|]); lra).
  exists 0. repeat split; lra.
Qed.

(** X23: whatever [Math.pow] returns, [getColorConfidenceRevolutionary]
    is defined for every label and every colour and lies between 0 and 1;
    it is 0 for the label ['unknown']. *)
Theorem confidence_in_unit_interval (color : Color) (r g b : Q) :
  exists confidence,
    getColorConfidenceRevolutionary pow color r g b = Some confidence /\
    0 <= confidence /\ confidence <= 1 /\
    (color = Unknown -> confidence = 0).
Proof.
  destruct (getColorConfidenceRevolutionary_range color r g b) as (c & E & H0 & H1).
  exists c. split; [exact E|]. split; [exact H0|]. split; [exact H1|].
  intros ->. cbn in E. injection E as <-. reflexivity.
Qed.

End ConfidenceFacts.

(* ================================================================== *)
(** * Part XXIII: scores, the RGB detector and saving a face           *)
(* ================================================================== *)

Section MoreScoreFacts.
Local Open Scope Q_scope.

Lemma js_min_mono_r (a b b' : Q) : b <= b' -> js_min a b <= js_min a b'.
Proof.
  intros H. apply js_min_glb.
  - apply js_min_le_l.
  - eapply Qle_trans; [apply js_min_le_r|exact H].
Qed.

Lemma js_round_mono (x y : Q) : x <= y -> js_round x <= js_round y.
Proof.
  intros H. unfold js_round. rewrite <- Zle_Qle. apply Qfloor_resp_le. lra.
Qed.

(** X24: for a confidence total that is not negative,
    [calculateAlignmentScore] is a whole number between 0 and 100, and it
    does not decrease when the number of valid detections or the
    confidence total grows. *)
Theorem alignment_score_integer_monotone
    (validDetections validDetections' : nat) (totalConfidence totalConfidence' : Q)
    (colors : ColorGrid) :
  0 <= totalConfidence -> totalConfidence <= totalConfidence' ->
  (validDetections <= validDetections')%nat ->
  (exists z, calculateAlignmentScore validDetections totalConfidence colors = inject_Z z
             /\ (0 <= z <= 100)%Z) /\
  calculateAlignmentScore validDetections totalConfidence colors
  <= calculateAlignmentScore validDetections' totalConfidence' colors.
Proof.
  intros H0 Htc Hvd. unfold calculateAlignmentScore.
  destruct (length colors =? 0)%nat.
  { split; [exists 0%Z; split; [reflexivity|lia]|lra]. }
  cbv zeta.
  set (d := js_min 10 (Qnat (length (countColors notUnknown (flat colors))) * 2)).
  assert (Hd : 0 <= d).
  { apply js_min_glb; [lra|]. pose proof (Qnat_nonneg (length (countColors notUnknown (flat colors)))). lra. }
  pose proof (Qnat_nonneg validDetections) as Hv.
  pose proof (Qnat_ge validDetections' validDetections Hvd) as Hv'.
  assert (Hc : 0 <= js_min 30 (totalConfidence / 9 * 30)).
  { apply js_min_glb; [lra|]. 
    assert (0 <= totalConfidence / 9) by (apply Qle_shift_div_l; lra). lra. }
  assert (Hc' : js_min 30 (totalConfidence / 9 * 30) <= js_min 30 (totalConfidence' / 9 * 30)).
  { apply js_min_mono_r.
    assert (totalConfidence / 9 <= totalConfidence' / 9).
    { apply Qle_shift_div_l; [lra|]. 
      setoid_replace (totalConfidence / 9 * 9) with totalConfidence by field. exact Htc. }
    lra. }
  assert (Hq : 0 <= Qnat validDetections / 9 /\ Qnat validDetections / 9 <= Qnat validDetections' / 9).
  { split; [apply Qle_shift_div_l; lra|].
    apply Qle_shift_div_l; [lra|].
    setoid_replace (Qnat validDetections / 9 * 9) with (Qnat validDetections) by field. exact Hv'. }
  destruct Hq as [Hq0 Hq1].
  split.
  - set (total := Qnat validDetections / 9 * 60 + js_min 30 (totalConfidence / 9 * 30) + d) in *.
    assert (Ht : 0 <= total) by (unfold total; lra).
    unfold js_min at 1. destruct (Qle_bool 100 (js_round total)) eqn:E.
    + exists 100%Z. split; [reflexivity|lia].
    + apply Qle_bool_false in E. unfold js_round in *. eexists. split; [reflexivity|].
      change 100 with (inject_Z 100) in E. rewrite <- Zlt_Qlt in E.
      split; [|lia]. rewrite <- (Qfloor_Z 0). apply Qfloor_resp_le.
      change (inject_Z 0) with 0. lra.
  - apply js_min_mono_r. apply js_round_mono. lra.
Qed.

Lemma alignment_score_integer_monotone_witness :
  (exists z, calculateAlignmentScore 4 (5 # 2) (uniformColors Red) = inject_Z z
             /\ (0 <= z <= 100)%Z) /\
  calculateAlignmentScore 4 (5 # 2) (uniformColors Red)
  <= calculateAlignmentScore 7 (6 # 1) (uniformColors Red).
Proof.
  apply (alignment_score_integer_monotone 4 7 (5 # 2) (6 # 1) (uniformColors Red));
    [vm_compute; discriminate | vm_compute; discriminate | lia].
Defined.

End MoreScoreFacts.

Section DetectorFacts.
Local Open Scope Q_scope.

Ltac bools H :=
  repeat match type of H with
         | (_ && _)%bool = true => let H1 := fresh H in
                                    apply andb_true_iff in H; destruct H as [H H1];
                                    try (apply Qltb_true in H1)
         end;
  try (apply Qltb_true in H).

(** X25: on channels that are not negative, the label that
    [detectColorRGB] returns names the dominant channels: red when red
    exceeds 150 and both others, orange only with [b < g < r] and
    [r - g < 40], yellow only with red and green above 140 and blue below
    100, green or blue only when that channel exceeds 120 and both others,
    white only for an average above 200 with a spread below 40.  A grey
    is white when brighter than 200 and unknown otherwise. *)
Theorem detectColorRGB_dominant (r g b : Q) :
  0 <= r -> 0 <= g -> 0 <= b ->
  match detectColorRGB r g b with
  | White => 200 < (r + g + b) / 3 /\ js_max3 r g b - js_min3 r g b < 40
  | Red => 150 < r /\ g < r /\ b < r
  | Orange => b < g /\ g < r /\ r - g < 40
  | Yellow => 140 < r /\ 140 < g /\ b < 100
  | Green => 120 < g /\ r < g /\ b < g
  | Blue => 120 < b /\ r < b /\ g < b
  | Unknown => True
  end /\
  (r == g -> g == b ->
   detectColorRGB r g b = if Qltb 200 r then White else Unknown).
Proof.
  intros Hr Hg Hb. split.
  - unfold detectColorRGB. cbv zeta.
    destruct (Qltb 200 ((r + g + b) / 3) && Qltb (js_max3 r g b - js_min3 r g b) 40)%bool eqn:E1.
    { bools E1. split; assumption. }
    destruct (Qltb ((r + g + b) / 3) 50) eqn:E2; [exact I|].
    match goal with |- context [if ?c then Red else _] => destruct c eqn:E3 end.
    { bools E3. repeat split; lra. }
    match goal with |- context [if ?c then Orange else _] => destruct c eqn:E4 end.
    { bools E4. repeat split; lra. }
    match goal with |- context [if ?c then Yellow else _] => destruct c eqn:E5 end.
    { bools E5. repeat split; lra. }
    match goal with |- context [if ?c then Green else _] => destruct c eqn:E6 end.
    { bools E6. repeat split; lra. }
    match goal with |- context [if ?c then Blue else _] => destruct c eqn:E7 end.
    { bools E7. repeat split; lra. }
    exact I.
  - intros E1 E2. unfold detectColorRGB. cbv zeta.
    destruct (js_max3_spec r g b) as (M1 & M2 & M3 & M4).
    destruct (js_min3_spec r g b) as (m1 & m2 & m3 & m4).
    assert (Hd : js_max3 r g b - js_min3 r g b == 0).
    { assert (M4' : js_max3 r g b == r \/ js_max3 r g b == g \/ js_max3 r g b == b).
      { destruct M4 as [E|[E|E]]; [left|right; left|right; right]; rewrite E; reflexivity. }
      assert (m4' : js_min3 r g b == r \/ js_min3 r g b == g \/ js_min3 r g b == b).
      { destruct m4 as [E|[E|E]]; [left|right; left|right; right]; rewrite E; reflexivity. }
      destruct M4' as [E|[E|E]], m4' as [E'|[E'|E']]; lra. }
    assert (Ed : Qltb (js_max3 r g b - js_min3 r g b) 40 = true) by (apply Qltb_true; lra).
    rewrite Ed, andb_true_r.
    assert (Eavg : (r + g + b) / 3 == r) by (rewrite <- E2, <- E1; field).
    destruct (Qltb 200 r) eqn:Er.
    + apply Qltb_true in Er.
      assert (Ea : Qltb 200 ((r + g + b) / 3) = true) by (apply Qltb_true; lra).
      rewrite Ea. reflexivity.
    + apply Qltb_false in Er.
      assert (Ea : Qltb 200 ((r + g + b) / 3) = false) by (apply Qltb_false; lra).
      rewrite Ea.
      destruct (Qltb ((r + g + b) / 3) 50); [reflexivity|].
      assert (F1 : Qltb (g * 2.2) r = false) by (apply Qltb_false; lra).
      assert (F2 : Qltb g r = false) by (apply Qltb_false; lra).
      assert (F3 : Qltb b 100 && Qltb 140 r = false).
      { destruct (Qltb b 100) eqn:A; [|reflexivity]. apply Qltb_true in A.
        apply Qltb_false. lra. }
      assert (F4 : Qltb (r * 1.3) g = false) by (apply Qltb_false; lra).
      assert (F5 : Qltb (r * 1.3) b = false) by (apply Qltb_false; lra).
      rewrite F1, F2, F4, F5. rewrite !andb_false_r. cbn [andb].
      destruct (Qltb 140 r) eqn:A.
      * rewrite andb_true_r in F3. 
        destruct (Qltb 140 g); cbn [andb]; [rewrite F3|]; cbn [andb];
          rewrite ?andb_false_r; reflexivity.
      * cbn [andb]. rewrite ?andb_false_r. reflexivity.
Qed.

Lemma detectColorRGB_dominant_witness :
  match detectColorRGB 30 200 40 with
  | White => 200 < (30 + 200 + 40) / 3 /\ js_max3 30 200 40 - js_min3 30 200 40 < 40
  | Red => 150 < 30 /\ 200 < 30 /\ 40 < 30
  | Orange => 40 < 200 /\ 200 < 30 /\ 30 - 200 < 40
  | Yellow => 140 < 30 /\ 140 < 200 /\ 40 < 100
  | Green => 120 < 200 /\ 30 < 200 /\ 40 < 200
  | Blue => 120 < 40 /\ 30 < 40 /\ 200 < 40
  | Unknown => True
  end /\
  (30 == 200 -> 200 == 40 ->
   detectColorRGB 30 200 40 = if Qltb 200 30 then White else Unknown).
Proof.
  apply (detectColorRGB_dominant 30 200 40); vm_compute; discriminate.
Defined.

End DetectorFacts.

Section SaveFacts.
Local Open Scope Q_scope.

Lemma length_flat_3x3 (colors : ColorGrid) : is3x3 colors -> length (flat colors) = 9%nat.
Proof.
  intros H. apply is3x3_inv in H.
  destruct H as (a & b & c & d & e & f & g & h & i & ->). reflexivity.
Qed.

Lemma rate_exceeds (n : nat) (x : Q) :
  x * 9 < Qnat n -> exceeds (js_div (Qnat n) (Qnat 9)) x = true.
Proof.
  intros H. rewrite js_div_pos by reflexivity. cbn [exceeds].
  apply Qltb_true. apply Qlt_shift_div_l; [reflexivity|]. exact H.
Qed.

Lemma isFaceValid_3x3 (c : Capture) :
  is3x3 (faceColors c) ->
  isFaceValid c
  = cubeDetected c
    && (if (faceIndex c =? 5)%nat
        then (4 <=? knownLabels (faceColors c))%nat && Qltb 30 (alignmentScore c)
        else (6 <=? knownLabels (faceColors c))%nat && Qltb 50 (alignmentScore c)).
Proof.
  intros H. unfold isFaceValid, knownLabels. cbv zeta.
  rewrite (length_flat_3x3 _ H). destruct H as [Hl _]. rewrite Hl. cbn [Nat.eqb].
  destruct (cubeDetected c); cbn [negb andb]; [|reflexivity].
  set (n := length (filter notUnknown (flat (faceColors c)))).
  destruct (faceIndex c =? 5)%nat.
  - destruct (4 <=? n)%nat eqn:E; cbn [andb]; [|reflexivity].
    apply Nat.leb_le in E. rewrite rate_exceeds; [rewrite andb_true_r; reflexivity|].
    assert (Qnat 4 <= Qnat n) by (apply Qnat_ge; exact E).
    change (Qnat 4) with 4 in H. lra.
  - destruct (6 <=? n)%nat eqn:E; cbn [andb]; [|reflexivity].
    apply Nat.leb_le in E. rewrite rate_exceeds; [rewrite andb_true_r; reflexivity|].
    assert (Qnat 6 <= Qnat n) by (apply Qnat_ge; exact E).
    change (Qnat 6) with 6 in H. lra.
Qed.

(** X26: on a 3x3 capture the detection-rate test of [isFaceValid]
    never decides: the face is valid exactly when a cube is detected and
    the known labels and the alignment score pass the thresholds (4 and
    30 for face index 5, 6 and 50 otherwise).  [handleSave] hands a face
    to [onSaveFace] exactly when the callback exists, a cube is detected,
    at least six labels are known and the score passes the threshold of
    the face, so the lenient count for face index 5 never leads to a
    save; the saved object carries the grid, the time and one ninth of
    the confidence total, and names one face exactly when the index is
    below 6. *)
Theorem face_saved_iff (now : Z) (c : Capture) :
  is3x3 (faceColors c) ->
  (isFaceValid c = true <->
     cubeDetected c = true /\
     if (faceIndex c =? 5)%nat
     then (4 <= knownLabels (faceColors c))%nat /\ 30 < alignmentScore c
     else (6 <= knownLabels (faceColors c))%nat /\ 50 < alignmentScore c) /\
  ((exists faceData, handleSave now c = Saved faceData) <->
     hasOnSaveFace c = true /\ cubeDetected c = true /\
     (6 <= knownLabels (faceColors c))%nat /\
     (if (faceIndex c =? 5)%nat then 30 else 50) < alignmentScore c) /\
  (forall faceData, handleSave now c = Saved faceData ->
     fd_colors faceData = faceColors c /\ fd_timestamp faceData = now /\
     fd_confidence faceData == totalConfidence c / 9 /\
     count_occ bool_dec (fd_faceMapping faceData) true = (if (faceIndex c <? 6)%nat then 1 else 0)%nat).
Proof.
  intros H. pose proof (isFaceValid_3x3 c H) as EV.
  assert (V : isFaceValid c = true <->
     cubeDetected c = true /\
     if (faceIndex c =? 5)%nat
     then (4 <= knownLabels (faceColors c))%nat /\ 30 < alignmentScore c
     else (6 <= knownLabels (faceColors c))%nat /\ 50 < alignmentScore c).
  { rewrite EV. rewrite andb_true_iff.
    destruct (faceIndex c =? 5)%nat; rewrite andb_true_iff, Nat.leb_le, Qltb_true; tauto. }
  split; [exact V|].
  unfold handleSave. cbv zeta. fold (knownLabels (faceColors c)).
  split; [split|].
  - intros [fd E].
    destruct (isFaceValid c) eqn:Ev; cbn [negb] in E; [|discriminate].
    destruct (knownLabels (faceColors c) <? 6)%nat eqn:E6; [discriminate|].
    apply Nat.ltb_ge in E6.
    destruct (hasOnSaveFace c); [|discriminate].
    destruct V as [V _]. destruct (V eq_refl) as [Hc Hs].
    repeat split; try assumption.
    destruct (faceIndex c =? 5)%nat; tauto.
  - intros (Hcb & Hc & H6 & Hs).
    assert (Ev : isFaceValid c = true).
    { apply V. split; [exact Hc|].
      destruct (faceIndex c =? 5)%nat; split; (lia || exact Hs). }
    rewrite Ev. cbn [negb].
    assert (E6 : (knownLabels (faceColors c) <? 6)%nat = false) by (apply Nat.ltb_ge; exact H6).
    rewrite E6, Hcb. eexists. reflexivity.
  - intros fd E.
    destruct (negb (isFaceValid c)); [discriminate|].
    destruct (knownLabels (faceColors c) <? 6)%nat; [discriminate|].
    destruct (hasOnSaveFace c); [|discriminate].
    injection E as <-. cbn [fd_colors fd_timestamp fd_confidence fd_faceMapping].
    repeat split; try reflexivity.
    destruct (faceIndex c) as [|[|[|[|[|[|n]]]]]]; reflexivity.
Qed.

Lemma face_saved_iff_witness :
  (isFaceValid sparseCapture = true <->
     cubeDetected sparseCapture = true /\
     if (faceIndex sparseCapture =? 5)%nat
     then (4 <= knownLabels (faceColors sparseCapture))%nat
          /\ 30 < alignmentScore sparseCapture
     else (6 <= knownLabels (faceColors sparseCapture))%nat
          /\ 50 < alignmentScore sparseCapture) /\
  ((exists faceData, handleSave 7 sparseCapture = Saved faceData) <->
     hasOnSaveFace sparseCapture = true /\
     cubeDetected sparseCapture = true /\
     (6 <= knownLabels (faceColors sparseCapture))%nat /\
     (if (faceIndex sparseCapture =? 5)%nat then 30 else 50)
       < alignmentScore sparseCapture) /\
  (forall faceData, handleSave 7 sparseCapture = Saved faceData ->
     fd_colors faceData = faceColors sparseCapture /\
     fd_timestamp faceData = 7%Z /\
     fd_confidence faceData == totalConfidence sparseCapture / 9 /\
     count_occ bool_dec (fd_faceMapping faceData) true
     = (if (faceIndex sparseCapture <? 6)%nat then 1 else 0)%nat).
Proof.
  apply (face_saved_iff 7 sparseCapture).
  split; [reflexivity|repeat constructor].
Defined.

End SaveFacts.

Section GridFacts.
Local Open Scope Q_scope.

(** X27: for a frame of positive width and height, [createBasicGrid]
    returns a square centred in the frame and strictly inside it, and the
    nine points at which [analyzeColorsOptimized] samples the facelets
    lie strictly inside that square; mirror mode exchanges the first and
    the last column. *)
Theorem basic_grid_inside_frame (width height : Q) (mirrorMode : bool) (row col : nat) :
  0 < width -> 0 < height -> (row < 3)%nat -> (col < 3)%nat ->
  let grid := createBasicGrid width height in
  let center := faceletCenter grid mirrorMode row col in
  0 < gb_width grid /\ gb_width grid == gb_height grid /\
  gb_x grid + gb_width grid / 2 == width / 2 /\
  gb_y grid + gb_height grid / 2 == height / 2 /\
  0 < gb_x grid /\ gb_x grid + gb_width grid < width /\
  0 < gb_y grid /\ gb_y grid + gb_height grid < height /\
  gb_x grid < fst center /\ fst center < gb_x grid + gb_width grid /\
  gb_y grid < snd center /\ snd center < gb_y grid + gb_height grid /\
  fst center == fst (faceletCenter grid (negb mirrorMode) row (2 - col)).
Proof.
  intros Hw Hh Hrow Hcol. cbv zeta.
  unfold createBasicGrid, faceletCenter. cbv zeta.
  cbn [gb_x gb_y gb_width gb_height gb_area fst snd].
  destruct (js_min_spec width height) as (m1 & m2 & m3).
  assert (Hm : 0 < js_min width height) by (destruct m3 as [-> | ->]; assumption).
  set (m := js_min width height) in *. clearbody m.
  assert (Hrow' : Qnat row == 0 \/ Qnat row == 1 \/ Qnat row == 2).
  { destruct row as [|[|[|row]]]; [left|right; left|right; right|lia]; reflexivity. }
  assert (Hcols : (inject_Z (Z.of_nat col) == 0 /\ inject_Z (2 - Z.of_nat col) == 2 /\
                   inject_Z (Z.of_nat (2 - col)) == 2 /\ inject_Z (2 - Z.of_nat (2 - col)) == 0) \/
                  (inject_Z (Z.of_nat col) == 1 /\ inject_Z (2 - Z.of_nat col) == 1 /\
                   inject_Z (Z.of_nat (2 - col)) == 1 /\ inject_Z (2 - Z.of_nat (2 - col)) == 1) \/
                  (inject_Z (Z.of_nat col) == 2 /\ inject_Z (2 - Z.of_nat col) == 0 /\
                   inject_Z (Z.of_nat (2 - col)) == 0 /\ inject_Z (2 - Z.of_nat (2 - col)) == 2)).
  { destruct col as [|[|[|col]]]; [left|right; left|right; right|lia]; repeat split; reflexivity. }
  assert (Hs2 : m * 0.4 / 3 / 2 == m * (1 # 15)) by field.
  assert (Hs : m * 0.4 / 3 == m * (2 # 15)) by field.
  assert (Hg2 : m * 0.4 / 2 == m * (1 # 5)) by field.
  assert (Hg : m * 0.4 == m * (2 # 5)) by field.
  assert (Hw2 : width / 2 == width * (1 # 2)) by field.
  assert (Hh2 : height / 2 == height * (1 # 2)) by field.
  set (fs2 := m * 0.4 / 3 / 2) in *. set (fs := m * 0.4 / 3) in *.
  set (g2 := m * 0.4 / 2) in *. set (gs := m * 0.4) in *.
  set (w2 := width / 2) in *. set (h2 := height / 2) in *.
  clearbody fs2 fs g2 gs w2 h2.
  repeat split; try lra;
    try (destruct mirrorMode; cbn [negb];
         destruct Hcols as [(C1 & C2 & C3 & C4)|[(C1 & C2 & C3 & C4)|(C1 & C2 & C3 & C4)]];
         rewrite ?C1, ?C2, ?C3, ?C4; lra);
    try (destruct Hrow' as [R|[R|R]]; rewrite R; lra).
Qed.

End GridFacts.

Lemma basic_grid_inside_frame_witness :
  (0 < gb_width (createBasicGrid 640 480) /\
   gb_width (createBasicGrid 640 480) == gb_height (createBasicGrid 640 480) /\
   gb_x (createBasicGrid 640 480) + gb_width (createBasicGrid 640 480) / 2 == 640 / 2 /\
   gb_y (createBasicGrid 640 480) + gb_height (createBasicGrid 640 480) / 2 == 480 / 2 /\
   0 < gb_x (createBasicGrid 640 480) /\
   gb_x (createBasicGrid 640 480) + gb_width (createBasicGrid 640 480) < 640 /\
   0 < gb_y (createBasicGrid 640 480) /\
   gb_y (createBasicGrid 640 480) + gb_height (createBasicGrid 640 480) < 480 /\
   gb_x (createBasicGrid 640 480) < fst (faceletCenter (createBasicGrid 640 480) true 1 2) /\
   fst (faceletCenter (createBasicGrid 640 480) true 1 2)
     < gb_x (createBasicGrid 640 480) + gb_width (createBasicGrid 640 480) /\
   gb_y (createBasicGrid 640 480) < snd (faceletCenter (createBasicGrid 640 480) true 1 2) /\
   snd (faceletCenter (createBasicGrid 640 480) true 1 2)
     < gb_y (createBasicGrid 640 480) + gb_height (createBasicGrid 640 480) /\
   fst (faceletCenter (createBasicGrid 640 480) true 1 2)
     == fst (faceletCenter (createBasicGrid 640 480) (negb true) 1 (2 - 2)))%Q.
Proof.
  apply (basic_grid_inside_frame 640 480 true 1 2); [reflexivity|reflexivity|lia|lia].
Defined.

(* ================================================================== *)
(** * Part XXIV: more on the corrector, and the analysis of a frame    *)
(* ================================================================== *)

Lemma map_mapi_from {A B C} (h : B -> C) (h' : A -> C) (F : nat -> A -> B) (k : nat) (l : list A) :
  (forall n x, h (F n x) = h' x) -> map h (mapi_from F k l) = map h' l.
Proof.
  intros H. revert k. induction l as [|x l IH]; intros k; [reflexivity|].
  cbn [mapi_from map]. rewrite H, IH. reflexivity.
Qed.

Lemma mask_mapGrid (c : Color) (f : nat -> nat -> Color -> Color) (colors : ColorGrid) :
  (forall i j x, Color_eqb (f i j x) c = Color_eqb x c) ->
  mask c (mapGrid f colors) = mask c colors.
Proof.
  intros H. unfold mask, mapGrid. apply map_mapi_from. intros i row.
  apply map_mapi_from. intros j x. apply H.
Qed.

Lemma mask_replaceInRow (c from to : Color) (limit changed : nat) (row : list Color) :
  c <> from -> c <> to ->
  map (fun x => Color_eqb x c) (fst (replaceInRow from to limit changed row))
  = map (fun x => Color_eqb x c) row.
Proof.
  intros Hf Ht. revert changed. induction row as [|x row IH]; intros changed; [reflexivity|].
  cbn [replaceInRow]. destruct (changed <? limit); [|reflexivity].
  destruct (Color_eqb x from) eqn:E.
  - specialize (IH (S changed)). destruct (replaceInRow from to limit (S changed) row) as [t' n].
    cbn [fst map] in *. rewrite IH. f_equal.
    apply Color_eqb_eq in E. subst x.
    assert (E1 : Color_eqb to c = false) by (apply Color_eqb_neq; congruence).
    assert (E2 : Color_eqb from c = false) by (apply Color_eqb_neq; congruence).
    rewrite E1, E2. reflexivity.
  - specialize (IH changed). destruct (replaceInRow from to limit changed row) as [t' n].
    cbn [fst map] in *. rewrite IH. reflexivity.
Qed.

Lemma mask_replaceInGrid (c from to : Color) (limit changed : nat) (colors : ColorGrid) :
  c <> from -> c <> to ->
  mask c (replaceInGrid from to limit changed colors) = mask c colors.
Proof.
  intros Hf Ht. revert changed. induction colors as [|row colors IH]; intros changed; [reflexivity|].
  cbn [replaceInGrid]. destruct (changed <? limit); [|reflexivity].
  pose proof (mask_replaceInRow c from to limit changed row Hf Ht) as Hrow.
  destruct (replaceInRow from to limit changed row) as [row' n]. cbn [fst] in Hrow.
  unfold mask in *. cbn [map]. rewrite Hrow, IH. reflexivity.
Qed.

Lemma fold_left_invariant {A B} (P : A -> Prop) (f : A -> B -> A) (l : list B) (a : A) :
  P a -> (forall x e, P x -> P (f x e)) -> P (fold_left f l a).
Proof.
  intros Ha Hf. revert a Ha. induction l as [|e l IH]; intros a Ha; [exact Ha|].
  cbn [fold_left]. apply IH. apply Hf. exact Ha.
Qed.

Lemma mask_validateAndCorrectColors (c : Color) (colors : ColorGrid) :
  c = Green \/ c = Unknown \/ c = Blue \/ c = White ->
  mask c (validateAndCorrectColors colors) = mask c colors.
Proof.
  intros Hc. unfold validateAndCorrectColors.
  destruct (length colors =? 0); [reflexivity|].
  apply (fold_left_invariant (fun x => mask c x = mask c colors)); [reflexivity|].
  intros x [color count] Hx.
  destruct (6 <? count); [|exact Hx].
  destruct (Color_eqb color Yellow); cbn [andb].
  - destruct (lookupCount Orange _ <? 3); [|exact Hx].
    rewrite mask_replaceInGrid; [exact Hx| |]; destruct Hc as [->|[->|[->| ->]]]; discriminate.
  - destruct (Color_eqb color Orange); cbn [andb]; [|exact Hx].
    destruct (lookupCount Red _ <? 3); [|exact Hx].
    rewrite mask_replaceInGrid; [exact Hx| |]; destruct Hc as [->|[->|[->| ->]]]; discriminate.
Qed.

Lemma mask_validateColorConfusion (c : Color) (colors : ColorGrid) :
  c = Green \/ c = Unknown \/ c = Blue ->
  mask c (validateColorConfusion colors) = mask c colors.
Proof.
  intros Hc. unfold validateColorConfusion.
  destruct (length colors =? 0); [reflexivity|]. cbv zeta.
  set (cc := countColors notUnknown (flat colors)).
  assert (H1 : mask c (if (0 <? lookupCount White cc) && (0 <? lookupCount Yellow cc)
                       then if inCenter (positionsOf White colors)
                               && negb (inCenter (positionsOf Yellow colors))
                            then mapGrid (fun _ _ color =>
                                            if Color_eqb color White then Yellow
                                            else if Color_eqb color Yellow then White
                                            else color) colors
                            else colors
                       else colors) = mask c colors).
  { destruct ((0 <? lookupCount White cc) && (0 <? lookupCount Yellow cc)); [|reflexivity].
    destruct (inCenter (positionsOf White colors) && negb (inCenter (positionsOf Yellow colors)));
      [|reflexivity].
    apply mask_mapGrid. intros _ _ x.
    destruct Hc as [->|[->| ->]]; destruct x; reflexivity. }
  destruct ((0 <? lookupCount Orange cc) && (0 <? lookupCount Red cc)); [|exact H1].
  destruct (lookupCount Red cc <? lookupCount Orange cc); [|exact H1].
  rewrite mask_mapGrid; [exact H1|].
  intros i j x. destruct (isEdgeOrCorner i j && (2 <? lookupCount Orange cc));
    destruct Hc as [->|[->| ->]]; destruct x; reflexivity.
Qed.

Lemma mask_validateBlueYellowConfusion (c : Color) (colors : ColorGrid) :
  c <> Blue -> c <> Yellow ->
  mask c (validateBlueYellowConfusion colors) = mask c colors.
Proof.
  intros HB HY. unfold validateBlueYellowConfusion.
  destruct (length colors =? 0); [reflexivity|]. cbv zeta.
  set (cc := countColors (fun _ => true) (flat colors)).
  assert (H1 : mask c (if (4 <? lookupCount Yellow cc) && (lookupCount Blue cc <? 2)
                       then mapGrid (fun i j color =>
                                       if Color_eqb color Yellow
                                       then if isEdgeOrCorner i j && (4 <? lookupCount Yellow cc)
                                            then Blue else color
                                       else color) colors
                       else colors) = mask c colors).
  { destruct ((4 <? lookupCount Yellow cc) && (lookupCount Blue cc <? 2)); [|reflexivity].
    apply mask_mapGrid. intros i j x.
    destruct (isEdgeOrCorner i j && (4 <? lookupCount Yellow cc));
      destruct x, c; try reflexivity; contradiction. }
  destruct ((4 <? lookupCount Blue cc) && (lookupCount Yellow cc <? 2)); [|exact H1].
  rewrite mask_mapGrid; [exact H1|].
  intros i j x.
  destruct (isCenterOrMiddle i j && (4 <? lookupCount Blue cc));
    destruct x, c; try reflexivity; contradiction.
Qed.

Lemma mask_lengths (c : Color) (colors : ColorGrid) :
  map (@length bool) (mask c colors) = map (@length Color) colors.
Proof.
  unfold mask. rewrite map_map. apply map_ext. intros row. apply length_map.
Qed.

Lemma correctionPass_mask (c : Color) (colors : ColorGrid) :
  c = Green \/ c = Unknown -> mask c (correctionPass colors) = mask c colors.
Proof.
  intros Hc. unfold correctionPass.
  rewrite mask_validateBlueYellowConfusion by (destruct Hc as [->| ->]; discriminate).
  rewrite mask_validateColorConfusion by tauto.
  apply mask_validateAndCorrectColors. tauto.
Qed.

(** X28: the correction pass keeps the shape of a grid of any size and
    never moves, removes or creates a green or an unknown label; its
    first two validators leave every blue label in place, and the first
    one every white label. *)
Theorem corrector_keeps_shape_and_labels (colors : ColorGrid) :
  map (@length Color) (correctionPass colors) = map (@length Color) colors /\
  mask Green (correctionPass colors) = mask Green colors /\
  mask Unknown (correctionPass colors) = mask Unknown colors /\
  mask Blue (validateColorConfusion (validateAndCorrectColors colors)) = mask Blue colors /\
  mask White (validateAndCorrectColors colors) = mask White colors.
Proof.
  pose proof (fun c => correctionPass_mask c colors) as H.
  split.
  - rewrite <- !(mask_lengths Green). rewrite H by tauto. reflexivity.
  - split; [apply H; tauto|]. split; [apply H; tauto|]. split.
    + rewrite mask_validateColorConfusion by tauto. apply mask_validateAndCorrectColors. tauto.
    + apply mask_validateAndCorrectColors. tauto.
Qed.

Lemma count_occ_app_flat (c : Color) (row : list Color) (rows : ColorGrid) :
  countOf c (row :: rows) = count_occ Color_eq_dec row c + countOf c rows.
Proof. unfold countOf, flat. cbn [concat]. apply count_occ_app. Qed.

(** What [replaceInRow] does to the number of cells of each label. *)
Lemma replaceInRow_counts (from to : Color) (limit changed : nat) (row : list Color) :
  from <> to -> changed <= limit ->
  exists k,
    snd (replaceInRow from to limit changed row) = changed + k /\
    k = Nat.min (limit - changed) (count_occ Color_eq_dec row from) /\
    forall c,
      count_occ Color_eq_dec (fst (replaceInRow from to limit changed row)) c
      + (if Color_eqb c from then k else 0)
      = count_occ Color_eq_dec row c + (if Color_eqb c to then k else 0).
Proof.
  intros Hne. revert changed. induction row as [|x row IH]; intros changed Hle.
  - exists 0. cbn. repeat split; try lia. intros c. destruct (Color_eqb c from), (Color_eqb c to); lia.
  - cbn [replaceInRow]. destruct (changed <? limit) eqn:El.
    + apply Nat.ltb_lt in El. destruct (Color_eqb x from) eqn:E.
      * apply Color_eqb_eq in E. subst x.
        destruct (IH (S changed) ltac:(lia)) as (k & E1 & E2 & E3).
        destruct (replaceInRow from to limit (S changed) row) as [t' n]. cbn [fst snd] in *.
        exists (S k). split; [lia|]. split.
        { rewrite count_occ_cons_eq by reflexivity. lia. }
        intros c. specialize (E3 c). rewrite !count_occ_cons_eqb.
        destruct (Color_eqb to c) eqn:A; destruct (Color_eqb from c) eqn:B;
          destruct (Color_eqb c from) eqn:C; destruct (Color_eqb c to) eqn:D;
          try lia;
          try (apply Color_eqb_eq in A); try (apply Color_eqb_eq in B);
          try (apply Color_eqb_eq in C); try (apply Color_eqb_eq in D);
          try (apply Color_eqb_neq in A); try (apply Color_eqb_neq in B);
          try (apply Color_eqb_neq in C); try (apply Color_eqb_neq in D);
          subst; try congruence; try lia.
      * destruct (IH changed Hle) as (k & E1 & E2 & E3).
        destruct (replaceInRow from to limit changed row) as [t' n]. cbn [fst snd] in *.
        exists k. split; [lia|]. split.
        { apply Color_eqb_neq in E. rewrite count_occ_cons_neq by exact E. exact E2. }
        intros c. specialize (E3 c). rewrite !count_occ_cons_eqb. lia.
    + apply Nat.ltb_ge in El. exists 0. cbn [fst snd]. split; [lia|]. split; [lia|].
      intros c. destruct (Color_eqb c from), (Color_eqb c to); lia.
Qed.

Lemma replaceInGrid_counts (from to : Color) (limit changed : nat) (colors : ColorGrid) :
  from <> to -> changed <= limit ->
  forall c,
    countOf c (replaceInGrid from to limit changed colors)
    + (if Color_eqb c from then Nat.min (limit - changed) (countOf from colors) else 0)
    = countOf c colors
      + (if Color_eqb c to then Nat.min (limit - changed) (countOf from colors) else 0).
Proof.
  intros Hne. revert changed. induction colors as [|row colors IH]; intros changed Hle c.
  - cbn. destruct (Color_eqb c from), (Color_eqb c to); lia.
  - cbn [replaceInGrid]. destruct (changed <? limit) eqn:El.
    + destruct (replaceInRow_counts from to limit changed row Hne Hle) as (k & E1 & E2 & E3).
      destruct (replaceInRow from to limit changed row) as [row' n]. cbn [fst snd] in *.
      rewrite !count_occ_app_flat.
      specialize (IH n ltac:(lia) c). specialize (E3 c).
      destruct (Color_eqb c from), (Color_eqb c to); lia.
    + apply Nat.ltb_ge in El. replace (limit - changed) with 0 by lia. cbn [Nat.min].
      destruct (Color_eqb c from), (Color_eqb c to); lia.
Qed.

Lemma count_two (c c' : Color) (l : list Color) :
  c <> c' -> count_occ Color_eq_dec l c + count_occ Color_eq_dec l c' <= length l.
Proof.
  intros H. induction l as [|x l IH]; [cbn; lia|].
  rewrite !count_occ_cons_eqb. cbn [length].
  destruct (Color_eqb x c) eqn:A, (Color_eqb x c') eqn:B; try lia.
  apply Color_eqb_eq in A, B. congruence.
Qed.

Lemma lookupCount_present (c : Color) (cc : ColorCounts) :
  0 < lookupCount c cc -> In (c, lookupCount c cc) cc.
Proof.
  induction cc as [|[k n] cc IH]; cbn [lookupCount]; intros H; [lia|].
  destruct (Color_eqb k c) eqn:E.
  - apply Color_eqb_eq in E. subst k. left. reflexivity.
  - right. apply IH. exact H.
Qed.

(** A fold in which every entry but the one with key [k] leaves the state
    alone. *)
Lemma fold_left_single {A} (f : A -> Color * nat -> A) (k : Color) (n : nat)
    (cc : ColorCounts) (a : A) :
  NoDup (map fst cc) -> In (k, n) cc ->
  (forall x e, fst e <> k -> In e cc -> f x e = x) ->
  fold_left f cc a = f a (k, n).
Proof.
  intros Hn Hin Hf. revert a. induction cc as [|e cc IH]; intros a; [contradiction|].
  cbn [fold_left]. inversion Hn as [|? ? Hnot Hn']; subst.
  destruct Hin as [->|Hin].
  - apply fold_left_unchanged. intros e He. apply Hf; [|right; exact He].
    intros E. apply Hnot. cbn [fst]. rewrite <- E. apply in_map. exact He.
  - rewrite (Hf a e); [|  |left; reflexivity].
    + apply IH; [exact Hn'|exact Hin|]. intros x e' Hk He'. apply Hf; [exact Hk|right; exact He'].
    + intros E. apply Hnot. rewrite E. change k with (fst (k, n)). apply in_map. exact Hin.
Qed.

Lemma validateAndCorrectColors_yellow (colors : ColorGrid) :
  is3x3 colors -> 6 < countOf Yellow colors ->
  validateAndCorrectColors colors
  = replaceInGrid Yellow Orange (countOf Yellow colors - 6) 0 colors.
Proof.
  intros H HY. pose proof (length_flat_3x3 colors H) as H9.
  pose proof (count_two Yellow Orange (flat colors) ltac:(discriminate)) as H2.
  fold (countOf Yellow colors) in H2. fold (countOf Orange colors) in H2.
  unfold validateAndCorrectColors. destruct H as [Hl _]. rewrite Hl. cbn [Nat.eqb].
  set (cc := countColors isValidColor (flat colors)).
  destruct (countColors_keys isValidColor (flat colors) [] (NoDup_nil _)) as [Hn _].
  cbv zeta in Hn. fold cc in Hn.
  assert (LY : lookupCount Yellow cc = countOf Yellow colors)
    by (unfold cc; rewrite lookupCount_countColors; reflexivity).
  assert (LO : lookupCount Orange cc = countOf Orange colors)
    by (unfold cc; rewrite lookupCount_countColors; reflexivity).
  rewrite (fold_left_single _ Yellow (countOf Yellow colors) cc colors Hn).
  - replace (6 <? countOf Yellow colors) with true by (symmetry; apply Nat.ltb_lt; exact HY).
    cbn [Color_eqb andb]. rewrite LO.
    replace (countOf Orange colors <? 3) with true by (symmetry; apply Nat.ltb_lt; lia).
    reflexivity.
  - rewrite <- LY. apply lookupCount_present. lia.
  - intros x [color count] Hk Hin. cbn [fst] in Hk.
    pose proof (lookupCount_in color count cc Hn Hin) as Hc.
    unfold cc in Hc. rewrite lookupCount_countColors in Hc.
    destruct (6 <? count) eqn:E6; [|reflexivity]. apply Nat.ltb_lt in E6.
    destruct color; cbn [Color_eqb andb]; try reflexivity; try congruence.
    exfalso. cbn in Hc. lia.
Qed.

Lemma validateAndCorrectColors_orange (colors : ColorGrid) :
  is3x3 colors -> 6 < countOf Orange colors ->
  validateAndCorrectColors colors
  = replaceInGrid Orange Red (countOf Orange colors - 6) 0 colors.
Proof.
  intros H HO. pose proof (length_flat_3x3 colors H) as H9.
  pose proof (count_two Orange Red (flat colors) ltac:(discriminate)) as H2.
  fold (countOf Orange colors) in H2. fold (countOf Red colors) in H2.
  unfold validateAndCorrectColors. destruct H as [Hl _]. rewrite Hl. cbn [Nat.eqb].
  set (cc := countColors isValidColor (flat colors)).
  destruct (countColors_keys isValidColor (flat colors) [] (NoDup_nil _)) as [Hn _].
  cbv zeta in Hn. fold cc in Hn.
  assert (LO : lookupCount Orange cc = countOf Orange colors)
    by (unfold cc; rewrite lookupCount_countColors; reflexivity).
  assert (LR : lookupCount Red cc = countOf Red colors)
    by (unfold cc; rewrite lookupCount_countColors; reflexivity).
  rewrite (fold_left_single _ Orange (countOf Orange colors) cc colors Hn).
  - replace (6 <? countOf Orange colors) with true by (symmetry; apply Nat.ltb_lt; exact HO).
    cbn [Color_eqb andb]. rewrite LR.
    replace (countOf Red colors <? 3) with true by (symmetry; apply Nat.ltb_lt; lia).
    reflexivity.
  - rewrite <- LO. apply lookupCount_present. lia.
  - intros x [color count] Hk Hin. cbn [fst] in Hk.
    pose proof (lookupCount_in color count cc Hn Hin) as Hc.
    unfold cc in Hc. rewrite lookupCount_countColors in Hc.
    pose proof (count_two Yellow Orange (flat colors) ltac:(discriminate)) as H3.
    fold (countOf Yellow colors) in H3. fold (countOf Orange colors) in H3.
    destruct (6 <? count) eqn:E6; [|reflexivity]. apply Nat.ltb_lt in E6.
    destruct color; cbn [Color_eqb andb]; try reflexivity; try congruence.
    exfalso. cbn in Hc. lia.
Qed.

Lemma is3x3_rows {A B} (g : list (list A)) (g' : list (list B)) :
  map (@length B) g' = map (@length A) g -> is3x3 g -> is3x3 g'.
Proof.
  intros E [Hl Hr]. split.
  - rewrite <- (length_map (@length B)), E, length_map. exact Hl.
  - apply Forall_forall. intros row Hin.
    apply (in_map (@length B)) in Hin. rewrite E in Hin.
    apply in_map_iff in Hin. destruct Hin as (row0 & E0 & Hin0).
    rewrite Forall_forall in Hr. rewrite <- E0. apply Hr. exact Hin0.
Qed.

(** X29: on a 3x3 grid [validateAndCorrectColors] returns a 3x3 grid
    with at most six yellow and at most six orange labels, and applying
    it to its own result changes nothing. *)
Theorem validateAndCorrectColors_caps (colors : ColorGrid) :
  is3x3 colors ->
  is3x3 (validateAndCorrectColors colors) /\
  countOf Yellow (validateAndCorrectColors colors) <= 6 /\
  countOf Orange (validateAndCorrectColors colors) <= 6 /\
  validateAndCorrectColors (validateAndCorrectColors colors) = validateAndCorrectColors colors.
Proof.
  intros H.
  assert (Hshape : is3x3 (validateAndCorrectColors colors)).
  { apply (is3x3_rows colors); [|exact H].
    rewrite <- !(mask_lengths Green). rewrite mask_validateAndCorrectColors by tauto. reflexivity. }
  assert (Hcaps : countOf Yellow (validateAndCorrectColors colors) <= 6 /\
                  countOf Orange (validateAndCorrectColors colors) <= 6).
  { pose proof (length_flat_3x3 colors H) as H9.
    pose proof (count_two Yellow Orange (flat colors) ltac:(discriminate)) as H2.
    fold (countOf Yellow colors) in H2. fold (countOf Orange colors) in H2.
    destruct (le_lt_dec (countOf Yellow colors) 6) as [HY|HY].
    - destruct (le_lt_dec (countOf Orange colors) 6) as [HO|HO].
      + rewrite validateAndCorrectColors_quiet by assumption. split; assumption.
      + rewrite (validateAndCorrectColors_orange colors H HO).
        pose proof (replaceInGrid_counts Orange Red (countOf Orange colors - 6) 0 colors
                      ltac:(discriminate) ltac:(lia)) as Hc.
        pose proof (Hc Yellow) as HcY. pose proof (Hc Orange) as HcO.
        cbn [Color_eqb] in HcY, HcO. lia.
    - rewrite (validateAndCorrectColors_yellow colors H HY).
      pose proof (replaceInGrid_counts Yellow Orange (countOf Yellow colors - 6) 0 colors
                    ltac:(discriminate) ltac:(lia)) as Hc.
      pose proof (Hc Yellow) as HcY. pose proof (Hc Orange) as HcO.
      cbn [Color_eqb] in HcY, HcO. lia. }
  split; [exact Hshape|]. split; [tauto|]. split; [tauto|].
  apply validateAndCorrectColors_quiet; tauto.
Qed.

Lemma validateAndCorrectColors_caps_witness :
  is3x3 (validateAndCorrectColors (uniformColors Yellow)) /\
  countOf Yellow (validateAndCorrectColors (uniformColors Yellow)) <= 6 /\
  countOf Orange (validateAndCorrectColors (uniformColors Yellow)) <= 6 /\
  validateAndCorrectColors (validateAndCorrectColors (uniformColors Yellow))
  = validateAndCorrectColors (uniformColors Yellow).
Proof.
  apply (validateAndCorrectColors_caps (uniformColors Yellow)).
  split; [reflexivity|repeat constructor].
Defined.

Section AnalysisFacts.
Local Open Scope Q_scope.

Variable pow : Q -> Q -> Q.
Variable sqrt : Q -> Q.
Variable detectColorAdvanced : Q -> Q -> Q -> option Color.
Variable detectColorNeural : Q -> Q -> Q -> option Color.
Variable detectColorUltraAccurate : Q -> Q -> Q -> option Color.
Variable sampleColorOptimized : Q -> Q -> Q -> option (Q * Q * Q).
Variable calibrationData : option Calibration.
Variable mirrorMode : bool.









End AnalysisFacts.


